(** * whatsapp-ws-socket: the session lifecycle manager, embedded and verified

    The development follows the TypeScript sources:
    - [database.ts]        the credential store adapter ([DatabaseManager]);
    - [authState.ts]       the credential codec and the coalesced save path
                           ([AuthStateManager.getAuthState], [saveState]);
    - [WhatsAppManager.ts] the lifecycle manager ([startConnection],
                           [createConnection], [handleStreamRestart],
                           [cleanupSession], [deleteSession], [shutdown], ...);
    - [audioUtils.ts]      the converters ([processAudio], [isVoiceNote], ...);
    - [mediaProcessor.ts]  the media pipeline ([processMessageMedia],
                           [processMediaForBaileys], ...).

    JavaScript maps are finite maps ([gmap]) and sets are [gset].  Objects
    that are shared and mutated in place (sockets, the [connectionData]
    argument, promises, timers) live in an explicit heap indexed by
    allocation order.  Code that can throw is written in a small
    state-and-exception monad, so that every [try]/[catch] of the source is
    visible.

    Part I holds the definitions, Part II the properties, Part III
    runs of the model on concrete inputs. *)

From Stdlib Require Import ZArith Lia.
From stdpp Require Import gmap strings list fin_maps pretty.

Local Open Scope Z_scope.

(** * Part I: the model *)

(** ** Values that are thrown

    The [catch (error)] blocks of the source tell [Error] objects, whose
    [message] is reported, from any other thrown value. *)

Inductive Thrown :=
  | ErrorOf (message : string)
  | NonError.

(** [error instanceof Error ? error.message : 'Unknown error'] *)
Definition errorMessage (e : Thrown) : string :=
  match e with
  | ErrorOf m => m
  | NonError => "Unknown error"
  end.

(** ** The credential store adapter (database.ts) *)

(** The columns of a ["Whatsapps"] row that the manager reads or writes.
    A [NULL] column is [None]. *)
Record Row := mkRow {
  row_session : option string;
  row_status : option string;
  row_qrcode : option string
}.

(** The table, keyed by the numeric [id] column. *)
Abbreviation Store := (gmap Z Row).

Definition setSession (blob : string) (r : Row) : Row :=
  mkRow (Some blob) (row_status r) (row_qrcode r).

Definition setStatus (st : string) (r : Row) : Row :=
  mkRow (row_session r) (Some st) (row_qrcode r).

Definition setStatusQr (st : string) (qr : string) (r : Row) : Row :=
  mkRow (row_session r) (Some st) (Some qr).

Definition clearQr (r : Row) : Row :=
  mkRow (row_session r) (row_status r) None.

(** [UPDATE ... WHERE id = $k]: the row whose id equals the key is
    rewritten.  The key is what [parseInt] made of the session id; [NaN]
    ([None]) equals no id. *)
Definition updateWhere (f : Row -> Row) (k : option Z) (db : Store) : Store :=
  match k with
  | Some n => alter f n db
  | None => db
  end.

(** [UPDATE "Whatsapps" SET session = $1 WHERE id = $2] *)
Definition updateWhatsappSession (k : option Z) (blob : string) : Store -> Store :=
  updateWhere (setSession blob) k.

(** [updateWhatsappStatus(id, status, qrcode?)]: the QR column is written
    only when the third argument is given. *)
Definition updateWhatsappStatus (k : option Z) (st : string) (qr : option string)
  : Store -> Store :=
  match qr with
  | Some q => updateWhere (setStatusQr st q) k
  | None => updateWhere (setStatus st) k
  end.

(** [UPDATE "Whatsapps" SET qrcode = NULL WHERE id = $1] *)
Definition clearWhatsappQRCode (k : option Z) : Store -> Store :=
  updateWhere clearQr k.

(** [SELECT ... WHERE status != 'DISCONNECTED' ORDER BY id]: in SQL a
    [NULL] status does not satisfy [!=], so such rows are left out too.
    The result is used for its ids only, so its order is immaterial. *)
Definition selectable (r : Row) : bool :=
  match row_status r with
  | Some s => negb (String.eqb s "DISCONNECTED")
  | None => false
  end.

Definition getAllWhatsappConnections (db : Store) : list (Z * Row) :=
  filter (fun kr => selectable kr.2 = true) (map_to_list db).

(** ** The coalesced credential save (authState.ts)

    [getAuthState] returns a closure over [creds], [keys], [saveInProgress]
    and [pendingSave].  [saveState] is asynchronous: it runs up to
    [await updateWhatsappSession(...)], and its continuation runs when the
    store answers.  The machine below has one transition for the part of
    [saveState] before the [await] and one for the continuation. *)

(** The categories under which [keys.set] files its data.  [KEY_MAP] is
    an object literal, so [KEY_MAP[type]] is [undefined], which as a
    property name is ["undefined"], for the types that are neither listed
    nor names that the literal inherits from [Object.prototype]
    ([inheritedNames] below); for an inherited name the code gets the
    inherited value, which the function below does not model. *)
Definition KEY_MAP (type : string) : string :=
  if String.eqb type "pre-key" then "preKeys"
  else if String.eqb type "session" then "sessions"
  else if String.eqb type "sender-key" then "senderKeys"
  else if String.eqb type "app-state-sync-key" then "appStateSyncKeys"
  else if String.eqb type "app-state-sync-version" then "appStateVersions"
  else if String.eqb type "sender-key-memory" then "senderKeyMemory"
  else if String.eqb type "lid-mapping" then "lidMappings"
  else if String.eqb type "device-index" then "deviceIndexes"
  else if String.eqb type "device-list" then "deviceLists"
  else "undefined".

(** [keys]: category, then key id, then an opaque key blob. *)
Abbreviation Keys := (gmap string (gmap string string)).

(** The loop of [keys.set]:
    [keys[key] = keys[key] || {}; Object.assign(keys[key], data[i])]. *)
Definition assignKeys (data : Keys) (keys : Keys) : Keys :=
  map_fold (fun i d ks => <[KEY_MAP i := d ∪ default ∅ (ks !! KEY_MAP i)]> ks)
           keys data.

(** ** Builtins for the runs of Part III

    [parseInt] on a string: the value of its leading decimal digits, [NaN]
    when there is none (ids are unsigned numerals); and a credential
    bundle that is a string and its own serialization. *)
Fixpoint digitsValue (acc : option Z) (s : string) : option Z :=
  match s with
  | EmptyString => acc
  | String c rest =>
      let n := Z.of_nat (Ascii.nat_of_ascii c) - 48 in
      if (0 <=? n) && (n <=? 9)
      then digitsValue (Some (10 * default 0 acc + n)) rest
      else acc
  end.

Definition parseDecimal (s : string) : option Z := digitsValue None s.

Definition plainStringify (creds : string) (keys : Keys) : string := creds.

Definition plainParse (blob : string) : option (string * Keys) := Some (blob, ∅).

Definition plainInit (n : nat) : string := "fresh".

(** The types that [KEY_MAP] lists. *)
Definition signalTypes : list string :=
  ["pre-key"; "session"; "sender-key"; "app-state-sync-key";
   "app-state-sync-version"; "sender-key-memory"; "lid-mapping";
   "device-index"; "device-list"].

(** The property names that an object literal inherits from
    [Object.prototype].  Read from a category, such a name gives the
    inherited value when the category has no entry of its own, and
    [Object.assign] of ["__proto__"] replaces the prototype; the key store
    below is about the other names. *)
Definition inheritedNames : list string :=
  ["constructor"; "__defineGetter__"; "__defineSetter__"; "hasOwnProperty";
   "__lookupGetter__"; "__lookupSetter__"; "isPrototypeOf";
   "propertyIsEnumerable"; "toString"; "valueOf"; "__proto__";
   "toLocaleString"].

Definition inherited (name : string) : bool :=
  existsb (String.eqb name) inheritedNames.

(** The types of [data] and the ids filed under them are names of their
    own. *)
Definition ownNames (data : Keys) : bool :=
  forallb (fun tc : string * gmap string string =>
             negb (inherited tc.1) &&
             forallb (fun iv : string * string => negb (inherited iv.1))
                     (map_to_list tc.2))
          (map_to_list data).

(** [keys[key]?.[id]] for the key of a type, the id being no inherited
    name. *)
Definition filed (keys : Keys) (type : string) (id : string) : option string :=
  keys !! KEY_MAP type ≫= fun category : gmap string string => category !! id.

(** [keys.get(type, ids)]: for each id, what is filed under the type's
    category, if it is truthy (the blob [""] stands for a falsy value);
    [create] is [proto.Message.AppStateSyncKeyData.create]. *)
Definition keysGet (create : string -> string) (type : string)
    (ids : list string) (keys : Keys) : gmap string string :=
  foldl (fun dict id =>
           match filed keys type id with
           | Some value =>
               if String.eqb value "" then dict
               else <[id := if String.eqb type "app-state-sync-key"
                            then create value else value]> dict
           | None => dict
           end) ∅ ids.

(** What [keys.get] makes of a filed value. *)
Definition asRead (create : string -> string) (type : string) (value : string)
  : option string :=
  if String.eqb value "" then None
  else Some (if String.eqb type "app-state-sync-key" then create value else value).

(** Membership in a list of literals. *)
Ltac among :=
  rewrite ?elem_of_cons, ?elem_of_nil; repeat first [left; reflexivity | right].

Section Model.

(** What the model takes from outside the repository: the credential
    bundle of the protocol library and its JSON codec, and [parseInt]
    ([None] is [NaN]).
    - [stringify creds keys] is
      [JSON.stringify({ creds, keys }, BufferJSON.replacer)];
    - [parseSession blob] is [JSON.parse(blob, BufferJSON.reviver)], [None]
      when it throws;
    - [initAuthCreds n] is the fresh identity drawn by the [n]-th call. *)
Context {Creds : Type}.
Variable stringify : Creds -> Keys -> string.
Variable parseSession : string -> option (Creds * Keys).
Variable initAuthCreds : nat -> Creds.
Variable parseInt : string -> option Z.

Record Closure := mkClosure {
  sessionId : string;
  creds : Creds;
  keys : Keys;
  saveInProgress : bool;
  pendingSave : bool;
  (** store writes that were issued and have not been answered, oldest first *)
  inflight : list string;
  (** how many store writes were issued so far *)
  issued : nat;
  db : Store
}.

(** [saveState(updatedCreds)] up to its [await]. *)
Definition saveState (updatedCreds : Creds) (c : Closure) : Closure :=
  let c := mkClosure (sessionId c) updatedCreds (keys c) (saveInProgress c)
                     (pendingSave c) (inflight c) (issued c) (db c) in
  if saveInProgress c then
    mkClosure (sessionId c) (creds c) (keys c) (saveInProgress c) true
              (inflight c) (issued c) (db c)
  else
    mkClosure (sessionId c) (creds c) (keys c) true (pendingSave c)
              (inflight c ++ [stringify (creds c) (keys c)]) (S (issued c)) (db c).

(** [keys.set(data)]: merge, then [saveState(creds)]. *)
Definition keysSet (data : Keys) (c : Closure) : Closure :=
  let c := mkClosure (sessionId c) (creds c) (assignKeys data (keys c))
                     (saveInProgress c) (pendingSave c) (inflight c)
                     (issued c) (db c) in
  saveState (creds c) c.

(** The continuation of [saveState] after the [await].  A write that
    succeeded has updated the row; then [saveInProgress = false] and, if
    [pendingSave], [pendingSave = false; await saveState(creds)].  A write
    that failed lands in the [catch]: only [saveInProgress = false]. *)
Definition writeAnswered (ok : bool) (c : Closure) : Closure :=
  match inflight c with
  | [] => c
  | blob :: rest =>
      if ok then
        let c := mkClosure (sessionId c) (creds c) (keys c) false (pendingSave c)
                   rest (issued c)
                   (updateWhatsappSession (parseInt (sessionId c)) blob (db c)) in
        if pendingSave c then
          saveState (creds c)
            (mkClosure (sessionId c) (creds c) (keys c) (saveInProgress c) false
                       (inflight c) (issued c) (db c))
        else c
      else
        mkClosure (sessionId c) (creds c) (keys c) false (pendingSave c) rest
                  (issued c) (db c)
  end.

Inductive SaveEvent :=
  | SaveRequested (updatedCreds : Creds)   (* [creds.update]: saveState(state.creds) *)
  | KeysSet (data : Keys)                  (* the key store's [set] *)
  | WriteAnswered (ok : bool).             (* the store answers the oldest write *)

Definition saveStep (e : SaveEvent) (c : Closure) : Closure :=
  match e with
  | SaveRequested u => saveState u c
  | KeysSet d => keysSet d c
  | WriteAnswered ok => writeAnswered ok c
  end.

Definition saveRun (es : list SaveEvent) (c : Closure) : Closure :=
  foldl (fun c e => saveStep e c) c es.

(** The closure as [getAuthState] returns it. *)
Definition freshClosure (id : string) (c0 : Creds) (k0 : Keys) (db0 : Store)
  : Closure :=
  mkClosure id c0 k0 false false [] 0 db0.

(** The credential state after the events, flags aside. *)
Definition dataAfter (es : list SaveEvent) (ck : Creds * Keys) : Creds * Keys :=
  foldl (fun ck e =>
           match e with
           | SaveRequested u => (u, ck.2)
           | KeysSet d => (ck.1, assignKeys d ck.2)
           | WriteAnswered _ => ck
           end) ck es.

Definition isRequest (e : SaveEvent) : bool :=
  match e with WriteAnswered _ => false | _ => true end.

Definition succeeds (e : SaveEvent) : bool :=
  match e with WriteAnswered ok => ok | _ => true end.

(** A write is in flight exactly while [saveInProgress] is set, and then
    there is one. *)
Definition coherent (c : Closure) : Prop :=
  if saveInProgress c then exists blob, inflight c = [blob] else inflight c = [].

(** The invariant of the runs in which the store accepts every write. *)
Definition settling (id : string) (c0 : Creds) (k0 : Keys) (db0 : Store)
    (es : list SaveEvent) (c : Closure) : Prop :=
  let d := dataAfter es (c0, k0) in
  let k := parseInt id in
  sessionId c = id /\ creds c = d.1 /\ keys c = d.2 /\
  if saveInProgress c then
    existsb isRequest es = true /\
    exists blob, inflight c = [blob] /\
      (pendingSave c = false -> blob = stringify d.1 d.2) /\
      (db c = db0 \/ exists b', db c = updateWhatsappSession k b' db0)
  else
    inflight c = [] /\ pendingSave c = false /\
    db c = if existsb isRequest es
           then updateWhatsappSession k (stringify d.1 d.2) db0 else db0.

(** ** The lifecycle manager (WhatsAppManager.ts): data *)

Inductive Status := CONNECTING | CONNECTED | DISCONNECTED | QR_PENDING.

Definition statusText (s : Status) : string :=
  match s with
  | CONNECTING => "CONNECTING"
  | CONNECTED => "CONNECTED"
  | DISCONNECTED => "DISCONNECTED"
  | QR_PENDING => "QR_PENDING"
  end.

(** [StartConnectionData].  [session] is [None] for [null] and [undefined]. *)
Record StartConnectionData := mkConnectionData {
  cd_id : string;
  cd_name : option string;
  cd_companyId : option Z;
  cd_session : option string
}.

(** A [Session]: the socket that [makeWASocket] returned, with the
    properties [createConnection] sets on it, and the variables of the
    closures that [createConnection] registers on it.  Sockets, the
    [connectionData] objects, promises and timers are referred to by their
    allocation index. *)
Record Session := mkSession {
  s_id : string;
  s_name : option string;
  s_companyId : option Z;
  s_status : Status;
  s_qrCode : option string;
  (** [wsocket.user] is set; the transport maintains it *)
  s_user : bool;
  (** [state] of [getAuthState] *)
  s_auth : Creds * Keys;
  (** the [connectionData] object the handlers close over *)
  s_connectionData : nat;
  (** the promise whose [resolve] and [reject] the handlers close over *)
  s_promise : nat;
  (** the listeners have not been removed *)
  s_listening : bool;
  (** [end()] was called *)
  s_ended : bool;
  (** [logout()] completed *)
  s_loggedOut : bool;
  (** what [end()] and [logout()] throw on this socket, if they do *)
  s_faulty : option Thrown
}.

Definition sock_status (v : Status) (s : Session) : Session :=
  mkSession (s_id s) (s_name s) (s_companyId s) v (s_qrCode s) (s_user s)
            (s_auth s) (s_connectionData s) (s_promise s) (s_listening s)
            (s_ended s) (s_loggedOut s) (s_faulty s).

Definition sock_qrCode (v : option string) (s : Session) : Session :=
  mkSession (s_id s) (s_name s) (s_companyId s) (s_status s) v (s_user s)
            (s_auth s) (s_connectionData s) (s_promise s) (s_listening s)
            (s_ended s) (s_loggedOut s) (s_faulty s).

Definition sock_user (v : bool) (s : Session) : Session :=
  mkSession (s_id s) (s_name s) (s_companyId s) (s_status s) (s_qrCode s) v
            (s_auth s) (s_connectionData s) (s_promise s) (s_listening s)
            (s_ended s) (s_loggedOut s) (s_faulty s).

Definition sock_auth (v : Creds * Keys) (s : Session) : Session :=
  mkSession (s_id s) (s_name s) (s_companyId s) (s_status s) (s_qrCode s)
            (s_user s) v (s_connectionData s) (s_promise s) (s_listening s)
            (s_ended s) (s_loggedOut s) (s_faulty s).

Definition sock_listening (v : bool) (s : Session) : Session :=
  mkSession (s_id s) (s_name s) (s_companyId s) (s_status s) (s_qrCode s)
            (s_user s) (s_auth s) (s_connectionData s) (s_promise s) v
            (s_ended s) (s_loggedOut s) (s_faulty s).

Definition sock_ended (v : bool) (s : Session) : Session :=
  mkSession (s_id s) (s_name s) (s_companyId s) (s_status s) (s_qrCode s)
            (s_user s) (s_auth s) (s_connectionData s) (s_promise s)
            (s_listening s) v (s_loggedOut s) (s_faulty s).

Definition sock_loggedOut (v : bool) (s : Session) : Session :=
  mkSession (s_id s) (s_name s) (s_companyId s) (s_status s) (s_qrCode s)
            (s_user s) (s_auth s) (s_connectionData s) (s_promise s)
            (s_listening s) (s_ended s) v (s_faulty s).

(** The private maps of [WhatsAppManager].  [sessions] and
    [connectionPromises] hold references; [sessionStates] is only ever
    written, so its keys suffice. *)
Record Manager := mkManager {
  sessions : gmap string nat;
  connectionPromises : gmap string nat;
  deletedSessions : gset string;
  pendingReconnects : gmap string nat;
  retryAttempts : gmap string nat;
  sessionStates : gset string
}.

Definition maxRetryAttempts : nat := 5.

(** The promise that [createConnection] returns.  It is pending while the
    version is fetched and while the socket negotiates. *)
Inductive Promise :=
  | Fetching (connectionData : nat) (captured : StartConnectionData)
  | Negotiating (sock : nat)
  | Resolved (sock : nat)
  | Rejected (error : Thrown).

Definition settled (p : Promise) : bool :=
  match p with
  | Resolved _ | Rejected _ => true
  | _ => false
  end.

(** Who awaits the result of [startConnection]: the gateway, which sends it
    to the client under the call's number, or the callback of a restart
    timer. *)
Inductive Origin :=
  | Gateway (call : nat)
  | Restart.

(** A call of [startConnection] suspended at
    [await connectionPromise] ([owner]) or at
    [await this.connectionPromises.get(id)]. *)
Record Waiter := mkWaiter {
  w_promise : nat;
  w_owner : bool;
  w_id : string;
  w_origin : Origin
}.

(** The callback of [handleStreamRestart], scheduled by [setTimeout]. *)
Record Timer := mkTimer {
  t_connectionData : nat;
  t_delay : Z
}.

Record StartResult := mkStartResult {
  success : bool;
  message : string;
  qrCode : option string
}.

(** What the manager emits to its listeners. *)
Inductive Emitted :=
  | ConnectionUpdateData (whatsappId : string) (status : Status)
      (qrCode : option string) (error : option string)
  | QrGenerated (whatsappId : string) (qrCode : string).

(** The manager, the runtime's heap, the store with the answers it will
    give ([Some msg]: the call throws [Error(msg)]; no entry: it succeeds),
    and what was observed from outside. *)
Record World := mkWorld {
  mgr : Manager;
  socks : list Session;
  cdata : list StartConnectionData;
  promises : list Promise;
  (** [None]: the timer fired or was cleared *)
  timers : list (option Timer);
  waiters : list Waiter;
  store : Store;
  faults : list (option string);
  emitted : list Emitted;
  (** results sent back to the gateway's callers *)
  returned : list (nat * StartResult);
  (** ids for which [makeWASocket] was called *)
  opened : list string;
  (** calls of the transport's [sendMessage]: socket, jid, content *)
  sent : list (nat * string * string)
}.

(** Field updates. *)

Definition m_sessions (f : gmap string nat -> gmap string nat) (m : Manager) : Manager :=
  mkManager (f (sessions m)) (connectionPromises m) (deletedSessions m)
    (pendingReconnects m) (retryAttempts m) (sessionStates m).

Definition m_connectionPromises (f : gmap string nat -> gmap string nat) (m : Manager) : Manager :=
  mkManager (sessions m) (f (connectionPromises m)) (deletedSessions m)
    (pendingReconnects m) (retryAttempts m) (sessionStates m).

Definition m_deletedSessions (f : gset string -> gset string) (m : Manager) : Manager :=
  mkManager (sessions m) (connectionPromises m) (f (deletedSessions m))
    (pendingReconnects m) (retryAttempts m) (sessionStates m).

Definition m_pendingReconnects (f : gmap string nat -> gmap string nat) (m : Manager) : Manager :=
  mkManager (sessions m) (connectionPromises m) (deletedSessions m)
    (f (pendingReconnects m)) (retryAttempts m) (sessionStates m).

Definition m_retryAttempts (f : gmap string nat -> gmap string nat) (m : Manager) : Manager :=
  mkManager (sessions m) (connectionPromises m) (deletedSessions m)
    (pendingReconnects m) (f (retryAttempts m)) (sessionStates m).

Definition m_sessionStates (f : gset string -> gset string) (m : Manager) : Manager :=
  mkManager (sessions m) (connectionPromises m) (deletedSessions m)
    (pendingReconnects m) (retryAttempts m) (f (sessionStates m)).

Definition on_mgr (f : Manager -> Manager) (w : World) : World :=
  mkWorld (f (mgr w)) (socks w) (cdata w) (promises w) (timers w)
    (waiters w) (store w) (faults w) (emitted w) (returned w) (opened w)
    (sent w).

Definition on_socks (f : list Session -> list Session) (w : World) : World :=
  mkWorld (mgr w) (f (socks w)) (cdata w) (promises w) (timers w)
    (waiters w) (store w) (faults w) (emitted w) (returned w) (opened w)
    (sent w).

Definition on_cdata (f : list StartConnectionData -> list StartConnectionData) (w : World) : World :=
  mkWorld (mgr w) (socks w) (f (cdata w)) (promises w) (timers w)
    (waiters w) (store w) (faults w) (emitted w) (returned w) (opened w)
    (sent w).

Definition on_promises (f : list Promise -> list Promise) (w : World) : World :=
  mkWorld (mgr w) (socks w) (cdata w) (f (promises w)) (timers w)
    (waiters w) (store w) (faults w) (emitted w) (returned w) (opened w)
    (sent w).

Definition on_timers (f : list (option Timer) -> list (option Timer)) (w : World) : World :=
  mkWorld (mgr w) (socks w) (cdata w) (promises w) (f (timers w))
    (waiters w) (store w) (faults w) (emitted w) (returned w) (opened w)
    (sent w).

Definition on_waiters (f : list Waiter -> list Waiter) (w : World) : World :=
  mkWorld (mgr w) (socks w) (cdata w) (promises w) (timers w)
    (f (waiters w)) (store w) (faults w) (emitted w) (returned w) (opened w)
    (sent w).

Definition on_store (f : Store -> Store) (w : World) : World :=
  mkWorld (mgr w) (socks w) (cdata w) (promises w) (timers w) (waiters w)
    (f (store w)) (faults w) (emitted w) (returned w) (opened w) (sent w).

Definition on_faults (f : list (option string) -> list (option string)) (w : World) : World :=
  mkWorld (mgr w) (socks w) (cdata w) (promises w) (timers w) (waiters w)
    (store w) (f (faults w)) (emitted w) (returned w) (opened w) (sent w).

Definition on_emitted (f : list Emitted -> list Emitted) (w : World) : World :=
  mkWorld (mgr w) (socks w) (cdata w) (promises w) (timers w) (waiters w)
    (store w) (faults w) (f (emitted w)) (returned w) (opened w) (sent w).

Definition on_returned (f : list (nat * StartResult) -> list (nat * StartResult)) (w : World) : World :=
  mkWorld (mgr w) (socks w) (cdata w) (promises w) (timers w) (waiters w)
    (store w) (faults w) (emitted w) (f (returned w)) (opened w) (sent w).

Definition on_opened (f : list string -> list string) (w : World) : World :=
  mkWorld (mgr w) (socks w) (cdata w) (promises w) (timers w) (waiters w)
    (store w) (faults w) (emitted w) (returned w) (f (opened w)) (sent w).

Definition on_sent (f : list (nat * string * string) -> list (nat * string * string)) (w : World) : World :=
  mkWorld (mgr w) (socks w) (cdata w) (promises w) (timers w) (waiters w)
    (store w) (faults w) (emitted w) (returned w) (opened w) (f (sent w)).

Definition on_sessions f := on_mgr (m_sessions f).
Definition on_connectionPromises f := on_mgr (m_connectionPromises f).
Definition on_deletedSessions f := on_mgr (m_deletedSessions f).
Definition on_pendingReconnects f := on_mgr (m_pendingReconnects f).
Definition on_retryAttempts f := on_mgr (m_retryAttempts f).
Definition on_sessionStates f := on_mgr (m_sessionStates f).

(** The state of a fresh [WhatsAppManager] over a given store. *)
Definition emptyManager : Manager := mkManager ∅ ∅ ∅ ∅ ∅ ∅.

Definition initialWorld (db0 : Store) (answers : list (option string)) : World :=
  mkWorld emptyManager [] [] [] [] [] db0 answers [] [] [] [].

(** ** Control: state and exceptions *)

Inductive Completion (A : Type) :=
  | Normal (a : A)
  | Abrupt (e : Thrown).
Arguments Normal {A} a.
Arguments Abrupt {A} e.

Definition Js (A : Type) : Type := World -> Completion A * World.

Definition ret {A} (a : A) : Js A := fun w => (Normal a, w).

Definition throw {A} (e : Thrown) : Js A := fun w => (Abrupt e, w).

Definition bind {A B} (m : Js A) (k : A -> Js B) : Js B :=
  fun w =>
    match m w with
    | (Normal a, w') => k a w'
    | (Abrupt e, w') => (Abrupt e, w')
    end.

(** [try { m } catch (e) { h e }] *)
Definition tryCatch {A} (m : Js A) (h : Thrown -> Js A) : Js A :=
  fun w =>
    match m w with
    | (Normal a, w') => (Normal a, w')
    | (Abrupt e, w') => h e w'
    end.

Definition gets {A} (f : World -> A) : Js A := fun w => (Normal (f w), w).

Definition modify (f : World -> World) : Js unit := fun w => (Normal tt, f w).

Definition when (b : bool) (m : Js unit) : Js unit := if b then m else ret tt.

(** The world a computation leaves, whatever its completion. *)
Definition exec {A} (m : Js A) (w : World) : World := (m w).2.

Notation "'do' x <- m ; k" := (bind m (fun x => k))
  (at level 10, x name, m at level 100, k at level 200, only parsing).
Notation "'run' m ; k" := (bind m (fun _ => k))
  (at level 10, m at level 100, k at level 200, only parsing).

(** ** The runtime: heap, store, timers, promises *)

(** The [connectionData] object behind a reference. *)
Definition connData (w : World) (r : nat) : StartConnectionData :=
  default (mkConnectionData "" None None None) (cdata w !! r).

Definition updateSock (s : nat) (f : Session -> Session) : Js unit :=
  modify (on_socks (alter f s)).

(** [this.emit(...)] *)
Definition emit (e : Emitted) : Js unit :=
  modify (on_emitted (fun l => l ++ [e])).

(** A statement sent to the store: the store's next answer decides whether
    it takes effect or throws. *)
Definition query (f : Store -> Store) : Js unit :=
  fun w =>
    match head (faults w) with
    | Some (Some msg) => (Abrupt (ErrorOf msg), on_faults (drop 1) w)
    | _ => (Normal tt, on_store f (on_faults (drop 1) w))
    end.

Definition fetchAll : Js (list (Z * Row)) :=
  fun w =>
    match head (faults w) with
    | Some (Some msg) => (Abrupt (ErrorOf msg), on_faults (drop 1) w)
    | _ => (Normal (getAllWhatsappConnections (store w)), on_faults (drop 1) w)
    end.

(** [setTimeout(callback, delay)] returns the new timer. *)
Definition setTimeout (t : Timer) : Js nat :=
  fun w => (Normal (length (timers w)), on_timers (fun l => l ++ [Some t]) w).

Definition clearTimeout (t : nat) : Js unit :=
  modify (on_timers (<[t := None]>)).

(** [resolve(v)] and [reject(e)] of a promise: the first one wins. *)
Definition settle (p : nat) (v : Promise) : Js unit :=
  modify (on_promises (fun ps =>
    match ps !! p with
    | Some pr => if settled pr then ps else <[p := v]> ps
    | None => ps
    end)).

(** [await promise] inside [startConnection]. *)
Definition await (wt : Waiter) : Js unit :=
  modify (on_waiters (fun l => l ++ [wt])).

(** [session.end(undefined)] *)
Definition endSocket (s : nat) : Js unit :=
  do sk <- gets (fun w => socks w !! s);
  run updateSock s (sock_ended true);
  match sk ≫= s_faulty with
  | Some e => throw e
  | None => ret tt
  end.

(** [session.logout()] *)
Definition logout (s : nat) : Js unit :=
  do sk <- gets (fun w => socks w !! s);
  match sk ≫= s_faulty with
  | Some e => throw e
  | None => updateSock s (sock_loggedOut true)
  end.

Fixpoint forEach {A} (l : list A) (body : A -> Js unit) : Js unit :=
  match l with
  | [] => ret tt
  | x :: l' => run body x; forEach l' body
  end.

(** [AuthStateManager.getAuthState(id, initialSession)]: the state it
    loads.  [if (initialSession)] fails for the empty string; a blob that
    does not parse gives way to fresh credentials. *)
Definition getAuthState (n : nat) (initialSession : option string)
  : Creds * Keys :=
  match initialSession with
  | Some blob =>
      if String.eqb blob "" then (initAuthCreds n, ∅)
      else match parseSession blob with
           | Some ck => ck
           | None => (initAuthCreds n, ∅)
           end
  | None => (initAuthCreds n, ∅)
  end.

(** [AuthStateManager.deleteAuthState] *)
Definition deleteAuthState (sessionId : string) : Js unit :=
  tryCatch (query (updateWhatsappSession (parseInt sessionId) ""))
           (fun _ => ret tt).

(** ** The lifecycle manager: operations *)

(** [removeSession] *)
Definition removeSession (whatsappId : string) : Js unit :=
  modify (on_sessions (delete whatsappId)).

(** [cleanupSession]: the whole body is inside [try], and so is the call
    of [end]. *)
Definition cleanupSession (sessionId : string) : Js unit :=
  tryCatch
    (do session <- gets (fun w => sessions (mgr w) !! sessionId);
     run match session with
         | Some s =>
             run tryCatch (endSocket s) (fun _ => ret tt);
             updateSock s (sock_listening false)
         | None => ret tt
         end;
     run modify (on_sessions (delete sessionId));
     run modify (on_connectionPromises (delete sessionId));
     run modify (on_sessionStates (fun x => x ∖ {[sessionId]}));
     do pendingTimeout <- gets (fun w => pendingReconnects (mgr w) !! sessionId);
     run match pendingTimeout with
         | Some t =>
             run clearTimeout t;
             modify (on_pendingReconnects (delete sessionId))
         | None => ret tt
         end;
     modify (on_retryAttempts (delete sessionId)))
    (fun _ => ret tt).

(** [deleteSession] *)
Definition deleteSession (whatsappId : string) : Js bool :=
  tryCatch
    (run modify (on_deletedSessions (fun x => {[whatsappId]} ∪ x));
     do pendingTimeout <- gets (fun w => pendingReconnects (mgr w) !! whatsappId);
     run match pendingTimeout with
         | Some t =>
             run clearTimeout t;
             modify (on_pendingReconnects (delete whatsappId))
         | None => ret tt
         end;
     run modify (on_retryAttempts (delete whatsappId));
     run cleanupSession whatsappId;
     ret true)
    (fun _ => ret false).

(** [disconnectSession] *)
Definition disconnectSession (whatsappId : string) : Js bool :=
  tryCatch
    (do session <- gets (fun w => sessions (mgr w) !! whatsappId);
     match session with
     | Some s =>
         run logout s;
         run deleteAuthState whatsappId;
         ret true
     | None => ret false
     end)
    (fun _ => ret false).

(** [Math.min(baseDelay * Math.pow(2, currentRetries), maxDelay)] *)
Definition baseDelay : Z := 2000.
Definition maxDelay : Z := 30000.

Definition backoffDelay (currentRetries : nat) : Z :=
  Z.min (baseDelay * 2 ^ Z.of_nat currentRetries) maxDelay.

(** [handleStreamRestart] *)
Definition handleStreamRestart (connectionData : nat) : Js unit :=
  do id <- gets (fun w => cd_id (connData w connectionData));
  tryCatch
    (do currentRetries <-
       gets (fun w => default 0%nat (retryAttempts (mgr w) !! id));
     if (maxRetryAttempts <=? currentRetries)%nat then
       run modify (on_retryAttempts (delete id));
       tryCatch (query (updateWhatsappStatus (parseInt id) "DISCONNECTED" None))
                (fun _ => ret tt)
     else
       run modify (on_retryAttempts (<[id := S currentRetries]>));
       let delay := backoffDelay currentRetries in
       do restartTimeout <- setTimeout (mkTimer connectionData delay);
       modify (on_pendingReconnects (<[id := restartTimeout]>)))
    (fun _ => ret tt).

(** What the caller of [startConnection] does with the result: the gateway
    sends it to its client; the callback of a restart timer resets the
    retry count when the restart succeeded. *)
Definition deliver (o : Origin) (id : string) (r : StartResult) : Js unit :=
  match o with
  | Gateway call => modify (on_returned (fun l => l ++ [(call, r)]))
  | Restart => when (success r) (modify (on_retryAttempts (delete id)))
  end.

(** [createConnection] up to [await fetchLatestBaileysVersion()]: the
    argument is destructured and the promise of the call exists. *)
Definition createConnection (connectionData : nat) : Js nat :=
  do captured <- gets (fun w => connData w connectionData);
  fun w =>
    (Normal (length (promises w)),
     on_promises (fun l => l ++ [Fetching connectionData captured]) w).

(** [startConnection] up to its [await].  A call that finds a connected
    session returns at once; the others wait for a promise. *)
Definition startConnection (o : Origin) (connectionData : nat) : Js unit :=
  do id <- gets (fun w => cd_id (connData w connectionData));
  tryCatch
    (do wasDeleted <- gets (fun w => bool_decide (id ∈ deletedSessions (mgr w)));
     run when wasDeleted (modify (on_deletedSessions (fun x => x ∖ {[id]})));
     do existingSession <-
       gets (fun w => sessions (mgr w) !! id ≫= fun s => socks w !! s);
     if match existingSession with Some sk => s_user sk | None => false end then
       deliver o id
         (mkStartResult true ("Session " +:+ id +:+ " already connected") None)
     else
       do inProgress <- gets (fun w => connectionPromises (mgr w) !! id);
       match inProgress with
       | Some p => await (mkWaiter p false id o)
       | None =>
           do connectionPromise <- createConnection connectionData;
           run modify (on_connectionPromises (<[id := connectionPromise]>));
           await (mkWaiter connectionPromise true id o)
       end)
    (fun error =>
       deliver o id
         (mkStartResult false
            ("Error starting connection: " +:+ errorMessage error) None)).

(** [startConnection] after its [await]: the owner of the attempt removes
    the token; everyone builds a result from the outcome. *)
Definition resumeStartConnection (wt : Waiter) (outcome : Promise) : Js unit :=
  let id := w_id wt in
  run when (w_owner wt) (modify (on_connectionPromises (delete id)));
  match outcome with
  | Resolved s =>
      do session <- gets (fun w => socks w !! s);
      deliver (w_origin wt) id
        (mkStartResult true
           (if w_owner wt then "Session " +:+ id +:+ " initialized"
            else "Connection for " +:+ id +:+ " established")
           (session ≫= s_qrCode))
  | Rejected error =>
      deliver (w_origin wt) id
        (mkStartResult false
           ("Error starting connection: " +:+ errorMessage error) None)
  | _ => ret tt
  end.

(** The promise reactions: every waiter whose promise is settled resumes,
    in the order of the [await]s. *)
Definition ready (w : World) (wt : Waiter) : bool :=
  match promises w !! w_promise wt with
  | Some pr => settled pr
  | None => false
  end.

Definition outcomeOf (w : World) (wt : Waiter) : Promise :=
  default (Rejected NonError) (promises w !! w_promise wt).

Definition drain : Js unit :=
  do now <- gets (fun w => filter (fun wt => ready w wt = true) (waiters w));
  run modify (fun w => on_waiters (filter (fun wt => ready w wt = false)) w);
  forEach now (fun wt =>
    do outcome <- gets (fun w => outcomeOf w wt);
    resumeStartConnection wt outcome).

(** ** [createConnection] after the version is known, and its listeners *)

Inductive Connection := Open | Close | Connecting.

(** [lastDisconnect?.error]: [output.statusCode] and [message]. *)
Record DisconnectError := mkDisconnectError {
  statusCode : option Z;
  errorText : option string
}.

(** The argument of the ['connection.update'] listener. *)
Record Update := mkUpdate {
  connection : option Connection;
  lastDisconnect : option DisconnectError;
  qr : option string;
  isNewLogin : bool
}.

(** The transport's events, as updates. *)
Definition qrIssued (payload : string) : Update :=
  mkUpdate None None (Some payload) false.

Definition opened_ (newLogin : bool) : Update :=
  mkUpdate (Some Open) None None newLogin.

Definition closed (reason : option DisconnectError) : Update :=
  mkUpdate (Some Close) reason None false.

Definition isOpen (u : Update) : bool :=
  match connection u with Some Open => true | _ => false end.

Definition isClose (u : Update) : bool :=
  match connection u with Some Close => true | _ => false end.

(** [noRestartErrorCodes = [401, 403]] *)
Definition noRestartErrorCodes : list Z := [401; 403].

(** [statusCode === 408 && lastError?.message === 'QR refs attempts ended'] *)
Definition isQrAttemptsEnded (e : option DisconnectError) : bool :=
  match e with
  | Some err =>
      match statusCode err, errorText err with
      | Some c, Some m => (c =? 408) && String.eqb m "QR refs attempts ended"
      | _, _ => false
      end
  | None => false
  end.

(** [statusCode && noRestartErrorCodes.includes(statusCode) || isQrAttemptsEnded] *)
Definition noRestart (e : option DisconnectError) : bool :=
  match e ≫= statusCode with
  | Some c => negb (c =? 0) && existsb (Z.eqb c) noRestartErrorCodes
  | None => false
  end || isQrAttemptsEnded e.

(** The rest of [createConnection]: on a failed fetch the [catch] rethrows
    and the promise is rejected; otherwise the state is loaded, the socket
    is made and the listeners are registered. *)
Definition versionFetched (p : nat) (answer : option Thrown) : Js unit :=
  do pr <- gets (fun w => promises w !! p);
  match pr with
  | Some (Fetching connectionData captured) =>
      match answer with
      | Some error => settle p (Rejected error)
      | None =>
          let id := cd_id captured in
          do s <- gets (fun w => length (socks w));
          let state := getAuthState s (cd_session captured) in
          run modify (on_sessionStates (fun x => {[id]} ∪ x));
          run modify (on_opened (fun l => l ++ [id]));
          run modify (on_socks (fun l => l ++
                [mkSession id (cd_name captured) (cd_companyId captured)
                   CONNECTING None false state connectionData p true false
                   false None]));
          modify (on_promises (<[p := Negotiating s]>))
      end
  | _ => ret tt
  end.

(** [enhancedSaveState]: [saveState(state.creds)] inside two [try]s.  A
    listener runs to its end before another starts, so the save finds no
    write in flight and issues its own. *)
Definition enhancedSaveState (s : nat) : Js unit :=
  tryCatch
    (do sk <- gets (fun w => socks w !! s);
     match sk with
     | Some sk =>
         query (updateWhatsappSession (parseInt (s_id sk))
                  (stringify (s_auth sk).1 (s_auth sk).2))
     | None => ret tt
     end)
    (fun _ => ret tt).

(** [connectionData.session = JSON.stringify(exportStateData(), ...)] *)
Definition rememberSession (s : nat) : Js unit :=
  do sk <- gets (fun w => socks w !! s);
  match sk with
  | Some sk =>
      modify (on_cdata (alter (fun cd =>
        mkConnectionData (cd_id cd) (cd_name cd) (cd_companyId cd)
          (Some (stringify (s_auth sk).1 (s_auth sk).2)))
        (s_connectionData sk)))
  | None => ret tt
  end.

(** The [close] branch; its result says whether the listener returned. *)
Definition onClose (s : nat) (sk : Session) (u : Update) : Js bool :=
  let id := s_id sk in
  let lastError := lastDisconnect u in
  run updateSock s (sock_status DISCONNECTED);
  run removeSession id;
  if noRestart lastError then
    run query (updateWhatsappStatus (parseInt id) "DISCONNECTED" None);
    run emit (ConnectionUpdateData id DISCONNECTED None
                (Some ("Connection closed for " +:+ id)));
    run settle (s_promise sk) (Rejected (ErrorOf ("Connection closed for " +:+ id)));
    ret true
  else
    run tryCatch (handleStreamRestart (s_connectionData sk)) (fun _ => ret tt);
    run emit (ConnectionUpdateData id DISCONNECTED None (lastError ≫= errorText));
    run settle (s_promise sk) (Rejected (ErrorOf ("Connection closed for " +:+ id)));
    ret false.

(** The [open] branch. *)
Definition onOpen (s : nat) (sk : Session) : Js unit :=
  let id := s_id sk in
  run updateSock s (sock_status CONNECTED);
  run modify (on_sessions (<[id := s]>));
  run tryCatch
        (run query (updateWhatsappStatus (parseInt id) "CONNECTED" None);
         query (clearWhatsappQRCode (parseInt id)))
        (fun _ => ret tt);
  run emit (ConnectionUpdateData id CONNECTED None None);
  settle (s_promise sk) (Resolved s).

(** The [qr] branch. *)
Definition onQr (s : nat) (sk : Session) (payload : string) : Js unit :=
  let id := s_id sk in
  run updateSock s (sock_status QR_PENDING);
  run updateSock s (sock_qrCode (Some payload));
  run modify (on_sessions (<[id := s]>));
  run tryCatch
        (query (updateWhatsappStatus (parseInt id) "QR_PENDING" (Some payload)))
        (fun _ => ret tt);
  run emit (QrGenerated id payload);
  emit (ConnectionUpdateData id QR_PENDING (Some payload) None).

(** The ['connection.update'] listener of socket [s]. *)
Definition onConnectionUpdate (s : nat) (u : Update) : Js unit :=
  do sk <- gets (fun w => socks w !! s);
  match sk with
  | Some sk =>
      run when (isNewLogin u && isOpen u)
            (tryCatch (run enhancedSaveState s; rememberSession s)
                      (fun _ => ret tt));
      do returned <- (if isClose u then onClose s sk u else ret false);
      if returned then ret tt
      else
        run when (isOpen u) (onOpen s sk);
        match qr u with
        | Some payload => onQr s sk payload
        | None => ret tt
        end
  | None => ret tt
  end.

(** The ['creds.update'] listener of socket [s]. *)
Definition onCredsUpdate (s : nat) : Js unit :=
  tryCatch (run enhancedSaveState s; rememberSession s) (fun _ => ret tt).

(** The callback that [handleStreamRestart] hands to [setTimeout]. *)
Definition restartCallback (connectionData : nat) : Js unit :=
  do id <- gets (fun w => cd_id (connData w connectionData));
  tryCatch
    (run modify (on_pendingReconnects (delete id));
     run cleanupSession id;
     run modify (on_connectionPromises (delete id));
     startConnection Restart connectionData)
    (fun _ => handleStreamRestart connectionData).

(** [reconcileSessionsWithDatabase].  [String(c.id)] is the decimal
    numeral. *)
Definition reconcileSessionsWithDatabase : Js unit :=
  tryCatch
    (do dbConnections <- fetchAll;
     let dbIds : gset string :=
       list_to_set ((fun c : Z * Row => pretty c.1) <$> dbConnections) in
     do ids <- gets (fun w => (map_to_list (sessions (mgr w))).*1);
     run forEach ids (fun sessionId =>
           when (negb (bool_decide (sessionId ∈ dbIds)))
             (tryCatch (do _ <- deleteSession sessionId; ret tt)
                       (fun _ => ret tt)));
     modify (on_deletedSessions (fun _ => ∅)))
    (fun _ => ret tt).

(** ** [sendMessage] *)

Record SendMessageData := mkSendMessageData {
  sm_whatsappId : string;
  sm_to : string;
  sm_message : string
}.

(** What [mediaProcessor.processMessageMedia] answers:
    [{ success: true, processedMessage }], [{ success: false, error }], or
    a throw. *)
Inductive PipelineAnswer :=
  | Processed (processedMessage : string)
  | NotProcessed (error : option string)
  | PipelineThrew (e : Thrown).

(** What the transport's [sendMessage] answers. *)
Inductive TransportAnswer :=
  | Delivered (sentMessage : option string)
  | TransportThrew (e : Thrown).

(** What [sendMessage] returns: [{ success: false, error }] or whatever the
    transport returned. *)
Inductive SendResult :=
  | Failure (error : option string)
  | SentMessage (sentMessage : option string).

Definition sendMessage (sendData : SendMessageData) (onlyAudio : bool)
    (processMessageMedia : string -> bool -> PipelineAnswer)
    (transport : TransportAnswer) : Js SendResult :=
  let whatsappId := sm_whatsappId sendData in
  tryCatch
    (do session <- gets (fun w => sessions (mgr w) !! whatsappId);
     match session with
     | None =>
         ret (Failure (Some ("WhatsApp session " +:+ whatsappId +:+ " not found")))
     | Some s =>
         do sk <- gets (fun w => socks w !! s);
         if negb (match sk with Some sk => s_user sk | None => false end) then
           ret (Failure
                  (Some ("WhatsApp session " +:+ whatsappId +:+ " not connected")))
         else
           match processMessageMedia (sm_message sendData) onlyAudio with
           | PipelineThrew e => throw e
           | NotProcessed error => ret (Failure error)
           | Processed processedMessage =>
               run modify (on_sent (fun l =>
                     l ++ [(s, sm_to sendData, processedMessage)]));
               match transport with
               | Delivered sentMessage => ret (SentMessage sentMessage)
               | TransportThrew e => throw e
               end
           end
     end)
    (fun error => ret (Failure (Some (errorMessage error)))).

(** ** Events

    One event is one turn of the event loop: a call from the gateway, an
    answer to [fetchLatestBaileysVersion], a transport event delivered to a
    socket's listeners, a timer that fires, a tick of the reconciliation
    interval, or the application removing a row from the store.  A turn
    runs to its end, with the store answering inside it; then the promise
    reactions run.  So the histories of [runEvents] are the schedules in
    which every [await] of a listener or callback on the store is answered
    before the next event is delivered; a listener that is suspended at an
    [await] while another event is handled is not among them. *)
Inductive Event :=
  | CallStartConnection (call : nat) (data : StartConnectionData)
  | VersionFetched (p : nat) (answer : option Thrown)
  | ConnectionUpdate (s : nat) (u : Update)
  | CredsUpdate (s : nat) (state : Creds * Keys)
  | UserSet (s : nat) (present : bool)
  | TimerFired (t : nat)
  | CallDeleteSession (id : string)
  | CallDisconnectSession (id : string)
  | ReconcileTick
  | RowDeleted (row : Z).

Definition listening (w : World) (s : nat) : bool :=
  match socks w !! s with
  | Some sk => s_listening sk
  | None => false
  end.

Definition dispatch (e : Event) : Js unit :=
  match e with
  | CallStartConnection call data =>
      do connectionData <- gets (fun w => length (cdata w));
      run modify (on_cdata (fun l => l ++ [data]));
      startConnection (Gateway call) connectionData
  | VersionFetched p answer => versionFetched p answer
  | ConnectionUpdate s u =>
      do on <- gets (fun w => listening w s);
      when on (onConnectionUpdate s u)
  | CredsUpdate s state =>
      run updateSock s (sock_auth state);
      do on <- gets (fun w => listening w s);
      when on (onCredsUpdate s)
  | UserSet s present => updateSock s (sock_user present)
  | TimerFired t =>
      do timer <- gets (fun w => timers w !! t);
      match timer with
      | Some (Some tm) =>
          run modify (on_timers (<[t := None]>));
          restartCallback (t_connectionData tm)
      | _ => ret tt
      end
  | CallDeleteSession id => do _ <- deleteSession id; ret tt
  | CallDisconnectSession id => do _ <- disconnectSession id; ret tt
  | ReconcileTick => reconcileSessionsWithDatabase
  | RowDeleted row => modify (on_store (delete row))
  end.

Definition step (e : Event) (w : World) : World :=
  exec drain (exec (dispatch e) w).

Definition runEvents (es : list Event) (w : World) : World :=
  foldl (fun w e => step e w) w es.

(** ** What a teardown leaves

    The socket registered under an id after [end()] was called on it and
    its listeners were removed, and the timers after the one recorded for
    the id was cleared. *)
Definition released (id : string) (w : World) : list Session :=
  match sessions (mgr w) !! id with
  | Some s => alter (sock_listening false) s (alter (sock_ended true) s (socks w))
  | None => socks w
  end.

Definition cancelled (id : string) (w : World) : list (option Timer) :=
  match pendingReconnects (mgr w) !! id with
  | Some t => <[t := None]> (timers w)
  | None => timers w
  end.

(** The store accepts the next [k] statements. *)
Definition accepting (k : nat) (w : World) : bool :=
  forallb (fun a : option string => match a with Some _ => false | None => true end)
          (take k (faults w)).

(** The reasons for which the ['connection.update'] listener does not
    restart: status code 401 or 403, or 408 with the message of exhausted
    QR attempts. *)
Definition terminalReason (reason : option DisconnectError) : Prop :=
  exists err, reason = Some err /\
    (statusCode err = Some 401 \/ statusCode err = Some 403 \/
     (statusCode err = Some 408 /\ errorText err = Some "QR refs attempts ended")).

(** The promise has not been settled. *)
Definition pendingAt (w : World) (p : nat) : Prop :=
  exists pr, promises w !! p = Some pr /\ settled pr = false.

(** Every suspended call waits for a pending promise: the state between
    two turns of the event loop. *)
Definition quiescent (w : World) : Prop :=
  forall wt, wt ∈ waiters w -> pendingAt w (w_promise wt).

(** A connected session is registered under the id:
    [existingSession && existingSession.user]. *)
Definition connected (w : World) (id : string) : bool :=
  match sessions (mgr w) !! id ≫= fun s => socks w !! s with
  | Some sk => s_user sk
  | None => false
  end.

(** [startConnection] forgets that the id was deleted. *)
Definition forgetDeleted (id : string) (w : World) : World :=
  if bool_decide (id ∈ deletedSessions (mgr w))
  then on_deletedSessions (fun x => x ∖ {[id]}) w
  else w.

(** The suspended call of a gateway caller: its number, and whether it owns
    the attempt. *)
Definition gatewayWaiter (p : nat) (id : string) (c : nat * bool) : Waiter :=
  mkWaiter p c.2 id (Gateway c.1).

(** The result such a caller gets from an attempt that opened. *)
Definition establishedResult (id : string) (qrCode : option string)
    (c : nat * bool) : nat * StartResult :=
  (c.1, mkStartResult true
          (if c.2 then "Session " +:+ id +:+ " initialized"
           else "Connection for " +:+ id +:+ " established")
          qrCode).

(** World [W] is world [w] with one more attempt, for [id], whose promise
    is [promise] and on which the calls [cs] of the gateway wait. *)
Definition attemptInFlight (w W : World) (id : string) (promise : Promise)
    (cs : list (nat * bool)) : Prop :=
  promises W = promises w ++ [promise] /\
  connectionPromises (mgr W) !! id = Some (length (promises w)) /\
  waiters W = waiters w ++ (gatewayWaiter (length (promises w)) id <$> cs) /\
  sessions (mgr W) = sessions (mgr w) /\
  opened W = opened w /\ returned W = returned w.

Definition callEvents (calls : list (nat * StartConnectionData)) : list Event :=
  (fun c => CallStartConnection c.1 c.2) <$> calls.

(** The ids that a reconciliation pass keeps, and the pass over the
    registered ids. *)
Definition dbIds (d : Store) : gset string :=
  list_to_set ((fun c : Z * Row => pretty c.1) <$> getAllWhatsappConnections d).

Definition evictAll (keep : gset string) (ids : list string) (w : World) : World :=
  foldl (fun w id => if bool_decide (id ∈ keep) then w
                     else exec (deleteSession id) w) w ids.

(** The socket was told to end and has no listeners. *)
Definition tornDown (w : World) (s : nat) : Prop :=
  exists sk, socks w !! s = Some sk /\ s_ended sk = true /\ s_listening sk = false.

(** What [deleteSession] has removed stays removed. *)
Definition gone (id : string) (w : World) : Prop :=
  sessions (mgr w) !! id = None /\ pendingReconnects (mgr w) !! id = None /\
  retryAttempts (mgr w) !! id = None /\ connectionPromises (mgr w) !! id = None.

(** [quiescent], as a test. *)
Definition quiescentb (w : World) : bool :=
  forallb (fun wt => match promises w !! w_promise wt with
                     | Some pr => negb (settled pr)
                     | None => false
                     end) (waiters w).

(** ** Inputs of the runs of Part III

    One row, number 42, without credentials; the call that the gateway
    makes for it; two reasons for a close, one transient and one terminal;
    and three histories of the event loop. *)
Definition row42 : Row := mkRow None (Some "CONNECTING") None.

Definition store42 : Store := {[ 42 := row42 ]}.

Definition world42 : World := initialWorld store42 [].

Definition data42 : StartConnectionData :=
  mkConnectionData "42" (Some "sales") (Some 7) None.

Definition connectionLost : option DisconnectError :=
  Some (mkDisconnectError (Some 428) (Some "Connection Closed")).

Definition loggedOut : option DisconnectError :=
  Some (mkDisconnectError (Some 401) (Some "Stream Errored (conflict)")).

(** A first connection up to the QR. *)
Definition pairing : list Event :=
  [CallStartConnection 1 data42; VersionFetched 0 None;
   ConnectionUpdate 0 (qrIssued "qr-1")].

(** A session that opened, lost its connection, and is started again by
    the gateway while the restart timer is pending; this time the
    transport issues a QR before it opens. *)
Definition reopening : list Event :=
  [CallStartConnection 1 data42; VersionFetched 0 None;
   ConnectionUpdate 0 (opened_ false); ConnectionUpdate 0 (closed connectionLost);
   CallStartConnection 2 data42; VersionFetched 1 None;
   ConnectionUpdate 1 (qrIssued "qr-1"); ConnectionUpdate 1 (opened_ true)].

(** The same, except that the second connection is lost before it opens,
    so that a second timer is scheduled while the first is pending; the
    first timer fires and its connection gets to the QR. *)
Definition twoTimers : list Event :=
  [CallStartConnection 1 data42; VersionFetched 0 None;
   ConnectionUpdate 0 (opened_ false); ConnectionUpdate 0 (closed connectionLost);
   CallStartConnection 2 data42; VersionFetched 1 None;
   ConnectionUpdate 1 (closed connectionLost);
   TimerFired 0; VersionFetched 2 None; ConnectionUpdate 2 (qrIssued "qr-2")].

(** A session that opened and lost its connection; the gateway starts it
    again and, while that attempt waits for the version, the restart timer
    fires. *)
Definition overlapping : list Event :=
  [CallStartConnection 1 data42; VersionFetched 0 None;
   ConnectionUpdate 0 (opened_ false); ConnectionUpdate 0 (closed connectionLost);
   CallStartConnection 2 data42; TimerFired 0;
   VersionFetched 1 None; VersionFetched 2 None].

(** ** What the rest of Part II is about *)

(** The fetch of a reconciliation pass lists the id: it is the decimal
    numeral of the id of a row whose status is neither [NULL] nor
    DISCONNECTED. *)
Definition listed (d : Store) (id : string) : Prop :=
  exists n row, d !! n = Some row /\ selectable row = true /\ pretty n = id.

(** What the manager holds under an id. *)
Definition entries (w : World) (id : string)
  : option nat * option nat * option nat * option nat :=
  (sessions (mgr w) !! id, connectionPromises (mgr w) !! id,
   pendingReconnects (mgr w) !! id, retryAttempts (mgr w) !! id).

(** A session started under the numeral ["042"] for row 42. *)
Definition data042 : StartConnectionData :=
  mkConnectionData "042" (Some "sales") (Some 7) None.

Definition padded : list Event :=
  [CallStartConnection 1 data042; VersionFetched 0 None;
   ConnectionUpdate 0 (qrIssued "qr-1")].
(** ** The shape of the states between two turns *)

Definition isFetching (pr : Promise) : bool :=
  match pr with Fetching _ _ => true | _ => false end.

(** What ties the manager's maps to the heap:
    - the session registered under an id is a socket made for that id;
    - an attempt token and a suspended call name a promise that exists;
    - the timer recorded for an id is live and restarts that id;
    - a stored retry count is between 1 and [maxRetryAttempts];
    - a live timer has a delay between [baseDelay] and [maxDelay];
    - a socket was made by the attempt whose promise it settles, one socket
      per attempt, and [makeWASocket] was called once for each socket. *)
Record wellFormed (w : World) : Prop := mkWellFormed {
  wf_registry : forall id s, sessions (mgr w) !! id = Some s ->
    exists sk, socks w !! s = Some sk /\ s_id sk = id;
  wf_tokens : forall id p, connectionPromises (mgr w) !! id = Some p ->
    (p < length (promises w))%nat;
  wf_waiters : forall wt, wt ∈ waiters w ->
    (w_promise wt < length (promises w))%nat;
  wf_reconnects : forall id t, pendingReconnects (mgr w) !! id = Some t ->
    exists tm, timers w !! t = Some (Some tm) /\
               cd_id (connData w (t_connectionData tm)) = id;
  wf_retries : forall id n, retryAttempts (mgr w) !! id = Some n ->
    (1 <= n <= maxRetryAttempts)%nat;
  wf_timers : forall t tm, timers w !! t = Some (Some tm) ->
    baseDelay <= t_delay tm <= maxDelay /\
    (t_connectionData tm < length (cdata w))%nat;
  wf_socks : forall s sk, socks w !! s = Some sk ->
    (s_connectionData sk < length (cdata w))%nat /\
    exists pr, promises w !! s_promise sk = Some pr /\ isFetching pr = false;
  wf_fetching : forall p cdr captured,
    promises w !! p = Some (Fetching cdr captured) ->
    (cdr < length (cdata w))%nat;
  wf_distinct : forall s s' sk sk',
    socks w !! s = Some sk -> socks w !! s' = Some sk' ->
    s_promise sk = s_promise sk' -> s = s';
  wf_opened : opened w = s_id <$> socks w
}.

(** A field update that leaves alone what identifies a socket. *)
Definition sameSocket (f : Session -> Session) : Prop :=
  forall sk, s_id (f sk) = s_id sk /\ s_promise (f sk) = s_promise sk /\
             s_connectionData (f sk) = s_connectionData sk.

(** The computation keeps the property, however it completes. *)
Definition preserves (I : World -> Prop) {A} (m : Js A) : Prop :=
  forall w, I w -> I (exec m w).

(** Socket [s] of the state is what [sk] was, up to the fields that the
    handlers write. *)
Definition sameAt (w : World) (s : nat) (sk : Session) : Prop :=
  exists sk', socks w !! s = Some sk' /\ s_id sk' = s_id sk /\
              s_promise sk' = s_promise sk /\
              s_connectionData sk' = s_connectionData sk.

(** The heap of [w] is the heap of [w0], grown: the [connectionData]
    objects of [w0] exist, and so do its sockets. *)
Definition grows (w0 w : World) : Prop :=
  (length (cdata w0) <= length (cdata w))%nat /\
  forall s sk, socks w0 !! s = Some sk -> sameAt w s sk.

(** The shape is kept, and so is the heap of the state [w0] in which the
    turn began. *)
Definition inv (w0 w : World) : Prop := wellFormed w /\ grows w0 w.

(** The states of the service: what a history of turns makes of a fresh
    manager, whatever the store holds and answers. *)
Definition reachable (w : World) : Prop :=
  exists d answers es, w = runEvents es (initialWorld d answers).
(** [DatabaseManager.getWhatsappConnection(id)]: the row whose id equals
    the key, if there is one. *)
Definition getWhatsappConnection (k : option Z) : Js (option Row) :=
  fun w =>
    match head (faults w) with
    | Some (Some msg) => (Abrupt (ErrorOf msg), on_faults (drop 1) w)
    | _ => (Normal (k ≫= fun n => store w !! n), on_faults (drop 1) w)
    end.

(** [AuthStateManager.exportAuthState]: [dbConnection?.session || null]
    inside [try]; after the [catch] it returns [null].
    [WhatsAppManager.exportSession] is this call. *)
Definition exportAuthState (sessionId : string) : Js (option string) :=
  tryCatch
    (do dbConnection <- getWhatsappConnection (parseInt sessionId);
     ret (match dbConnection ≫= row_session with
          | Some session => if String.eqb session "" then None else Some session
          | None => None
          end))
    (fun _ => ret None).

Definition exportSession (whatsappId : string) : Js (option string) :=
  exportAuthState whatsappId.
(** The rows that the history deletes from outside. *)
Definition deletedRows (es : list Event) : gset Z :=
  list_to_set (omap (fun e => match e with RowDeleted row => Some row | _ => None end) es).
(** The computation returns to its caller: no exception leaves it. *)
Definition completes {A} (m : Js A) : Prop :=
  forall w, exists a, (m w).1 = Normal a.
(** ** [shutdown]

    The manager with the handle of its reconciliation interval
    ([reconciliationTimer]: set, or [undefined]). *)
Record Service := mkService {
  sv_world : World;
  reconciliationTimer : bool
}.

(** The callback of the interval runs while the interval is set. *)
Definition reconciliationTick (sv : Service) : Service :=
  if reconciliationTimer sv
  then mkService (step ReconcileTick (sv_world sv)) true
  else sv.

(** [shutdown]: the interval is cleared, and [cleanupSession] is called for
    the registered ids; it awaits nothing, so each call has run to its end
    when the next one starts. *)
Definition shutdown (sv : Service) : Service :=
  mkService
    (exec (do ids <- gets (fun w => (map_to_list (sessions (mgr w))).*1);
           forEach ids (fun sessionId =>
             tryCatch (cleanupSession sessionId) (fun _ => ret tt)))
          (sv_world sv))
    false.

(** [cleanupSession] for the ids of a list, one after the other. *)
Definition cleanAll (ids : list string) (w : World) : World :=
  foldl (fun w id => exec (cleanupSession id) w) w ids.
(** ** The media pipeline (audioUtils.ts, mediaProcessor.ts): data

    A [Buffer] is its bytes.  What a message carries as media is any
    JavaScript value; the pipeline tells strings, buffers, objects (of
    which it reads [data] and, when it is a string, [url]) and the rest,
    of which only the truth value matters. *)

Definition Buffer : Type := list Byte.byte.

Inductive Inner :=
  | IString (s : string)
  | IBuffer (b : Buffer)
  | IOther (truthy : bool).

Inductive Media :=
  | MString (s : string)
  | MBuffer (b : Buffer)
  | MObject (data : Inner) (url : option string)
  | MOther (truthy : bool).

Definition truthyString (s : string) : bool := negb (String.eqb s "").

Definition truthyInner (d : Inner) : bool :=
  match d with
  | IString s => truthyString s
  | IBuffer _ => true
  | IOther t => t
  end.

Definition truthyMedia (m : Media) : bool :=
  match m with
  | MString s => truthyString s
  | MBuffer _ | MObject _ _ => true
  | MOther t => t
  end.

(** A property that is [undefined] is [None]. *)
Definition given (m : option Media) : bool :=
  match m with
  | Some m => truthyMedia m
  | None => false
  end.

(** [ProcessedMessage]; [pm_others] holds the properties that the pipeline
    does not name. *)
Record Message := mkMessage {
  pm_text : option string;
  pm_image : option Media;
  pm_audio : option Media;
  pm_video : option Media;
  pm_document : option Media;
  pm_ptt : option bool;
  pm_mimetype : option string;
  pm_caption : option string;
  pm_fileName : option string;
  pm_jpegThumbnail : option Buffer;
  pm_others : gmap string string
}.

(** [{}] *)
Definition emptyMessage : Message :=
  mkMessage None None None None None None None None None None ∅.

Definition with_image (v : option Media) (m : Message) : Message :=
  mkMessage (pm_text m) v (pm_audio m) (pm_video m) (pm_document m) (pm_ptt m)
    (pm_mimetype m) (pm_caption m) (pm_fileName m) (pm_jpegThumbnail m)
    (pm_others m).

Definition with_audio (v : option Media) (m : Message) : Message :=
  mkMessage (pm_text m) (pm_image m) v (pm_video m) (pm_document m) (pm_ptt m)
    (pm_mimetype m) (pm_caption m) (pm_fileName m) (pm_jpegThumbnail m)
    (pm_others m).

Definition with_document (v : option Media) (m : Message) : Message :=
  mkMessage (pm_text m) (pm_image m) (pm_audio m) (pm_video m) v (pm_ptt m)
    (pm_mimetype m) (pm_caption m) (pm_fileName m) (pm_jpegThumbnail m)
    (pm_others m).

(** [Object.assign(target, source)]: the properties that [source] has
    replace those of [target]. *)
Definition assign (target source : Message) : Message :=
  let pick {A} (s t : option A) : option A :=
    match s with Some v => Some v | None => t end in
  mkMessage (pick (pm_text source) (pm_text target))
    (pick (pm_image source) (pm_image target))
    (pick (pm_audio source) (pm_audio target))
    (pick (pm_video source) (pm_video target))
    (pick (pm_document source) (pm_document target))
    (pick (pm_ptt source) (pm_ptt target))
    (pick (pm_mimetype source) (pm_mimetype target))
    (pick (pm_caption source) (pm_caption target))
    (pick (pm_fileName source) (pm_fileName target))
    (pick (pm_jpegThumbnail source) (pm_jpegThumbnail target))
    (pm_others source ∪ pm_others target).

(** [{ success, processedMessage, error }] *)
Record MediaResult := mkMediaResult {
  mr_success : bool;
  mr_processedMessage : Message;
  mr_error : option string
}.

(** [error instanceof Error ? error.message : fallback] *)
Definition messageOr (fallback : string) (e : Thrown) : string :=
  match e with
  | ErrorOf m => m
  | NonError => fallback
  end.

(** ** The media pipeline: strings and paths *)

(** [s.includes(sub)] *)
Fixpoint includes (s sub : string) : bool :=
  String.prefix sub s ||
  match s with
  | EmptyString => false
  | String _ s' => includes s' sub
  end.

(** [s.endsWith(suffix)] *)
Definition endsWith (s suffix : string) : bool :=
  (String.length suffix <=? String.length s)%nat &&
  String.eqb (String.substring (String.length s - String.length suffix)
                (String.length suffix) s) suffix.

(** [/^[A-Za-z0-9+/=]*$/.test(data)] *)
Definition isBase64Char (a : Ascii.ascii) : bool :=
  let n := Z.of_N (Ascii.N_of_ascii a) in
  ((65 <=? n) && (n <=? 90)) || ((97 <=? n) && (n <=? 122)) ||
  ((48 <=? n) && (n <=? 57)) || (n =? 43) || (n =? 47) || (n =? 61).

Fixpoint isBase64 (s : string) : bool :=
  match s with
  | EmptyString => true
  | String a s' => isBase64Char a && isBase64 s'
  end.

(** [isVoiceNote(filename?, mimetype?)] *)
Definition isVoiceNote (filename mimetype : option string) : bool :=
  match filename with
  | Some f => truthyString f && includes f "audio-record-site"
  | None => false
  end
  || match mimetype with
     | Some m => String.eqb m "audio/ogg" || String.eqb m "audio/opus"
     | None => false
     end
  || match filename with
     | Some f => truthyString f && (endsWith f ".ogg" || endsWith f ".opus")
     | None => false
     end.

(** ** The media pipeline: the host

    What the pipeline gets from outside: the base64 decoder
    ([Buffer.from(s, 'base64')]), the directory of temporary files
    ([os.tmpdir()], a normalised path), the converter (what [exec] of the
    ffmpeg command makes of the input file's content, or the message of its
    error), the network ([downloadToBuffer]: the body, or a rejection) and
    [path.parse(fileName).name]. *)

Inductive Profile := VoiceNote | RegularAudio | Mp4 | Thumbnail.

Variable fromBase64 : string -> Buffer.
Variable tmpdir : string.
Variable ffmpeg : Profile -> option Buffer -> Buffer + string.
Variable downloadToBuffer : string -> option Buffer.
Variable parsedName : string -> string.

(** [path.join(os.tmpdir(), name)] *)
Definition join (dir name : string) : string := dir +:+ "/" +:+ name.

(** The files, and the times that [Date.now()] will give.  Reading a file
    that is not there throws; writing and removing succeed. *)
Record Env := mkEnv {
  disk : gmap string Buffer;
  clock : list Z
}.

Definition on_disk (f : gmap string Buffer -> gmap string Buffer) (e : Env) : Env :=
  mkEnv (f (disk e)) (clock e).

Definition Io (A : Type) : Type := Env -> Completion A * Env.

Definition io_ret {A} (a : A) : Io A := fun e => (Normal a, e).

Definition io_throw {A} (x : Thrown) : Io A := fun e => (Abrupt x, e).

Definition io_bind {A B} (m : Io A) (k : A -> Io B) : Io B :=
  fun e =>
    match m e with
    | (Normal a, e') => k a e'
    | (Abrupt x, e') => (Abrupt x, e')
    end.

Definition io_try {A} (m : Io A) (h : Thrown -> Io A) : Io A :=
  fun e =>
    match m e with
    | (Normal a, e') => (Normal a, e')
    | (Abrupt x, e') => h x e'
    end.

Definition io_lift {A} (c : Completion A) : Io A := fun e => (c, e).

Notation "'io' x <- m ; k" := (io_bind m (fun x => k))
  (at level 10, x name, m at level 100, k at level 200, only parsing).

(** [Date.now()] *)
Definition now : Io Z :=
  fun e => (Normal (default 0 (head (clock e))), mkEnv (disk e) (tail (clock e))).

Definition writeFileSync (path : string) (b : Buffer) : Io unit :=
  fun e => (Normal tt, on_disk (<[path := b]>) e).

Definition readFileSync (path : string) : Io Buffer :=
  fun e =>
    match disk e !! path with
    | Some b => (Normal b, e)
    | None => (Abrupt (ErrorOf ("ENOENT: no such file or directory, open '"
                                +:+ path +:+ "'")), e)
    end.

Definition existsSync (path : string) : Io bool :=
  fun e => (Normal (bool_decide (is_Some (disk e !! path))), e).

Definition unlinkSync (path : string) : Io unit :=
  fun e => (Normal tt, on_disk (delete path) e).

(** [exec] of the ffmpeg command: on success the output file is
    written. *)
Definition execFfmpeg (profile : Profile) (input output : string) : Io unit :=
  fun e =>
    match ffmpeg profile (disk e !! input) with
    | inl converted => (Normal tt, on_disk (<[output := converted]>) e)
    | inr msg => (Abrupt (ErrorOf msg), e)
    end.

(** ** audioUtils.ts *)

(** [processAudio]: the voice-note profile; the input is removed when it
    is a temporary file. *)
Definition processAudio (audio : string) : Io string :=
  io t <- now;
  let outputAudio := join tmpdir (pretty t +:+ ".ogg") in
  io _ <- execFfmpeg VoiceNote audio outputAudio;
  io there <- existsSync audio;
  io _ <- (if there && includes audio tmpdir then unlinkSync audio else io_ret tt);
  io_ret outputAudio.

(** [processAudioFile]: the profile of regular audio. *)
Definition processAudioFile (audio : string) : Io string :=
  io t <- now;
  let outputAudio := join tmpdir (pretty t +:+ ".ogg") in
  io _ <- execFfmpeg RegularAudio audio outputAudio;
  io there <- existsSync audio;
  io _ <- (if there && includes audio tmpdir then unlinkSync audio else io_ret tt);
  io_ret outputAudio.

Definition processVideo (video : string) : Io string :=
  io t <- now;
  let outputVideo := join tmpdir (pretty t +:+ ".mp4") in
  io _ <- execFfmpeg Mp4 video outputVideo;
  io there <- existsSync video;
  io _ <- (if there && includes video tmpdir then unlinkSync video else io_ret tt);
  io_ret outputVideo.

Definition generateVideoThumbnail (video : string) : Io string :=
  io t <- now;
  let outputThumbnail := join tmpdir (pretty t +:+ "_thumb.jpg") in
  io _ <- execFfmpeg Thumbnail video outputThumbnail;
  io_ret outputThumbnail.

Definition cleanupTempFile (filePath : string) : Io unit :=
  io_try
    (io there <- existsSync filePath;
     if there && includes filePath tmpdir then unlinkSync filePath else io_ret tt)
    (fun _ => io_ret tt).
(** ** mediaProcessor.ts *)

(** [processMediaForBaileys(data, type)]: [null] for a falsy value; the
    buffer; or [Error("Invalid <type> data format")], whatever was thrown
    inside. *)
Definition processMediaForBaileys (data : Media) (type : string)
  : Completion (option Buffer) :=
  if negb (truthyMedia data) then Normal None
  else
    let decoded : Completion (option Buffer) :=
      match data with
      | MString s =>
          if negb (isBase64 s) then Abrupt (ErrorOf "Invalid base64 format")
          else Normal (Some (fromBase64 s))
      | MBuffer b => Normal (Some b)
      | MObject d _ =>
          if truthyInner d then
            match d with
            | IString s => Normal (Some (fromBase64 s))
            | IBuffer b => Normal (Some b)
            | IOther _ => Normal None
            end
          else Normal None
      | MOther _ => Normal None
      end in
    let checked : Completion Buffer :=
      match decoded with
      | Abrupt e => Abrupt e
      | Normal None => Abrupt (ErrorOf "Unable to process media data")
      | Normal (Some buffer) =>
          if (length buffer =? 0)%nat then Abrupt (ErrorOf "Empty media buffer")
          else Normal buffer
      end in
    match checked with
    | Normal buffer => Normal (Some buffer)
    | Abrupt _ => Abrupt (ErrorOf ("Invalid " +:+ type +:+ " data format"))
    end.

Definition processImage (imageData : Media) : Io MediaResult :=
  io_try
    (io imageBuffer <- io_lift (processMediaForBaileys imageData "image");
     match imageBuffer with
     | Some imageBuffer =>
         io_ret (mkMediaResult true
                   (with_image (Some (MBuffer imageBuffer)) emptyMessage) None)
     | None =>
         io_ret (mkMediaResult false emptyMessage (Some "Invalid image data format"))
     end)
    (fun error =>
       io_ret (mkMediaResult false emptyMessage
                 (Some (messageOr "Failed to process image" error)))).

Definition processDocument (documentData : Media) : Io MediaResult :=
  io_try
    (io documentBuffer <- io_lift (processMediaForBaileys documentData "document");
     match documentBuffer with
     | Some documentBuffer =>
         io_ret (mkMediaResult true
                   (with_document (Some (MBuffer documentBuffer)) emptyMessage) None)
     | None =>
         io_ret (mkMediaResult false emptyMessage
                   (Some "Invalid document data format"))
     end)
    (fun error =>
       io_ret (mkMediaResult false emptyMessage
                 (Some (messageOr "Failed to process document" error)))).

(** [MediaProcessor.processAudio(audioData, message)] *)
Definition MediaProcessor_processAudio (audioData : Media) (message : Message)
  : Io MediaResult :=
  io_try
    (io audioBuffer <- io_lift (processMediaForBaileys audioData "audio");
     match audioBuffer with
     | Some audioBuffer =>
         io t <- now;
         let tempInputPath := join tmpdir ("input_" +:+ pretty t +:+ ".tmp") in
         io _ <- writeFileSync tempInputPath audioBuffer;
         let isPtt :=
           match pm_ptt message with
           | Some ptt => ptt
           | None => isVoiceNote (pm_fileName message) (pm_mimetype message)
           end in
         io processedAudioPath <-
           (if isPtt then processAudio tempInputPath
            else processAudioFile tempInputPath);
         io processedAudio <- readFileSync processedAudioPath;
         let result :=
           mkMessage None None (Some (MBuffer processedAudio)) None None
             (Some isPtt) (Some "audio/ogg; codecs=opus") None None None ∅ in
         io _ <- cleanupTempFile processedAudioPath;
         io_ret (mkMediaResult true result None)
     | None =>
         io_ret (mkMediaResult false emptyMessage (Some "Invalid audio data format"))
     end)
    (fun error =>
       io_ret (mkMediaResult false emptyMessage
                 (Some (messageOr "Failed to process audio" error)))).

(** [MediaProcessor.processVideo(videoData, message)] *)
Definition MediaProcessor_processVideo (videoData : Media) (message : Message)
  : Io MediaResult :=
  io_try
    (io videoBuffer <- io_lift (processMediaForBaileys videoData "video");
     match videoBuffer with
     | Some videoBuffer =>
         io t <- now;
         let tempInputPath := join tmpdir ("input_video_" +:+ pretty t +:+ ".tmp") in
         io _ <- writeFileSync tempInputPath videoBuffer;
         io processedVideoPath <- processVideo tempInputPath;
         io thumbnailBuffer <-
           io_try
             (io thumbnailPath <- generateVideoThumbnail processedVideoPath;
              io thumbnail <- readFileSync thumbnailPath;
              io _ <- cleanupTempFile thumbnailPath;
              io_ret (Some thumbnail))
             (fun _ => io_ret None);
         io processedVideo <- readFileSync processedVideoPath;
         let fileName :=
           match pm_fileName message with
           | Some f => if truthyString f then Some (parsedName f +:+ ".mp4") else None
           | None => None
           end in
         let result :=
           mkMessage None None None (Some (MBuffer processedVideo)) None None
             (Some "video/mp4") None fileName thumbnailBuffer ∅ in
         io _ <- cleanupTempFile processedVideoPath;
         io_ret (mkMediaResult true result None)
     | None =>
         io_ret (mkMediaResult false emptyMessage (Some "Invalid video data format"))
     end)
    (fun error =>
       io_ret (mkMediaResult false emptyMessage
                 (Some (messageOr "Failed to process video" error)))).

(** The audio of the message when it is an object with a [url]: the body
    that the network gives, or the early return of [processMessageMedia]. *)
Definition fetchAudio (message : Message) (audio : Media)
  : Io (MediaResult + Media) :=
  match audio with
  | MObject _ (Some url) =>
      if truthyString url then
        io_try
          (io downloaded <-
             io_lift (match downloadToBuffer url with
                      | Some body => Normal body
                      | None => Abrupt (ErrorOf "Failed to download file")
                      end);
           io_ret (inr (MBuffer downloaded)))
          (fun _ =>
             io_ret (inl (mkMediaResult false message
                            (Some "Failed to download audio from URL"))))
      else io_ret (inr audio)
  | _ => io_ret (inr audio)
  end.

(** [processMessageMedia(message, onlyAudio)].  A step gives the result
    that the method returns at once, or the message to go on with. *)
Definition audioStep (message : Message) : Io (MediaResult + Message) :=
  match pm_audio message with
  | Some audio =>
      if truthyMedia audio then
        io fetched <- fetchAudio message audio;
        match fetched with
        | inl early => io_ret (inl early)
        | inr audio =>
            let processedMessage := with_audio (Some audio) message in
            io audioResult <- MediaProcessor_processAudio audio processedMessage;
            if negb (mr_success audioResult) then io_ret (inl audioResult)
            else io_ret (inr (assign processedMessage
                                (mr_processedMessage audioResult)))
        end
      else io_ret (inr message)
  | None => io_ret (inr message)
  end.

Definition imageStep (processedMessage : Message) : Io (MediaResult + Message) :=
  match pm_image processedMessage with
  | Some image =>
      if truthyMedia image then
        io imageResult <- processImage image;
        if negb (mr_success imageResult) then io_ret (inl imageResult)
        else io_ret (inr (with_image (pm_image (mr_processedMessage imageResult))
                            processedMessage))
      else io_ret (inr processedMessage)
  | None => io_ret (inr processedMessage)
  end.

Definition videoStep (processedMessage : Message) : Io (MediaResult + Message) :=
  match pm_video processedMessage with
  | Some video =>
      if truthyMedia video then
        io videoResult <- MediaProcessor_processVideo video processedMessage;
        if negb (mr_success videoResult) then io_ret (inl videoResult)
        else io_ret (inr (assign processedMessage
                            (mr_processedMessage videoResult)))
      else io_ret (inr processedMessage)
  | None => io_ret (inr processedMessage)
  end.

Definition documentStep (processedMessage : Message) : Io (MediaResult + Message) :=
  match pm_document processedMessage with
  | Some document =>
      if truthyMedia document then
        io documentResult <- processDocument document;
        if negb (mr_success documentResult) then io_ret (inl documentResult)
        else io_ret (inr (with_document
                            (pm_document (mr_processedMessage documentResult))
                            processedMessage))
      else io_ret (inr processedMessage)
  | None => io_ret (inr processedMessage)
  end.

(** Go on with the next step unless the method has returned. *)
Definition andThen (m : Io (MediaResult + Message))
    (k : Message -> Io (MediaResult + Message)) : Io (MediaResult + Message) :=
  io r <- m;
  match r with
  | inl early => io_ret (inl early)
  | inr processedMessage => k processedMessage
  end.

Definition processMessageMedia (message : Message) (onlyAudio : bool)
  : Io MediaResult :=
  io_try
    (io r <-
       andThen (audioStep message) (fun processedMessage =>
         if onlyAudio then
           io_ret (inl (mkMediaResult true processedMessage None))
         else
           andThen (imageStep processedMessage) (fun processedMessage =>
           andThen (videoStep processedMessage) (fun processedMessage =>
           andThen (documentStep processedMessage) (fun processedMessage =>
             io_ret (inl (mkMediaResult true processedMessage None))))));
     match r with
     | inl result => io_ret result
     | inr processedMessage => io_ret (mkMediaResult true processedMessage None)
     end)
    (fun error =>
       io_ret (mkMediaResult false message
                 (Some (messageOr "Failed to process media" error)))).
(** ** What the properties of the pipeline are about *)

(** The last character of a path. *)
Fixpoint lastChar (s : string) : option Ascii.ascii :=
  match s with
  | EmptyString => None
  | String a EmptyString => Some a
  | String _ s' => lastChar s'
  end.

(** Whatever the computation returns satisfies [Q]. *)
Definition yields {A} (m : Io A) (Q : A -> Prop) : Prop :=
  forall e, match (m e).1 with Normal a => Q a | Abrupt _ => True end.

(** [isPtt] of [MediaProcessor.processAudio]. *)
Definition voiceNote (message : Message) : bool :=
  match pm_ptt message with
  | Some ptt => ptt
  | None => isVoiceNote (pm_fileName message) (pm_mimetype message)
  end.

(** A result that reports a failure: it carries a message, and the empty
    object or the message as it came. *)
Definition failed (message : Message) (r : MediaResult) : Prop :=
  mr_success r = false /\ is_Some (mr_error r) /\
  (mr_processedMessage r = emptyMessage \/ mr_processedMessage r = message).

(** The result of a media method: a failure with the empty object, or a
    success whose object satisfies [Q]. *)
Definition mediaResult (Q : Message -> Prop) (r : MediaResult) : Prop :=
  if mr_success r then mr_error r = None /\ Q (mr_processedMessage r)
  else mr_processedMessage r = emptyMessage /\ is_Some (mr_error r).

(** The properties that no step of the pipeline writes. *)
Definition sameText (m m' : Message) : Prop :=
  pm_text m' = pm_text m /\ pm_caption m' = pm_caption m /\
  pm_others m' = pm_others m.

(** What a step leaves as it was, its own medium apart. *)
Definition asideAudio (m m' : Message) : Prop :=
  sameText m m' /\ pm_image m' = pm_image m /\ pm_video m' = pm_video m /\
  pm_document m' = pm_document m.

Definition asideImage (m m' : Message) : Prop :=
  sameText m m' /\ pm_audio m' = pm_audio m /\ pm_ptt m' = pm_ptt m /\
  pm_video m' = pm_video m /\ pm_document m' = pm_document m.

Definition asideVideo (m m' : Message) : Prop :=
  sameText m m' /\ pm_audio m' = pm_audio m /\ pm_ptt m' = pm_ptt m /\
  pm_image m' = pm_image m /\ pm_document m' = pm_document m.

Definition asideDocument (m m' : Message) : Prop :=
  sameText m m' /\ pm_audio m' = pm_audio m /\ pm_ptt m' = pm_ptt m /\
  pm_image m' = pm_image m /\ pm_video m' = pm_video m /\
  pm_mimetype m' = pm_mimetype m.

(** What a step gives: a failure, or a message for which [Q] holds. *)
Definition stepResult (message : Message) (Q : Message -> Prop)
    (r : MediaResult + Message) : Prop :=
  match r with
  | inl early => failed message early
  | inr processedMessage => Q processedMessage
  end.

(** What [processMessageMedia] returns for a message. *)
Definition pipelineResult (message : Message) (onlyAudio : bool)
    (r : MediaResult) : Prop :=
  if mr_success r then
    let pm := mr_processedMessage r in
    sameText message pm /\
    (if given (pm_audio message)
     then exists b, pm_audio pm = Some (MBuffer b) /\
                    pm_ptt pm = Some (voiceNote message)
     else pm_audio pm = pm_audio message /\ pm_ptt pm = pm_ptt message) /\
    if onlyAudio then
      pm_image pm = pm_image message /\ pm_video pm = pm_video message /\
      pm_document pm = pm_document message
    else
      (if given (pm_image message)
       then exists b, pm_image pm = Some (MBuffer b) /\ b <> []
       else pm_image pm = pm_image message) /\
      (if given (pm_video message)
       then exists b, pm_video pm = Some (MBuffer b) /\
                      pm_mimetype pm = Some "video/mp4"
       else pm_video pm = pm_video message) /\
      (if given (pm_document message)
       then exists b, pm_document pm = Some (MBuffer b) /\ b <> []
       else pm_document pm = pm_document message)
  else failed message r.
(** ** A host for the runs of Part III

    The decoder gives the bytes of the string as they are; the converter
    fails on an input of fewer than two bytes and otherwise puts a byte
    that names the profile in front; the network knows one URL. *)
Definition plainBase64 (s : string) : Buffer := String.list_byte_of_string s.

Definition plainFfmpeg (profile : Profile) (content : option Buffer)
  : Buffer + string :=
  match content with
  | Some (a :: b :: rest) =>
      inl (match profile with
           | VoiceNote => Byte.x01
           | RegularAudio => Byte.x02
           | Mp4 => Byte.x03
           | Thumbnail => Byte.x04
           end :: a :: b :: rest)
  | _ => inr "Command failed: ffmpeg"
  end.

Definition plainDownload (url : string) : option Buffer :=
  if String.eqb url "https://host/a.mp3" then Some [Byte.x49; Byte.x44; Byte.x33]
  else None.

Definition plainName (fileName : string) : string := fileName.
(** ** The marks of [deletedSessions] *)

(** The world without the marks. *)
Definition unmarked (w : World) : World := on_deletedSessions (fun _ => ∅) w.

(** Two worlds that differ in the marks at most. *)
Definition alike (w1 w2 : World) : Prop := unmarked w1 = unmarked w2.

(** A computation that does the same in worlds that are alike. *)
Definition blind {A} (m : Js A) : Prop :=
  forall w1 w2, alike w1 w2 -> (m w1).1 = (m w2).1 /\ alike (m w1).2 (m w2).2.
(** ** Sockets in use *)

(** The socket of an id that has its listeners and on which [end()] was
    not called. *)
Definition live (w : World) (s : nat) (id : string) : Prop :=
  exists sk, socks w !! s = Some sk /\ s_id sk = id /\
             s_listening sk = true /\ s_ended sk = false.

(** The registered sockets are live, and a socket that has its listeners
    was not ended. *)
Definition registryLive (w : World) : Prop :=
  (forall id s, sessions (mgr w) !! id = Some s -> live w s id) /\
  (forall s sk, socks w !! s = Some sk -> s_listening sk = true ->
                s_ended sk = false).

(** The same inside a listener of socket [s], which is live. *)
Definition liveIn (ctx : option (nat * string)) (w : World) : Prop :=
  registryLive w /\
  match ctx with
  | Some (s, id) => live w s id
  | None => True
  end.

(** A field update that leaves alone the id, the listeners and [end()]. *)
Definition keepsLive (f : Session -> Session) : Prop :=
  forall sk, s_id (f sk) = s_id sk /\ s_listening (f sk) = s_listening sk /\
             s_ended (f sk) = s_ended sk.
(** ** The tokens of [connectionPromises] *)

(** The call that made the attempt of [id] is among the suspended calls
    [ws], waiting for promise [p]. *)
Definition ownerWaits (ws : list Waiter) (id : string) (p : nat) : Prop :=
  exists wt, wt ∈ ws /\ w_promise wt = p /\ w_owner wt = true /\ w_id wt = id.

(** Every token has its owner among [ws]. *)
Definition tokensOwned (ws : list Waiter) (w : World) : Prop :=
  forall id p, connectionPromises (mgr w) !! id = Some p -> ownerWaits ws id p.
(** ** [resetConnection]

    What [existingSession.ws.close()] does is the transport's business:
    the socket may have no [ws], and the call returns or throws.  The
    transport tells the manager of the close by a ['connection.update']
    event. *)
Inductive WsAnswer :=
  | NoWs
  | WsClosed
  | WsThrew (e : Thrown).

Definition resetConnection (whatsappId : string) (ws : WsAnswer) : Js bool :=
  tryCatch
    (do existingSession <- gets (fun w => sessions (mgr w) !! whatsappId);
     run match existingSession with
         | Some _ =>
             run tryCatch
                   (match ws with
                    | WsThrew e => throw e
                    | _ => ret tt
                    end)
                   (fun _ => ret tt);
             removeSession whatsappId
         | None => ret tt
         end;
     ret true)
    (fun _ => ret false).

(** * Part II: properties *)

(** ** The store *)

Lemma updateWhere_lookup f k (d : Store) n :
  k = Some n -> updateWhere f k d !! n = f <$> d !! n.
Proof. intros ->. simpl. by rewrite lookup_alter_eq. Qed.

Lemma updateWhere_lookup_ne f k (d : Store) n :
  k <> Some n -> updateWhere f k d !! n = d !! n.
Proof.
  destruct k as [m|]; simpl; [|done].
  intros Hne. apply lookup_alter_ne. congruence.
Qed.

(** A later write of the blob column hides an earlier one. *)
Lemma updateWhatsappSession_twice k b1 b2 (d : Store) :
  updateWhatsappSession k b2 (updateWhatsappSession k b1 d)
  = updateWhatsappSession k b2 d.
Proof.
  unfold updateWhatsappSession, updateWhere. destruct k as [n|]; [|done].
  apply map_eq. intros i. destruct (decide (i = n)) as [->|Hne].
  - rewrite !lookup_alter_eq. by destruct (d !! n).
  - by rewrite !lookup_alter_ne.
Qed.

(** ** The coalesced save *)

Lemma saveState_coherent u c : coherent c -> coherent (saveState u c).
Proof.
  unfold coherent, saveState. simpl.
  destruct (saveInProgress c) eqn:E; simpl; rewrite ?E; [done|].
  intros ->. eauto.
Qed.

Lemma writeAnswered_coherent ok c : coherent c -> coherent (writeAnswered ok c).
Proof.
  unfold coherent, writeAnswered.
  destruct (saveInProgress c) eqn:E.
  - intros [blob ->]. destruct ok; simpl; [|done].
    destruct (pendingSave c); simpl; eauto.
  - intros Hi. rewrite Hi. simpl. by rewrite E.
Qed.

Lemma saveStep_coherent e c : coherent c -> coherent (saveStep e c).
Proof.
  destruct e; simpl.
  - apply saveState_coherent.
  - intros H. unfold keysSet. by apply saveState_coherent.
  - apply writeAnswered_coherent.
Qed.

Lemma saveRun_snoc es e c : saveRun (es ++ [e]) c = saveStep e (saveRun es c).
Proof. unfold saveRun. by rewrite foldl_app. Qed.

Lemma saveRun_coherent es c : coherent c -> coherent (saveRun es c).
Proof.
  intros Hc. induction es as [|e es IH] using rev_ind; [done|].
  rewrite saveRun_snoc. by apply saveStep_coherent.
Qed.

Lemma coherent_inflight c : coherent c -> (length (inflight c) <= 1)%nat.
Proof.
  unfold coherent. destruct (saveInProgress c).
  - intros [b ->]. simpl. lia.
  - intros ->. simpl. lia.
Qed.

(** A request that finds a write in flight leaves the store, the writes
    in flight and their count alone. *)
Lemma request_while_saving e c :
  isRequest e = true -> saveInProgress c = true ->
  inflight (saveStep e c) = inflight c /\ issued (saveStep e c) = issued c /\
  db (saveStep e c) = db c /\ pendingSave (saveStep e c) = true /\
  saveInProgress (saveStep e c) = true.
Proof.
  intros He Hs. destruct e; try discriminate; simpl;
    unfold keysSet, saveState; simpl; rewrite Hs; simpl; by rewrite ?Hs.
Qed.

Lemma saveRun_sessionId es c : sessionId (saveRun es c) = sessionId c.
Proof.
  induction es as [|e es IH] using rev_ind; [done|].
  rewrite saveRun_snoc, <- IH. generalize (saveRun es c). intros c'.
  destruct e as [u|d|ok]; simpl.
  - unfold saveState. simpl. by destruct (saveInProgress c').
  - unfold keysSet, saveState. simpl. by destruct (saveInProgress c').
  - unfold writeAnswered. destruct (inflight c'); [done|].
    destruct ok; [|done]. simpl. unfold saveState. simpl.
    by destruct (pendingSave c').
Qed.

Lemma dataAfter_snoc es e ck :
  dataAfter (es ++ [e]) ck =
  match e with
  | SaveRequested u => (u, (dataAfter es ck).2)
  | KeysSet d => ((dataAfter es ck).1, assignKeys d (dataAfter es ck).2)
  | WriteAnswered _ => dataAfter es ck
  end.
Proof. unfold dataAfter. by rewrite foldl_app. Qed.

Lemma settling_saveState id c0 k0 db0 es c u k' e :
  isRequest e = true ->
  dataAfter (es ++ [e]) (c0, k0) = (u, k') ->
  settling id c0 k0 db0 es c ->
  settling id c0 k0 db0 (es ++ [e])
    (saveState u (mkClosure (sessionId c) (creds c) k' (saveInProgress c)
                            (pendingSave c) (inflight c) (issued c) (db c))).
Proof.
  intros He Hd (Hid & Hc & Hk & H). unfold settling. rewrite Hd.
  rewrite existsb_app. simpl. rewrite He, orb_true_r.
  unfold saveState. simpl.
  destruct (saveInProgress c) eqn:E; simpl; rewrite ?E.
  - destruct H as (_ & blob & Hi & _ & Hdb). repeat split; try done.
    exists blob. repeat split; done.
  - destruct H as (Hi & Hp & Hdb). repeat split; try done.
    exists (stringify u k'). rewrite Hi. repeat split; try done.
    destruct (existsb isRequest es); eauto.
Qed.

Lemma settling_step id c0 k0 db0 es e c :
  succeeds e = true ->
  settling id c0 k0 db0 es c -> settling id c0 k0 db0 (es ++ [e]) (saveStep e c).
Proof.
  intros Hok Hinv. destruct e as [u|d|ok]; simpl.
  - pose proof Hinv as (Hid & Hc & Hk & _).
    replace (saveState u c) with
      (saveState u (mkClosure (sessionId c) (creds c) (keys c) (saveInProgress c)
                      (pendingSave c) (inflight c) (issued c) (db c)))
      by (by destruct c).
    apply settling_saveState; [done| |done].
    rewrite dataAfter_snoc. by rewrite Hk.
  - pose proof Hinv as (Hid & Hc & Hk & _). unfold keysSet. simpl.
    apply settling_saveState; [done| |done].
    rewrite dataAfter_snoc. by rewrite Hc, Hk.
  - simpl in Hok. subst ok.
    destruct Hinv as (Hid & Hc & Hk & H). unfold settling.
    rewrite dataAfter_snoc, existsb_app. simpl. rewrite orb_false_r.
    unfold writeAnswered.
    destruct (saveInProgress c) eqn:E.
    + destruct H as (Hreq & blob & Hi & Hb & Hdb). rewrite Hi. simpl.
      assert (Hnew : updateWhatsappSession (parseInt id) blob (db c)
                     = updateWhatsappSession (parseInt id) blob db0).
      { destruct Hdb as [->|[b' ->]]; [done|].
        apply updateWhatsappSession_twice. }
      rewrite Hid.
      destruct (pendingSave c) eqn:P; simpl.
      * unfold saveState. simpl. rewrite Hreq. repeat split; try done.
        exists (stringify (creds c) (keys c)). rewrite Hc, Hk.
        repeat split; try done. right. eauto.
      * rewrite Hreq, Hnew. by rewrite <- Hb.
    + destruct H as (Hi & Hp & Hdb). rewrite Hi. by rewrite E.
Qed.

Lemma settling_run id c0 k0 db0 es :
  forallb succeeds es = true ->
  settling id c0 k0 db0 es (saveRun es (freshClosure id c0 k0 db0)).
Proof.
  induction es as [|e es IH] using rev_ind; intros Hok.
  - by repeat split.
  - rewrite forallb_app in Hok. simpl in Hok.
    apply andb_true_iff in Hok as [Hes He]. rewrite andb_true_r in He.
    rewrite saveRun_snoc. apply settling_step; auto.
Qed.

(** C2, as the code has it.  Save coalescing.  In every state [c] that a
    sequence of save requests and store answers leads to:
    - a request arriving while a write is in flight sets the pending marker
      and issues no write;
    - when the store accepts the write in flight, the session column of the
      id's row holds the blob of that write; with the marker set, the
      marker is cleared and exactly one further write is issued, of the
      state current at that moment;
    - when the store refuses the write in flight, no write is issued, the
      marker is left as it is and the store is unchanged: a pending save is
      dropped;
    - at most one write, hence at most two, is in flight;
    - answering the writes in flight settles the closure, and once the
      requests have settled, the store having accepted the writes, the
      session column of the id's row is the state of the last request, the
      other columns and the other rows being as they were. *)
Theorem save_coalescing (id : string) (c0 : Creds) (k0 : Keys) (db0 : Store)
    (es : list SaveEvent) :
  let c := saveRun es (freshClosure id c0 k0 db0) in
  (forall e, isRequest e = true -> saveInProgress c = true ->
     inflight (saveStep e c) = inflight c /\ issued (saveStep e c) = issued c /\
     db (saveStep e c) = db c /\ pendingSave (saveStep e c) = true) /\
  (forall blob n row, inflight c = [blob] -> parseInt id = Some n ->
     db c !! n = Some row ->
     exists row', db (writeAnswered true c) !! n = Some row' /\
       row_session row' = Some blob /\ row_status row' = row_status row /\
       row_qrcode row' = row_qrcode row) /\
  (saveInProgress c = true -> pendingSave c = true ->
     inflight (writeAnswered true c) = [stringify (creds c) (keys c)] /\
     issued (writeAnswered true c) = S (issued c) /\
     pendingSave (writeAnswered true c) = false) /\
  (saveInProgress c = true ->
     inflight (writeAnswered false c) = [] /\
     issued (writeAnswered false c) = issued c /\
     saveInProgress (writeAnswered false c) = false /\
     pendingSave (writeAnswered false c) = pendingSave c /\
     db (writeAnswered false c) = db c) /\
  (length (inflight c) <= 1 /\ length (inflight c) <= 2)%nat /\
  inflight (saveRun [WriteAnswered true; WriteAnswered true] c) = [] /\
  (forallb succeeds es = true -> existsb isRequest es = true ->
   inflight c = [] ->
   let d := dataAfter es (c0, k0) in
   (forall n row, parseInt id = Some n -> db0 !! n = Some row ->
      exists row', db c !! n = Some row' /\
        row_session row' = Some (stringify d.1 d.2) /\
        row_status row' = row_status row /\ row_qrcode row' = row_qrcode row) /\
   (forall m, parseInt id <> Some m -> db c !! m = db0 !! m)).
Proof.
  intros c.
  assert (Hcoh : coherent c) by (apply saveRun_coherent; done).
  assert (Hid : sessionId c = id) by apply saveRun_sessionId.
  split; [|split; [|split; [|split; [|split; [|split]]]]].
  - intros e He Hs. destruct (request_while_saving e c He Hs) as (?&?&?&?&?).
    done.
  - intros blob n row Hi Hn Hrow. unfold writeAnswered. rewrite Hi.
    exists (setSession blob row). split; [|done].
    assert (Hdb : updateWhatsappSession (parseInt (sessionId c)) blob (db c) !! n
                  = Some (setSession blob row)).
    { rewrite Hid. unfold updateWhatsappSession.
      by rewrite (updateWhere_lookup _ _ _ n Hn), Hrow. }
    destruct (pendingSave c); [|exact Hdb].
    unfold saveState. cbn. exact Hdb.
  - intros Hs Hp. unfold coherent in Hcoh. rewrite Hs in Hcoh.
    destruct Hcoh as [blob Hi]. unfold writeAnswered. rewrite Hi. simpl.
    rewrite Hp. by unfold saveState.
  - intros Hs. unfold coherent in Hcoh. rewrite Hs in Hcoh.
    destruct Hcoh as [blob Hi]. unfold writeAnswered. by rewrite Hi.
  - pose proof (coherent_inflight c Hcoh). lia.
  - unfold saveRun. simpl. unfold coherent in Hcoh.
    unfold writeAnswered at 2.
    destruct (saveInProgress c) eqn:E.
    + destruct Hcoh as [blob Hi]. rewrite Hi. simpl.
      destruct (pendingSave c); simpl.
      * by unfold writeAnswered, saveState.
      * by unfold writeAnswered.
    + rewrite Hcoh. unfold writeAnswered. by rewrite Hcoh.
  - intros Hok Hreq Hidle d.
    destruct (settling_run id c0 k0 db0 es Hok) as (_ & _ & _ & H). fold c in H.
    destruct (saveInProgress c).
    { destruct H as (_ & blob & Hi & _). rewrite Hi in Hidle. discriminate. }
    destruct H as (_ & _ & Hdb). rewrite Hreq in Hdb. fold d in Hdb.
    rewrite Hdb. unfold updateWhatsappSession. split.
    + intros n row Hn Hrow. exists (setSession (stringify d.1 d.2) row).
      split; [|done]. by rewrite (updateWhere_lookup _ _ _ n Hn), Hrow.
    + intros m Hm. by apply updateWhere_lookup_ne.
Qed.

(** ** The lifecycle manager *)

Ltac js :=
  cbv beta iota zeta delta
    [tryCatch bind ret throw gets modify when exec updateSock removeSession
     emit settle await clearTimeout setTimeout deliver].

(** [fields] reads a field through the updates above it; [worlds] opens the
    updates, to compare two worlds field by field. *)
Ltac fields :=
  cbn [mgr socks cdata promises timers waiters store faults emitted returned
       opened sent sessions connectionPromises deletedSessions
       pendingReconnects retryAttempts sessionStates fst snd
       on_sessions on_connectionPromises on_deletedSessions
       on_pendingReconnects on_retryAttempts on_sessionStates on_mgr on_socks
       on_cdata on_promises on_timers on_waiters on_store on_faults
       on_emitted on_returned on_opened on_sent m_sessions
       m_connectionPromises m_deletedSessions m_pendingReconnects
       m_retryAttempts m_sessionStates].

Ltac worlds :=
  unfold on_sessions, on_connectionPromises, on_deletedSessions,
    on_pendingReconnects, on_retryAttempts, on_sessionStates, on_mgr, on_socks,
    on_cdata, on_promises, on_timers, on_waiters, on_store, on_faults,
    on_emitted, on_returned, on_opened, on_sent, m_sessions,
    m_connectionPromises, m_deletedSessions, m_pendingReconnects,
    m_retryAttempts, m_sessionStates;
  cbn [mgr socks cdata promises timers waiters store faults emitted returned
       opened sent sessions connectionPromises deletedSessions
       pendingReconnects retryAttempts sessionStates fst snd].

Lemma exec_eq {A} (m : Js A) (w : World) a w' : m w = (a, w') -> exec m w = w'.
Proof. unfold exec. by intros ->. Qed.

(** [cleanupSession] never throws, whatever [end()] does. *)
Lemma cleanupSession_spec id w :
  cleanupSession id w =
  (Normal tt,
   mkWorld
     (mkManager (delete id (sessions (mgr w)))
                (delete id (connectionPromises (mgr w)))
                (deletedSessions (mgr w))
                (delete id (pendingReconnects (mgr w)))
                (delete id (retryAttempts (mgr w)))
                (sessionStates (mgr w) ∖ {[id]}))
     (released id w) (cdata w) (promises w) (cancelled id w) (waiters w)
     (store w) (faults w) (emitted w) (returned w) (opened w) (sent w)).
Proof.
  unfold cleanupSession, endSocket, clearTimeout, updateSock, released, cancelled.
  js.
  destruct (sessions (mgr w) !! id) as [s|] eqn:Hs; fields.
  - destruct (socks w !! s ≫= s_faulty); fields;
      destruct (pendingReconnects (mgr w) !! id) eqn:Hp; fields; try done.
    all: by rewrite (delete_id (pendingReconnects (mgr w)) id Hp).
  - destruct (pendingReconnects (mgr w) !! id) eqn:Hp; fields; try done.
    by rewrite (delete_id (pendingReconnects (mgr w)) id Hp).
Qed.

Lemma deleteSession_spec id w :
  deleteSession id w =
  (Normal true,
   mkWorld
     (mkManager (delete id (sessions (mgr w)))
                (delete id (connectionPromises (mgr w)))
                ({[id]} ∪ deletedSessions (mgr w))
                (delete id (pendingReconnects (mgr w)))
                (delete id (retryAttempts (mgr w)))
                (sessionStates (mgr w) ∖ {[id]}))
     (released id w) (cdata w) (promises w) (cancelled id w) (waiters w)
     (store w) (faults w) (emitted w) (returned w) (opened w) (sent w)).
Proof.
  unfold deleteSession, clearTimeout. js. fields.
  destruct (pendingReconnects (mgr w) !! id) as [t|] eqn:Hp;
    rewrite cleanupSession_spec; unfold released, cancelled; fields.
  - rewrite lookup_delete_eq, !delete_delete_eq, Hp. done.
  - rewrite Hp, !(delete_id (pendingReconnects (mgr w)) id Hp), delete_delete_eq.
    done.
Qed.

Lemma gset_add_twice (x : string) (X : gset string) :
  {[x]} ∪ ({[x]} ∪ X) = {[x]} ∪ X.
Proof. by rewrite (assoc_L (∪)), (idemp_L (∪)). Qed.

Lemma gset_remove_twice (x : string) (X : gset string) :
  X ∖ {[x]} ∖ {[x]} = X ∖ {[x]}.
Proof.
  apply set_eq. intros y. rewrite !elem_of_difference. tauto.
Qed.

(** C9. [deleteSession] is idempotent and never throws: for every state
    and every id it returns [true], also when the transport's [end()]
    throws; called again on the state it left (no session, timer or retry
    state for the id) it returns [true] again and changes nothing; it
    never returns [false], since [cleanupSession] lets no teardown error
    out. *)
Theorem deleteSession_idempotent (w : World) (id : string) :
  let w1 := exec (deleteSession id) w in
  deleteSession id w = (Normal true, w1) /\
  deleteSession id w1 = (Normal true, w1) /\
  sessions (mgr w1) !! id = None /\
  pendingReconnects (mgr w1) !! id = None /\
  retryAttempts (mgr w1) !! id = None /\
  (forall w' id', (deleteSession id' w').1 = Normal true).
Proof.
  intros w1. unfold w1, exec. rewrite (deleteSession_spec id w). cbn [snd].
  split; [done|]. split; [|split; [|split; [|split]]].
  - rewrite deleteSession_spec. unfold released, cancelled. fields.
    rewrite !lookup_delete_eq, !delete_delete_eq.
    by rewrite gset_add_twice, gset_remove_twice.
  - fields. apply lookup_delete_eq.
  - fields. apply lookup_delete_eq.
  - fields. apply lookup_delete_eq.
  - intros w' id'. by rewrite deleteSession_spec.
Qed.

(** C10. For an id that is not in the registry [disconnectSession] returns
    [false] and leaves everything as it was: no [logout()] on any socket
    and no write to the store; so the stored credentials change only when
    a session is registered under the id. *)
Theorem disconnectSession_unregistered (w : World) (id : string) :
  (sessions (mgr w) !! id = None ->
   disconnectSession id w = (Normal false, w)) /\
  (store (exec (disconnectSession id) w) <> store w ->
   is_Some (sessions (mgr w) !! id)).
Proof.
  assert (H : sessions (mgr w) !! id = None ->
              disconnectSession id w = (Normal false, w)).
  { intros Hn. unfold disconnectSession. js. by rewrite Hn. }
  split; [done|].
  intros Hne. destruct (sessions (mgr w) !! id) eqn:E; [eauto|].
  exfalso. apply Hne. unfold exec. by rewrite H.
Qed.

(** C8. [sendMessage] always returns a value and never throws.  For an id
    that is not in the registry the value is the failure naming the
    missing session; for a registered session without [user] it is the
    not-connected failure; when the media pipeline rejects the input, its
    error is the error of the failure, verbatim, and the transport's
    [sendMessage] is not called.  In these three cases nothing changes. *)
Theorem sendMessage_structured (w : World) (sendData : SendMessageData)
    (onlyAudio : bool) (pipeline : string -> bool -> PipelineAnswer)
    (transport : TransportAnswer) :
  let id := sm_whatsappId sendData in
  let connected s := match socks w !! s with Some sk => s_user sk | None => false end in
  (exists r, (sendMessage sendData onlyAudio pipeline transport w).1 = Normal r) /\
  (sessions (mgr w) !! id = None ->
   sendMessage sendData onlyAudio pipeline transport w =
   (Normal (Failure (Some ("WhatsApp session " +:+ id +:+ " not found"))), w)) /\
  (forall s, sessions (mgr w) !! id = Some s -> connected s = false ->
   sendMessage sendData onlyAudio pipeline transport w =
   (Normal (Failure (Some ("WhatsApp session " +:+ id +:+ " not connected"))), w)) /\
  (forall s error, sessions (mgr w) !! id = Some s -> connected s = true ->
   pipeline (sm_message sendData) onlyAudio = NotProcessed error ->
   sendMessage sendData onlyAudio pipeline transport w =
   (Normal (Failure error), w) /\
   sent (exec (sendMessage sendData onlyAudio pipeline transport) w) = sent w).
Proof.
  intros id connected. unfold connected, sendMessage. fold id. js.
  split; [|split; [|split]].
  - destruct (sessions (mgr w) !! id) as [s|]; cbn beta iota; [|eauto].
    destruct (match socks w !! s with Some sk => s_user sk | None => false end);
      cbn [negb]; [|eauto].
    destruct (pipeline (sm_message sendData) onlyAudio); [|eauto|eauto].
    destruct transport; eauto.
  - by intros ->.
  - intros s -> ->. done.
  - intros s error -> -> ->. done.
Qed.

(** A statement that the store accepts takes effect. *)
Lemma query_accepted f w :
  accepting 1 w = true ->
  query f w = (Normal tt, on_store f (on_faults (drop 1) w)).
Proof.
  unfold accepting, query. by destruct (faults w) as [|[msg|] rest].
Qed.

Lemma accepting_S k w :
  accepting (S k) w = true ->
  accepting 1 w = true /\
  forall f, accepting k (on_store f (on_faults (drop 1) w)) = true.
Proof.
  unfold accepting. fields. destruct (faults w) as [|[msg|] rest]; cbn; try done.
  intros _. split; [done|]. intros _. by rewrite take_nil.
Qed.

Lemma backoffDelay_mono a b : (a <= b)%nat -> backoffDelay a <= backoffDelay b.
Proof.
  intros H. unfold backoffDelay, baseDelay.
  apply Z.min_le_compat_r, Z.mul_le_mono_nonneg_l; [lia|].
  apply Z.pow_le_mono_r; lia.
Qed.

Lemma backoffDelay_capped a : backoffDelay a <= maxDelay.
Proof. unfold backoffDelay. lia. Qed.

Lemma handleStreamRestart_schedules w cdr :
  let id := cd_id (connData w cdr) in
  let n := default 0%nat (retryAttempts (mgr w) !! id) in
  (n < maxRetryAttempts)%nat ->
  handleStreamRestart cdr w =
  (Normal tt,
   on_pendingReconnects (<[id := length (timers w)]>)
     (on_timers (fun l => l ++ [Some (mkTimer cdr (backoffDelay n))])
        (on_retryAttempts (<[id := S n]>) w))).
Proof.
  intros id n Hn. unfold handleStreamRestart, setTimeout. js. fields.
  fold id. fold n.
  destruct (maxRetryAttempts <=? n)%nat eqn:E.
  - apply Nat.leb_le in E. lia.
  - done.
Qed.

Lemma handleStreamRestart_gives_up w cdr :
  let id := cd_id (connData w cdr) in
  let n := default 0%nat (retryAttempts (mgr w) !! id) in
  (maxRetryAttempts <= n)%nat ->
  handleStreamRestart cdr w =
  (Normal tt,
   exec (tryCatch (query (updateWhatsappStatus (parseInt id) "DISCONNECTED" None))
                  (fun _ => ret tt))
        (on_retryAttempts (delete id) w)).
Proof.
  intros id n Hn. unfold handleStreamRestart. js. fields.
  fold id. fold n.
  destruct (maxRetryAttempts <=? n)%nat eqn:E.
  - destruct (query _ _) as [[[]|e] w']; done.
  - apply Nat.leb_gt in E. lia.
Qed.


Lemma noRestart_terminal reason : noRestart reason = true <-> terminalReason reason.
Proof.
  unfold noRestart, terminalReason, isQrAttemptsEnded, noRestartErrorCodes.
  destruct reason as [[code text]|]; cbn.
  - split.
    + intros H. eexists. split; [done|]. cbn.
      destruct code as [c|]; cbn in *.
      * destruct (c =? 401) eqn:E1; [apply Z.eqb_eq in E1; subst; eauto|].
        destruct (c =? 403) eqn:E3; [apply Z.eqb_eq in E3; subst; eauto|].
        rewrite !andb_false_r in H. cbn in H.
        destruct text as [m|]; [|done].
        apply andb_true_iff in H as [H8 Hm].
        apply Z.eqb_eq in H8. apply String.eqb_eq in Hm. subst. eauto.
      * done.
    + intros (err & [= <-] & H). cbn in H.
      destruct H as [->|[->|[-> ->]]]; done.
  - split; [done|]. by intros (err & ? & _).
Qed.
Lemma settle_at w p v :
  pendingAt w p -> promises (exec (settle p v) w) !! p = Some v.
Proof.
  intros (pr & Hp & Hs). js. fields. rewrite Hp, Hs.
  apply list_lookup_insert_eq. by eapply lookup_lt_Some.
Qed.

Lemma normal_exec {A} (m : Js A) w a : (m w).1 = Normal a -> m w = (Normal a, exec m w).
Proof. unfold exec. destruct (m w) as [c w']. cbn. by intros ->. Qed.

Lemma handleStreamRestart_normal cdr w : (handleStreamRestart cdr w).1 = Normal tt.
Proof.
  unfold handleStreamRestart. js.
  destruct (maxRetryAttempts <=? _)%nat; [|done].
  by destruct (query _ _) as [[[]|e] w1].
Qed.

Lemma closed_terminal_accepted w s sk reason :
  socks w !! s = Some sk -> noRestart reason = true -> accepting 1 w = true ->
  let id := s_id sk in
  onConnectionUpdate s (closed reason) w =
  (Normal tt,
   exec (settle (s_promise sk) (Rejected (ErrorOf ("Connection closed for " +:+ id))))
     (on_emitted (fun l => l ++ [ConnectionUpdateData id DISCONNECTED None
                                   (Some ("Connection closed for " +:+ id))])
        (on_store (updateWhatsappStatus (parseInt id) "DISCONNECTED" None)
           (on_faults (drop 1)
              (on_sessions (delete id)
                 (on_socks (alter (sock_status DISCONNECTED) s) w)))))).
Proof.
  intros Hsk Hterm Hacc id.
  unfold onConnectionUpdate, onClose, closed, isOpen, isClose. js.
  rewrite Hsk. js. cbn [lastDisconnect connection qr isNewLogin andb].
  rewrite Hterm. fold id. 
  rewrite query_accepted. 
  - done.
  - exact Hacc.
Qed.
Lemma closed_terminal_refused w s sk reason :
  socks w !! s = Some sk -> noRestart reason = true -> accepting 1 w = false ->
  exec (onConnectionUpdate s (closed reason)) w =
  on_faults (drop 1)
    (on_sessions (delete (s_id sk))
       (on_socks (alter (sock_status DISCONNECTED) s) w)).
Proof.
  intros Hsk Hterm Hacc.
  unfold onConnectionUpdate, onClose, closed, isOpen, isClose. js.
  rewrite Hsk. js. cbn [lastDisconnect connection qr isNewLogin andb].
  rewrite Hterm. unfold query. fields.
  unfold accepting in Hacc.
  destruct (faults w) as [|[msg|] rest]; try discriminate. done.
Qed.

Lemma closed_transient w s sk reason :
  socks w !! s = Some sk -> noRestart reason = false ->
  let id := s_id sk in
  onConnectionUpdate s (closed reason) w =
  (Normal tt,
   exec (settle (s_promise sk) (Rejected (ErrorOf ("Connection closed for " +:+ id))))
     (on_emitted (fun l => l ++ [ConnectionUpdateData id DISCONNECTED None
                                   (reason ≫= errorText)])
        (exec (handleStreamRestart (s_connectionData sk))
           (on_sessions (delete id)
              (on_socks (alter (sock_status DISCONNECTED) s) w))))).
Proof.
  intros Hsk Hterm id.
  unfold onConnectionUpdate, onClose, closed, isOpen, isClose. js.
  rewrite Hsk. js. cbn [lastDisconnect connection qr isNewLogin andb].
  rewrite Hterm. fold id.
  rewrite (normal_exec _ _ _ (handleStreamRestart_normal _ _)). done.
Qed.

(** [settle] touches the promises only. *)
Lemma settle_frame p v w :
  exec (settle p v) w =
  on_promises (fun _ => promises (exec (settle p v) w)) w.
Proof. js. by destruct w. Qed.

(** The listener's own completion on a terminal close: normal when the
    store accepts the status, the store's error when it refuses it. *)
Lemma closed_terminal_completion w s sk reason :
  socks w !! s = Some sk -> noRestart reason = true ->
  (onConnectionUpdate s (closed reason) w).1 =
  match head (faults w) with
  | Some (Some msg) => Abrupt (ErrorOf msg)
  | _ => Normal tt
  end.
Proof.
  intros Hsk Hterm.
  unfold onConnectionUpdate, onClose, closed, isOpen, isClose. js.
  rewrite Hsk. js. cbn [lastDisconnect connection qr isNewLogin andb].
  rewrite Hterm. unfold query. fields.
  by destruct (head (faults w)) as [[msg|]|].
Qed.


(** A statement inside its own [try]: it takes effect if the store accepts
    it, and the store's answer is used up either way. *)
Lemma tryQuery_eq f w :
  tryCatch (query f) (fun _ => ret tt) w =
  (Normal tt,
   on_store (if accepting 1 w then f else fun st => st) (on_faults (drop 1) w)).
Proof.
  unfold tryCatch, query, accepting, ret.
  by destruct (faults w) as [|[msg|] rest].
Qed.

Lemma tryQuery2_eq f g w :
  tryCatch (run query f; query g) (fun _ => ret tt) w =
  (Normal tt,
   on_store (if accepting 1 w
             then if accepting 2 w then fun st => g (f st) else f
             else fun st => st)
     (on_faults (drop (if accepting 1 w then 2 else 1)) w)).
Proof.
  destruct w as [m sk cd pr tm wt st fl em re op se].
  unfold tryCatch, bind, query, accepting, ret. fields.
  destruct fl as [|[msg|] [|[msg'|] rest]]; reflexivity.
Qed.
Lemma bind_modify {B} f (k : unit -> Js B) w : bind (modify f) k w = k tt (f w).
Proof. done. Qed.

Lemma bind_gets {A B} (f : World -> A) (k : A -> Js B) w :
  bind (gets f) k w = k (f w) w.
Proof. done. Qed.

Lemma bind_ret {A B} (a : A) (k : A -> Js B) w : bind (ret a) k w = k a w.
Proof. done. Qed.

Lemma bind_normal {A B} (m : Js A) (k : A -> Js B) w a w' :
  m w = (Normal a, w') -> bind m k w = k a w'.
Proof. unfold bind. by intros ->. Qed.

(** One step of a computation at a time. *)
Ltac stepjs :=
  unfold updateSock, removeSession, emit, await, clearTimeout;
  repeat (first [rewrite bind_modify | rewrite bind_gets | rewrite bind_ret];
          cbv beta).

Lemma accepting_drop j k w w2 :
  accepting (j + k) w = true -> faults w2 = drop j (faults w) ->
  accepting k w2 = true.
Proof.
  unfold accepting. intros H ->. generalize dependent (faults w).
  induction j as [|j IH]; intros l H; [by rewrite drop_0|].
  destruct l as [|a l]; [by rewrite drop_nil, take_nil|].
  cbn in H. apply andb_true_iff in H as [_ H]. cbn. by apply IH.
Qed.

Lemma accepting_le j k w :
  (j <= k)%nat -> accepting k w = true -> accepting j w = true.
Proof.
  unfold accepting. intros Hle. generalize dependent (faults w).
  revert k Hle. induction j as [|j IH]; intros k Hle l H; [done|].
  destruct k as [|k]; [lia|]. destruct l as [|a l]; [done|].
  cbn in *. apply andb_true_iff in H as [-> H]. cbn. apply (IH k); [lia|done].
Qed.

(** The save on pairing completion: one statement to the store, then the
    blob is remembered in [connectionData]. *)
Lemma saveOnLogin_eq w s sk :
  socks w !! s = Some sk ->
  let blob := stringify (s_auth sk).1 (s_auth sk).2 in
  tryCatch (run enhancedSaveState s; rememberSession s) (fun _ => ret tt) w =
  (Normal tt,
   on_cdata (alter (fun cd => mkConnectionData (cd_id cd) (cd_name cd)
                                (cd_companyId cd) (Some blob))
                   (s_connectionData sk))
     (on_store (if accepting 1 w
                then updateWhatsappSession (parseInt (s_id sk)) blob
                else fun st => st)
        (on_faults (drop 1) w))).
Proof.
  intros Hsk blob.
  unfold enhancedSaveState, rememberSession.
  unfold tryCatch at 1. unfold bind at 1.
  assert (E : tryCatch
                (do sk0 <- gets (fun w0 => socks w0 !! s);
                 match sk0 with
                 | Some sk1 =>
                     query (updateWhatsappSession (parseInt (s_id sk1))
                              (stringify (s_auth sk1).1 (s_auth sk1).2))
                 | None => ret tt
                 end) (fun _ => ret tt) w
              = tryCatch (query (updateWhatsappSession (parseInt (s_id sk)) blob))
                         (fun _ => ret tt) w).
  { unfold tryCatch, bind, gets. by rewrite Hsk. }
  rewrite E, tryQuery_eq. js. fields. by rewrite Hsk.
Qed.

Lemma onOpen_eq w s sk :
  let id := s_id sk in
  onOpen s sk w =
  (Normal tt,
   exec (settle (s_promise sk) (Resolved s))
     (on_emitted (fun l => l ++ [ConnectionUpdateData id CONNECTED None None])
        (on_store (if accepting 1 w
                   then if accepting 2 w
                        then fun st => clearWhatsappQRCode (parseInt id)
                               (updateWhatsappStatus (parseInt id) "CONNECTED" None st)
                        else updateWhatsappStatus (parseInt id) "CONNECTED" None
                   else fun st => st)
           (on_faults (drop (if accepting 1 w then 2 else 1))
              (on_sessions (<[id := s]>)
                 (on_socks (alter (sock_status CONNECTED) s) w)))))).
Proof.
  intros id. unfold onOpen. fold id. stepjs.
  rewrite (bind_normal _ _ _ _ _ (tryQuery2_eq _ _ _)). stepjs.
  unfold settle, exec, modify. done.
Qed.

Lemma opened_eq w s sk newLogin :
  socks w !! s = Some sk ->
  onConnectionUpdate s (opened_ newLogin) w =
  (Normal tt,
   exec (onOpen s sk)
     (exec (when newLogin
              (tryCatch (run enhancedSaveState s; rememberSession s)
                        (fun _ => ret tt))) w)).
Proof.
  intros Hsk. unfold onConnectionUpdate, opened_, isOpen, isClose.
  stepjs. rewrite Hsk.
  cbn [lastDisconnect connection qr isNewLogin andb]. rewrite andb_true_r.
  destruct newLogin; unfold when, exec.
  - rewrite (bind_normal _ _ _ _ _ (saveOnLogin_eq w s sk Hsk)).
    rewrite (saveOnLogin_eq w s sk Hsk). stepjs. cbn [snd].
    rewrite (bind_normal _ _ _ _ _ (onOpen_eq _ s sk)). by rewrite onOpen_eq.
  - stepjs. unfold ret at 2. cbn [snd].
    rewrite (bind_normal _ _ _ _ _ (onOpen_eq _ s sk)). by rewrite onOpen_eq.
Qed.
(** C5, as the code has it.  On the [open] event of a socket: its status
    becomes CONNECTED and nothing else of it changes (the QR payload it
    holds stays); it is registered under its id; the store accepting the
    writes, CONNECTED is the stored status and the stored QR is cleared; a
    connected event is emitted; the pending attempt is resolved with the
    socket.  The listener leaves the retry counts alone: the count of the
    id is reset by the callback of a restart timer when its
    [startConnection] resumes with success, and stays for a call from the
    gateway. *)
Theorem opened_event (w : World) (s : nat) (sk : Session) (newLogin : bool) :
  socks w !! s = Some sk ->
  let id := s_id sk in
  let p := s_promise sk in
  let w' := exec (onConnectionUpdate s (opened_ newLogin)) w in
  socks w' !! s = Some (sock_status CONNECTED sk) /\
  sessions (mgr w') !! id = Some s /\
  retryAttempts (mgr w') = retryAttempts (mgr w) /\
  emitted w' = emitted w ++ [ConnectionUpdateData id CONNECTED None None] /\
  (pendingAt w p -> promises w' !! p = Some (Resolved s)) /\
  (accepting 3 w = true -> forall n row,
     parseInt id = Some n -> store w !! n = Some row ->
     exists row', store w' !! n = Some row' /\
       row_status row' = Some "CONNECTED" /\ row_qrcode row' = None) /\
  (forall wt, w_origin wt = Restart ->
     retryAttempts (mgr (exec (resumeStartConnection wt (Resolved s)) w'))
     = delete (w_id wt) (retryAttempts (mgr w))) /\
  (forall wt call, w_origin wt = Gateway call ->
     let w'' := exec (resumeStartConnection wt (Resolved s)) w' in
     retryAttempts (mgr w'') = retryAttempts (mgr w) /\
     exists msg, returned w'' = returned w ++
                   [(call, mkStartResult true msg (s_qrCode sk))]).
Proof.
  intros Hsk id p w'.
  set (wA := exec (when newLogin
              (tryCatch (run enhancedSaveState s; rememberSession s)
                        (fun _ => ret tt))) w).
  assert (HA : socks wA = socks w /\ mgr wA = mgr w /\ emitted wA = emitted w /\
               promises wA = promises w /\ returned wA = returned w /\
               faults wA = drop (if newLogin then 1 else 0) (faults w) /\
               store wA = (if newLogin && accepting 1 w
                           then updateWhatsappSession (parseInt id)
                                  (stringify (s_auth sk).1 (s_auth sk).2)
                           else fun st => st) (store w)).
  { unfold wA, when, exec. destruct newLogin.
    - rewrite (saveOnLogin_eq w s sk Hsk). fields. by destruct (accepting 1 w).
    - unfold ret. cbn [snd]. by rewrite drop_0. }
  destruct HA as (HAs & HAm & HAe & HAp & HAr & HAf & HAst).
  assert (Hw' : w' = exec (onOpen s sk) wA).
  { unfold w'. by rewrite (exec_eq _ _ _ _ (opened_eq w s sk newLogin Hsk)). }
  unfold exec in Hw'. rewrite onOpen_eq in Hw'. cbn [snd] in Hw'.
  rewrite settle_frame in Hw'. fold id in Hw'.
  assert (Hsock : socks w' !! s = Some (sock_status CONNECTED sk)).
  { rewrite Hw'. fields. by rewrite HAs, list_lookup_alter_eq, Hsk. }
  assert (Hretry : retryAttempts (mgr w') = retryAttempts (mgr w)).
  { rewrite Hw'. fields. by rewrite HAm. }
  assert (Hret : returned w' = returned w).
  { rewrite Hw'. fields. done. }
  split; [done|]. split; [rewrite Hw'; fields; apply lookup_insert_eq|].
  split; [done|]. split; [rewrite Hw'; fields; by rewrite HAe|].
  split; [|split; [|split]].
  - intros (pr & Hp & Hs). rewrite Hw'. fields. js. fields.
    fold p. rewrite HAp, Hp, Hs.
    apply list_lookup_insert_eq. apply (lookup_lt_Some _ _ _ Hp).
  - intros Hacc n row Hn Hrow. rewrite Hw'. fields.
    assert (H1 : accepting 1 wA = true).
    { destruct newLogin.
      - apply (accepting_drop 1 1 w); [apply (accepting_le 2 3); [lia|done]|done].
      - apply (accepting_drop 0 1 w); [apply (accepting_le 1 3); [lia|done]|done]. }
    assert (H2 : accepting 2 wA = true).
    { destruct newLogin.
      - by apply (accepting_drop 1 2 w).
      - apply (accepting_drop 0 2 w); [apply (accepting_le 2 3); [lia|done]|done]. }
    rewrite H1, H2, HAst.
    unfold clearWhatsappQRCode, updateWhatsappStatus.
    rewrite !(updateWhere_lookup _ _ _ n Hn).
    destruct (newLogin && accepting 1 w).
    + unfold updateWhatsappSession.
      rewrite (updateWhere_lookup _ _ _ n Hn), Hrow. cbn. eauto.
    + rewrite Hrow. cbn. eauto.
  - intros wt Ho. unfold resumeStartConnection, exec. rewrite Ho.
    unfold deliver, when. cbn [success].
    destruct (w_owner wt); stepjs; unfold modify; fields; by rewrite Hretry.
  - intros wt call Ho w''. unfold w'', resumeStartConnection, exec. rewrite Ho.
    unfold deliver, when.
    destruct (w_owner wt); stepjs; unfold modify, ret; fields;
      rewrite ?Hsock, Hretry, Hret; cbn; eauto.
Qed.

Lemma filter_none {A} (f : A -> bool) (l : list A) :
  (forall x, x ∈ l -> f x = false) -> filter (fun x => f x = true) l = [].
Proof.
  induction l as [|x l IH]; intros H; [done|].
  rewrite filter_cons. destruct (decide (f x = true)) as [E|_].
  - rewrite H in E; [done|]. by left.
  - apply IH. intros y Hy. apply H. by right.
Qed.

Lemma filter_all {A} (f : A -> bool) (l : list A) :
  (forall x, x ∈ l -> f x = false) -> filter (fun x => f x = false) l = l.
Proof.
  induction l as [|x l IH]; intros H; [done|].
  rewrite filter_cons. destruct (decide (f x = false)) as [_|E].
  - f_equal. apply IH. intros y Hy. apply H. by right.
  - exfalso. apply E, H. by left.
Qed.

Lemma quiescent_not_ready w wt : quiescent w -> wt ∈ waiters w -> ready w wt = false.
Proof.
  intros Hq Hin. destruct (Hq wt Hin) as (pr & Hp & Hs).
  unfold ready. by rewrite Hp.
Qed.

Lemma on_waiters_same f w : f (waiters w) = waiters w -> on_waiters f w = w.
Proof. destruct w. unfold on_waiters. cbn. by intros ->. Qed.

(** Between two turns nothing is left for the promise reactions to do. *)
Lemma drain_quiescent w : quiescent w -> drain w = (Normal tt, w).
Proof.
  intros Hq. unfold drain. stepjs.
  rewrite (filter_none (ready w)) by (intros; by apply quiescent_not_ready).
  cbn [forEach]. unfold ret. f_equal. apply on_waiters_same.
  apply (filter_all (ready w)). intros; by apply quiescent_not_ready.
Qed.

Lemma qrIssued_eq w s sk payload :
  socks w !! s = Some sk ->
  let id := s_id sk in
  onConnectionUpdate s (qrIssued payload) w =
  (Normal tt,
   on_emitted (fun l => (l ++ [QrGenerated id payload]) ++
                        [ConnectionUpdateData id QR_PENDING (Some payload) None])
     (on_store (if accepting 1 w
                then updateWhatsappStatus (parseInt id) "QR_PENDING" (Some payload)
                else fun st => st)
        (on_faults (drop 1)
           (on_sessions (<[id := s]>)
              (on_socks (fun l => alter (sock_qrCode (Some payload)) s
                                    (alter (sock_status QR_PENDING) s l)) w))))).
Proof.
  intros Hsk id. unfold onConnectionUpdate, qrIssued, isOpen, isClose.
  stepjs. rewrite Hsk.
  cbn [lastDisconnect connection qr isNewLogin andb]. unfold when. stepjs.
  unfold onQr. fold id. stepjs.
  rewrite (bind_normal _ _ _ _ _ (tryQuery_eq _ _)). stepjs.
  unfold modify. done.
Qed.

(** What a call from the gateway gets when its promise is resolved, and
    when it is rejected. *)
Lemma resume_gateway_resolved w wt call s sk :
  w_origin wt = Gateway call -> socks w !! s = Some sk ->
  let w' := exec (resumeStartConnection wt (Resolved s)) w in
  returned w' = returned w ++
    [(call, mkStartResult true
              (if w_owner wt then "Session " +:+ w_id wt +:+ " initialized"
               else "Connection for " +:+ w_id wt +:+ " established")
              (s_qrCode sk))] /\
  socks w' = socks w /\ retryAttempts (mgr w') = retryAttempts (mgr w) /\
  promises w' = promises w /\ opened w' = opened w.
Proof.
  intros Ho Hsk. unfold resumeStartConnection, exec. rewrite Ho.
  unfold deliver, when.
  destruct (w_owner wt); stepjs; unfold modify, ret; fields; by rewrite Hsk.
Qed.

Lemma resume_gateway_rejected w wt call e :
  w_origin wt = Gateway call ->
  let w' := exec (resumeStartConnection wt (Rejected e)) w in
  returned w' = returned w ++
    [(call, mkStartResult false
              ("Error starting connection: " +:+ errorMessage e) None)] /\
  socks w' = socks w /\ retryAttempts (mgr w') = retryAttempts (mgr w) /\
  promises w' = promises w /\ opened w' = opened w.
Proof.
  intros Ho. unfold resumeStartConnection, exec. rewrite Ho.
  unfold deliver, when.
  destruct (w_owner wt); stepjs; unfold modify, ret; fields; done.
Qed.
Lemma opened_frame w s sk newLogin :
  socks w !! s = Some sk ->
  let w' := exec (onConnectionUpdate s (opened_ newLogin)) w in
  socks w' !! s = Some (sock_status CONNECTED sk) /\ returned w' = returned w.
Proof.
  intros Hsk w'. unfold w'.
  rewrite (exec_eq _ _ _ _ (opened_eq w s sk newLogin Hsk)).
  set (wA := exec (when newLogin _) w).
  assert (HA : socks wA = socks w /\ returned wA = returned w).
  { unfold wA, when, exec. destruct newLogin; [|done].
    by rewrite (saveOnLogin_eq w s sk Hsk). }
  destruct HA as [HAs HAr].
  rewrite (exec_eq _ _ _ _ (onOpen_eq wA s sk)), settle_frame. fields.
  by rewrite HAs, HAr, list_lookup_alter_eq, Hsk.
Qed.

(** C6, as the code has it.  When the transport issues a QR to a socket,
    whatever string the payload is (the listener tests [qr !== undefined],
    so the empty string passes), the socket gets status QR_PENDING and
    holds the payload, it is registered under its id, and the payload goes
    out in a [qrGenerated] and a [connectionUpdate] event; the promise of
    the attempt stays as it was, so no caller of [startConnection] gets a
    result in that turn.  A caller gets its result when the promise is
    settled: after [open], a success carrying the last payload, the socket
    then being CONNECTED; after a rejection, a failure carrying none.  The
    listener returns; if the store accepts the statement, the id's row has
    status QR_PENDING and the payload in its QR column, its blob and the
    other rows being as they were; if the store refuses it, the error is
    caught and the store is as it was. *)
Theorem qrIssued_event (w : World) (s : nat) (sk : Session) (payload : string) :
  socks w !! s = Some sk ->
  let id := s_id sk in
  let w' := exec (onConnectionUpdate s (qrIssued payload)) w in
  socks w' !! s = Some (sock_qrCode (Some payload) (sock_status QR_PENDING sk)) /\
  sessions (mgr w') !! id = Some s /\
  emitted w' = emitted w ++
    [QrGenerated id payload;
     ConnectionUpdateData id QR_PENDING (Some payload) None] /\
  promises w' = promises w /\ waiters w' = waiters w /\
  returned w' = returned w /\
  (quiescent w -> s_listening sk = true ->
   returned (step (ConnectionUpdate s (qrIssued payload)) w) = returned w) /\
  (forall wt call newLogin, w_origin wt = Gateway call ->
     let w2 := exec (onConnectionUpdate s (opened_ newLogin)) w' in
     let w3 := exec (resumeStartConnection wt (Resolved s)) w2 in
     s_status <$> socks w3 !! s = Some CONNECTED /\
     exists msg, returned w3 = returned w ++
                   [(call, mkStartResult true msg (Some payload))]) /\
  (forall wt call e, w_origin wt = Gateway call ->
     exists msg, returned (exec (resumeStartConnection wt (Rejected e)) w')
                 = returned w ++ [(call, mkStartResult false msg None)]) /\
  (onConnectionUpdate s (qrIssued payload) w).1 = Normal tt /\
  (accepting 1 w = true ->
     (forall n row, parseInt id = Some n -> store w !! n = Some row ->
        exists row', store w' !! n = Some row' /\
          row_status row' = Some "QR_PENDING" /\
          row_qrcode row' = Some payload /\
          row_session row' = row_session row) /\
     (forall m, parseInt id <> Some m -> store w' !! m = store w !! m)) /\
  (accepting 1 w = false -> store w' = store w).
Proof.
  intros Hsk id w'.
  assert (Hw' : w' = (onConnectionUpdate s (qrIssued payload) w).2) by done.
  assert (Hturn : (onConnectionUpdate s (qrIssued payload) w).1 = Normal tt)
    by (by rewrite (qrIssued_eq w s sk payload Hsk)).
  rewrite (qrIssued_eq w s sk payload Hsk) in Hw'. cbn [snd] in Hw'. fold id in Hw'.
  assert (Hsock : socks w' !! s
                  = Some (sock_qrCode (Some payload) (sock_status QR_PENDING sk))).
  { rewrite Hw'. fields. by rewrite !list_lookup_alter_eq, Hsk. }
  assert (Hpr : promises w' = promises w) by (by rewrite Hw').
  assert (Hwt : waiters w' = waiters w) by (by rewrite Hw').
  assert (Hret : returned w' = returned w) by (by rewrite Hw').
  split; [done|]. split; [rewrite Hw'; fields; apply lookup_insert_eq|].
  split; [rewrite Hw'; fields; by rewrite <- app_assoc|].
  split; [done|]. split; [done|]. split; [done|].
  split; [|split; [|split; [|split; [|split]]]].
  4:{ exact Hturn. }
  4:{ intros Hacc. rewrite Hw', Hacc. fields. unfold updateWhatsappStatus. split.
      - intros n row Hn Hrow. exists (setStatusQr "QR_PENDING" payload row).
        split; [|done]. by rewrite (updateWhere_lookup _ _ _ n Hn), Hrow.
      - intros m Hm. by apply updateWhere_lookup_ne. }
  4:{ intros Hacc. rewrite Hw', Hacc. by fields. }
  - intros Hq Hl. unfold step, dispatch.
    assert (Hd : exec (do on <- gets (fun w0 => listening w0 s);
                       when on (onConnectionUpdate s (qrIssued payload))) w = w').
    { unfold exec. stepjs. unfold listening. by rewrite Hsk, Hl. }
    rewrite Hd. unfold exec. rewrite drain_quiescent; [done|].
    intros wt Hin. rewrite Hwt in Hin. destruct (Hq wt Hin) as (pr & Hp & Hs).
    exists pr. by rewrite Hpr.
  - intros wt call newLogin Ho w2 w3.
    destruct (opened_frame w' s _ newLogin Hsock) as [Hs2 Hr2]. fold w2 in Hs2, Hr2.
    destruct (resume_gateway_resolved w2 wt call s _ Ho Hs2) as (Hr3 & Hs3 & _).
    fold w3 in Hr3, Hs3. split.
    + by rewrite Hs3, Hs2.
    + eexists. rewrite Hr3, Hr2, Hret. done.
  - intros wt call e Ho.
    destruct (resume_gateway_rejected w' wt call e Ho) as (Hr & _).
    eexists. by rewrite Hr, Hret.
Qed.

Lemma tryCatch_normal {A} (m : Js A) h w a w' :
  m w = (Normal a, w') -> tryCatch m h w = (Normal a, w').
Proof. unfold tryCatch. by intros ->. Qed.

Lemma deliver_normal o id r w : deliver o id r w = (Normal tt, exec (deliver o id r) w).
Proof. unfold deliver, when, exec. destruct o; [done|]. by destruct (success r). Qed.

Lemma forgetDeleted_fields id w :
  sessions (mgr (forgetDeleted id w)) = sessions (mgr w) /\
  connectionPromises (mgr (forgetDeleted id w)) = connectionPromises (mgr w) /\
  socks (forgetDeleted id w) = socks w /\
  promises (forgetDeleted id w) = promises w /\
  waiters (forgetDeleted id w) = waiters w /\
  opened (forgetDeleted id w) = opened w /\
  returned (forgetDeleted id w) = returned w /\
  cdata (forgetDeleted id w) = cdata w.
Proof. unfold forgetDeleted. by destruct (bool_decide _). Qed.

(** [startConnection] up to its [await], case by case. *)
Lemma startConnection_eq w o cdr :
  let id := cd_id (connData w cdr) in
  let w0 := forgetDeleted id w in
  startConnection o cdr w =
  (Normal tt,
   if connected w id then
     exec (deliver o id
             (mkStartResult true ("Session " +:+ id +:+ " already connected") None))
          w0
   else
     match connectionPromises (mgr w) !! id with
     | Some p => on_waiters (fun l => l ++ [mkWaiter p false id o]) w0
     | None =>
         on_waiters (fun l => l ++ [mkWaiter (length (promises w)) true id o])
           (on_connectionPromises (<[id := length (promises w)]>)
              (on_promises (fun l => l ++ [Fetching cdr (connData w cdr)]) w0))
     end).
Proof.
  intros id w0. unfold startConnection. fold id.
  rewrite bind_gets. cbv beta. fold id.
  apply tryCatch_normal. stepjs.
  rewrite (bind_normal _ _ w tt w0).
  2:{ unfold w0, forgetDeleted, when. by destruct (bool_decide _). }
  stepjs.
  destruct (forgetDeleted_fields id w) as (Hs & Hc & Hk & Hp & _ & _ & _ & Hd).
  fold w0 in Hs, Hc, Hk, Hp, Hd. rewrite Hs, Hk.
  unfold connected.
  destruct (match sessions (mgr w) !! id ≫= (fun s => socks w !! s) with
            | Some sk => s_user sk | None => false end).
  - apply deliver_normal.
  - stepjs. rewrite Hc.
    destruct (connectionPromises (mgr w) !! id) as [p|].
    + unfold modify. done.
    + unfold createConnection.
      assert (Hcd : connData w0 cdr = connData w cdr)
        by (unfold connData; by rewrite Hd).
      unfold bind, gets, modify. by rewrite Hcd, Hp.
Qed.
Lemma bind_bind {A B C} (m : Js A) (k : A -> Js B) (k' : B -> Js C) w :
  bind (bind m k) k' w = bind m (fun a => bind (k a) k') w.
Proof. unfold bind. by destruct (m w) as [[a|e] w1]. Qed.

Lemma resume_normal wt outcome w :
  resumeStartConnection wt outcome w
  = (Normal tt, exec (resumeStartConnection wt outcome) w).
Proof.
  unfold resumeStartConnection, exec, when.
  destruct (w_owner wt); stepjs; destruct outcome; stepjs;
    try rewrite deliver_normal; done.
Qed.

Lemma filter_keep {A} (f : A -> bool) (l : list A) :
  (forall x, x ∈ l -> f x = true) -> filter (fun x => f x = true) l = l.
Proof.
  induction l as [|x l IH]; intros H; [done|].
  rewrite filter_cons. destruct (decide (f x = true)) as [_|E].
  - f_equal. apply IH. intros y Hy. apply H. by right.
  - exfalso. apply E, H. by left.
Qed.

Lemma filter_drop {A} (f : A -> bool) (l : list A) :
  (forall x, x ∈ l -> f x = true) -> filter (fun x => f x = false) l = [].
Proof.
  induction l as [|x l IH]; intros H; [done|].
  rewrite filter_cons. destruct (decide (f x = false)) as [E|_].
  - rewrite H in E; [done|]. by left.
  - apply IH. intros y Hy. apply H. by right.
Qed.

(** The reactions of the gateway's callers to a promise that was resolved
    with socket [s]: each gets its result, in the order of the calls. *)
Lemma resume_all_resolved p id s sk cs : forall w,
  promises w !! p = Some (Resolved s) -> socks w !! s = Some sk ->
  let w' := exec (forEach (gatewayWaiter p id <$> cs) (fun wt =>
                    do outcome <- gets (fun w => outcomeOf w wt);
                    resumeStartConnection wt outcome)) w in
  returned w' = returned w ++ (establishedResult id (s_qrCode sk) <$> cs) /\
  opened w' = opened w /\ promises w' = promises w /\ socks w' = socks w.
Proof.
  set (body := fun wt => do outcome <- gets (fun w => outcomeOf w wt);
                         resumeStartConnection wt outcome).
  induction cs as [|c cs IH]; intros w Hp Hs; cbn [fmap list_fmap forEach].
  - unfold exec, ret. cbn. by rewrite app_nil_r.
  - destruct (resume_gateway_resolved w (gatewayWaiter p id c) c.1 s sk eq_refl Hs)
      as (Hr & Hk & _ & Hq & Ho).
    set (w1 := exec (resumeStartConnection (gatewayWaiter p id c) (Resolved s)) w) in *.
    assert (Hb : body (gatewayWaiter p id c) w = (Normal tt, w1)).
    { unfold body. rewrite bind_gets. unfold outcomeOf.
      cbn [gatewayWaiter w_promise]. rewrite Hp. apply resume_normal. }
    unfold exec. rewrite (bind_normal _ _ _ _ _ Hb).
    rewrite <- Hq in Hp. rewrite <- Hk in Hs.
    destruct (IH w1 Hp Hs) as (Hr' & Ho' & Hq' & Hk').
    unfold exec in Hr', Ho', Hq', Hk'. rewrite Hr', Ho', Hq', Hk', Hr, Ho, Hq, Hk.
    by rewrite <- app_assoc.
Qed.

Lemma drain_resolved w old p id s sk cs :
  waiters w = old ++ (gatewayWaiter p id <$> cs) ->
  (forall wt, wt ∈ old -> ready w wt = false) ->
  promises w !! p = Some (Resolved s) -> socks w !! s = Some sk ->
  returned (exec drain w) = returned w ++ (establishedResult id (s_qrCode sk) <$> cs) /\
  opened (exec drain w) = opened w.
Proof.
  intros Hw Hold Hp Hs. unfold drain, exec. stepjs. rewrite Hw.
  rewrite filter_app, (filter_none (ready w) old Hold).
  rewrite (filter_keep (ready w)).
  2:{ intros wt [c [-> _]]%list_elem_of_fmap. unfold ready. cbn. by rewrite Hp. }
  cbn [app].
  destruct (resume_all_resolved p id s sk cs
              (on_waiters (filter (fun wt => ready w wt = false)) w) Hp Hs)
    as (Hr & Ho & _).
  unfold exec in Hr, Ho. by rewrite Hr, Ho.
Qed.
Lemma connData_new w d : connData (on_cdata (fun l => l ++ [d]) w) (length (cdata w)) = d.
Proof. unfold connData. fields. by rewrite list_lookup_middle. Qed.

Lemma step_call w c d :
  step (CallStartConnection c d) w =
  exec drain (exec (startConnection (Gateway c) (length (cdata w)))
                   (on_cdata (fun l => l ++ [d]) w)).
Proof. unfold step, dispatch. f_equal. Qed.

Lemma waiting_quiescent w W id pr cs :
  quiescent w -> promises W = promises w ++ [pr] ->
  waiters W = waiters w ++ (gatewayWaiter (length (promises w)) id <$> cs) ->
  settled pr = false -> quiescent W.
Proof.
  intros Hq Hp Hw Hs wt Hin. unfold pendingAt. rewrite Hp.
  rewrite Hw in Hin. apply elem_of_app in Hin as [Hin|Hin].
  - destruct (Hq wt Hin) as (pr' & Hl & Hs'). exists pr'. split; [|done].
    rewrite lookup_app_l; [done|]. by eapply lookup_lt_Some.
  - apply list_elem_of_fmap in Hin as (c & -> & _). exists pr. split; [|done].
    cbn. by rewrite list_lookup_middle.
Qed.

Lemma inflight_quiescent w W id pr cs :
  quiescent w -> attemptInFlight w W id pr cs -> settled pr = false -> quiescent W.
Proof.
  intros Hq (Hp & _ & Hw & _) Hs. by apply (waiting_quiescent w W id pr cs).
Qed.

Lemma first_call w id c d :
  quiescent w -> connectionPromises (mgr w) !! id = None ->
  connected w id = false -> cd_id d = id ->
  attemptInFlight w (step (CallStartConnection c d) w) id
    (Fetching (length (cdata w)) d) [(c, true)] /\
  socks (step (CallStartConnection c d) w) = socks w.
Proof.
  intros Hq Hnone Hconn Hid. rewrite step_call.
  pose proof (startConnection_eq (on_cdata (fun l => l ++ [d]) w) (Gateway c)
                (length (cdata w))) as E.
  cbv zeta in E. rewrite connData_new, Hid in E.
  set (wc := on_cdata (fun l => l ++ [d]) w) in *.
  change (connected wc id) with (connected w id) in E.
  change (connectionPromises (mgr wc)) with (connectionPromises (mgr w)) in E.
  change (promises wc) with (promises w) in E.
  rewrite Hconn, Hnone in E. rewrite (exec_eq _ _ _ _ E). clear E.
  destruct (forgetDeleted_fields id wc) as (Hs & Hc & Hk & Hp & Hw & Ho & Hr & _).
  set (W := on_waiters _ _).
  assert (HW : attemptInFlight w W id (Fetching (length (cdata w)) d) [(c, true)] /\
               socks W = socks w).
  { unfold attemptInFlight, W. fields. rewrite Hs, Hk, Hp, Hw, Ho, Hr.
    rewrite lookup_insert_eq. done. }
  destruct HW as [HW HWs].
  unfold exec. rewrite drain_quiescent; [done|].
  by apply (inflight_quiescent w W id _ _ Hq HW).
Qed.

Lemma join_call w W id pr cs c d :
  quiescent w -> connected w id = false -> settled pr = false ->
  attemptInFlight w W id pr cs -> socks W = socks w -> cd_id d = id ->
  attemptInFlight w (step (CallStartConnection c d) W) id pr (cs ++ [(c, false)]) /\
  socks (step (CallStartConnection c d) W) = socks w.
Proof.
  intros Hq Hconn Hpend HW HWs Hid. rewrite step_call.
  pose proof HW as (Hp0 & Hc0 & Hw0 & Hs0 & Ho0 & Hr0).
  pose proof (startConnection_eq (on_cdata (fun l => l ++ [d]) W) (Gateway c)
                (length (cdata W))) as E.
  cbv zeta in E. rewrite connData_new, Hid in E.
  set (wc := on_cdata (fun l => l ++ [d]) W) in *.
  assert (Hconn' : connected wc id = false).
  { unfold connected in *. unfold wc. fields. by rewrite Hs0, HWs. }
  change (connectionPromises (mgr wc)) with (connectionPromises (mgr W)) in E.
  rewrite Hconn', Hc0 in E. rewrite (exec_eq _ _ _ _ E). clear E.
  destruct (forgetDeleted_fields id wc) as (Hs & Hc & Hk & Hp & Hw & Ho & Hr & _).
  set (W' := on_waiters _ _).
  assert (HW' : attemptInFlight w W' id pr (cs ++ [(c, false)]) /\ socks W' = socks w).
  { unfold attemptInFlight, W'. fields. rewrite Hs, Hc, Hk, Hp, Hw, Ho, Hr.
    unfold wc. fields. rewrite Hp0, Hc0, Hw0, Hs0, Ho0, Hr0, HWs, fmap_app, <- app_assoc.
    done. }
  destruct HW' as [HW' HWs'].
  unfold exec. rewrite drain_quiescent; [done|].
  by apply (inflight_quiescent w W' id _ _ Hq HW').
Qed.

Lemma runEvents_snoc es e w : runEvents (es ++ [e]) w = step e (runEvents es w).
Proof. unfold runEvents. by rewrite foldl_app. Qed.

(** The callers that arrive while the attempt is in flight all wait for
    its promise. *)
Lemma joiners_wait w W id pr cs joins :
  quiescent w -> connected w id = false -> settled pr = false ->
  attemptInFlight w W id pr cs -> socks W = socks w ->
  Forall (fun c : nat * StartConnectionData => cd_id c.2 = id) joins ->
  attemptInFlight w (runEvents (callEvents joins) W) id pr
    (cs ++ ((fun c : nat * StartConnectionData => (c.1, false)) <$> joins)) /\
  socks (runEvents (callEvents joins) W) = socks w.
Proof.
  intros Hq Hconn Hpend HW HWs Hall.
  induction joins as [|j joins IH] using rev_ind.
  - cbn. by rewrite app_nil_r.
  - apply Forall_app in Hall as [Hall Hj]. apply Forall_inv in Hj.
    destruct (IH Hall) as [IH1 IH2]. unfold callEvents in *.
    rewrite !fmap_app. cbn [fmap list_fmap]. rewrite runEvents_snoc, app_assoc.
    apply (join_call w _ id pr _ j.1 j.2 Hq Hconn Hpend IH1 IH2 Hj).
Qed.
Lemma versionFetched_eq W p cdr cd :
  promises W !! p = Some (Fetching cdr cd) ->
  let s := length (socks W) in
  versionFetched p None W =
  (Normal tt,
   on_promises (<[p := Negotiating s]>)
     (on_socks (fun l => l ++
        [mkSession (cd_id cd) (cd_name cd) (cd_companyId cd) CONNECTING None
           false (getAuthState s (cd_session cd)) cdr p true false false None])
        (on_opened (fun l => l ++ [cd_id cd])
           (on_sessionStates (fun x => {[cd_id cd]} ∪ x) W)))).
Proof.
  intros Hp s. unfold versionFetched. stepjs. rewrite Hp. stepjs.
  unfold modify. done.
Qed.

Lemma opened_waiters w s sk newLogin :
  socks w !! s = Some sk ->
  let w' := exec (onConnectionUpdate s (opened_ newLogin)) w in
  waiters w' = waiters w /\ opened w' = opened w /\
  (pendingAt w (s_promise sk) ->
   promises w' = <[s_promise sk := Resolved s]> (promises w)).
Proof.
  intros Hsk w'. unfold w'.
  rewrite (exec_eq _ _ _ _ (opened_eq w s sk newLogin Hsk)).
  set (wA := exec (when newLogin _) w).
  assert (HA : waiters wA = waiters w /\ opened wA = opened w /\
               promises wA = promises w).
  { unfold wA, when, exec. destruct newLogin; [|done].
    by rewrite (saveOnLogin_eq w s sk Hsk). }
  destruct HA as (HAw & HAo & HAp).
  rewrite (exec_eq _ _ _ _ (onOpen_eq wA s sk)), settle_frame. fields.
  split; [done|]. split; [done|].
  intros (pr & Hp & Hs). js. fields. by rewrite HAp, Hp, Hs.
Qed.

Lemma insert_last {A} (l : list A) (x y : A) : <[length l := y]> (l ++ [x]) = l ++ [y].
Proof. rewrite insert_app_r_alt by lia. by rewrite Nat.sub_diag. Qed.
(** C1, as the code has it.  One attempt per entry of
    [connectionPromises]: the guarantee is that of the entry, which
    [cleanupSession] and the callback of a restart timer delete whether or
    not its attempt has settled.
    - A call of [startConnection] that finds an attempt of its id in
      flight makes no promise, no socket and no transport call, and leaves
      the attempt's token; unless a connected session is registered, it
      waits for the promise of that attempt.
    - Whatever the outcome of the attempt, the one who started it and the
      ones who joined get results with the same [success] and [qrCode].
    - Any number of callers arriving for an id in turn, from a state with
      no attempt and no connected session for it, make one attempt; its
      transport is opened once, when the version is known; when the
      socket opens, every caller gets a result, all of them successes. *)
Theorem startConnection_single_flight (w : World) (id : string) :
  (forall o cdr p,
     cd_id (connData w cdr) = id -> connectionPromises (mgr w) !! id = Some p ->
     let w' := exec (startConnection o cdr) w in
     promises w' = promises w /\ opened w' = opened w /\ socks w' = socks w /\
     connectionPromises (mgr w') = connectionPromises (mgr w) /\
     (connected w id = false ->
      waiters w' = waiters w ++ [mkWaiter p false id o] /\
      returned w' = returned w)) /\
  (forall p outcome call1 call2 owner1 owner2,
     settled outcome = true ->
     exists r1 r2,
       returned (exec (resumeStartConnection
                         (mkWaiter p owner1 id (Gateway call1)) outcome) w)
       = returned w ++ [(call1, r1)] /\
       returned (exec (resumeStartConnection
                         (mkWaiter p owner2 id (Gateway call2)) outcome) w)
       = returned w ++ [(call2, r2)] /\
       success r1 = success r2 /\ qrCode r1 = qrCode r2) /\
  (quiescent w -> connectionPromises (mgr w) !! id = None ->
   connected w id = false ->
   forall call0 data0 joins newLogin,
     cd_id data0 = id ->
     Forall (fun c : nat * StartConnectionData => cd_id c.2 = id) joins ->
     let p := length (promises w) in
     let s := length (socks w) in
     let w1 := runEvents (callEvents ((call0, data0) :: joins)) w in
     let w2 := step (VersionFetched p None) w1 in
     let w3 := step (ConnectionUpdate s (opened_ newLogin)) w2 in
     promises w1 = promises w ++ [Fetching (length (cdata w)) data0] /\
     opened w1 = opened w /\ returned w1 = returned w /\
     opened w2 = opened w ++ [id] /\ returned w2 = returned w /\
     opened w3 = opened w ++ [id] /\
     returned w3 = returned w ++
       (establishedResult id None <$>
          (call0, true) :: ((fun c : nat * StartConnectionData => (c.1, false)) <$> joins))).
Proof.
  split; [|split].
  - intros o cdr p Hid Hp w'. unfold w'.
    pose proof (startConnection_eq w o cdr) as E. cbv zeta in E.
    rewrite Hid, Hp in E. rewrite (exec_eq _ _ _ _ E). clear E.
    destruct (forgetDeleted_fields id w) as (Hs & Hc & Hk & Hq & Hw & Ho & Hr & _).
    destruct (connected w id).
    + unfold exec, deliver, when. destruct o; cbn [success]; unfold modify; fields;
        by rewrite Hc, Hk, Hq, Ho.
    + fields. by rewrite Hc, Hk, Hq, Ho, Hw, Hr.
  - intros p outcome call1 call2 owner1 owner2 Hset.
    destruct outcome as [| |s|e]; try discriminate.
    + unfold resumeStartConnection, exec, deliver, when. cbn [w_owner w_id w_origin].
      destruct owner1, owner2; stepjs; unfold modify; fields;
        do 2 eexists; (split; [reflexivity|]; split; [reflexivity|]; done).
    + unfold resumeStartConnection, exec, deliver, when. cbn [w_owner w_id w_origin].
      destruct owner1, owner2; stepjs; unfold modify; fields;
        do 2 eexists; (split; [reflexivity|]; split; [reflexivity|]; done).
  - intros Hq Hnone Hconn call0 data0 joins newLogin Hid Hall p s w1 w2 w3.
    destruct (first_call w id call0 data0 Hq Hnone Hconn Hid) as [H0 H0s].
    destruct (joiners_wait w _ id (Fetching (length (cdata w)) data0) _ joins
                Hq Hconn eq_refl H0 H0s Hall) as [H1 H1s].
    change (runEvents (callEvents joins) (step (CallStartConnection call0 data0) w))
      with w1 in H1, H1s.
    cbn [app] in H1.
    set (cs := (call0, true) ::
                 ((fun c : nat * StartConnectionData => (c.1, false)) <$> joins)) in *.
    destruct H1 as (Hp1 & Hc1 & Hw1 & Hss1 & Ho1 & Hr1).
    split; [done|]. split; [done|]. split; [done|].
    (* the version is known *)
    assert (Hf : promises w1 !! p = Some (Fetching (length (cdata w)) data0)).
    { rewrite Hp1. apply list_lookup_middle. done. }
    set (w2' := exec (versionFetched p None) w1).
    assert (Hw2' : promises w2' = promises w ++ [Negotiating s] /\
                   waiters w2' = waiters w1 /\ opened w2' = opened w ++ [id] /\
                   returned w2' = returned w /\
                   socks w2' = socks w ++
                     [mkSession id (cd_name data0) (cd_companyId data0) CONNECTING
                        None false (getAuthState s (cd_session data0))
                        (length (cdata w)) p true false false None]).
    { unfold w2'. rewrite (exec_eq _ _ _ _ (versionFetched_eq w1 p _ _ Hf)).
      fields. rewrite Hp1, H1s, Ho1, Hr1, Hid. fold s. unfold p at 1.
      by rewrite insert_last. }
    destruct Hw2' as (Hp2 & Hw2 & Ho2 & Hr2 & Hs2).
    assert (Hq2 : quiescent w2').
    { apply (waiting_quiescent w w2' id (Negotiating s) cs Hq); try done.
      by rewrite Hw2, Hw1. }
    assert (Ew2 : w2 = w2').
    { unfold w2, step, dispatch. fold w2'. unfold exec at 1.
      by rewrite drain_quiescent. }
    rewrite Ew2. split; [done|]. split; [done|].
    (* the socket opens *)
    set (sk := mkSession _ _ _ _ _ _ _ _ _ _ _ _ _) in Hs2.
    assert (Hsk : socks w2' !! s = Some sk).
    { rewrite Hs2. by apply list_lookup_middle. }
    set (w3' := exec (onConnectionUpdate s (opened_ newLogin)) w2').
    assert (Ew3 : w3 = exec drain w3').
    { unfold w3, step, dispatch. rewrite Ew2. f_equal. unfold exec. stepjs.
      unfold listening. rewrite Hsk. done. }
    destruct (opened_frame w2' s sk newLogin Hsk) as [Hs3 Hr3].
    destruct (opened_waiters w2' s sk newLogin Hsk) as (Hw3 & Ho3 & Hp3).
    fold w3' in Hs3, Hr3, Hw3, Ho3, Hp3.
    assert (Hpend : pendingAt w2' (s_promise sk)).
    { exists (Negotiating s). split; [|done]. rewrite Hp2. by apply list_lookup_middle. }
    specialize (Hp3 Hpend). cbn [s_promise sk] in Hp3.
    rewrite Hp2 in Hp3. unfold p in Hp3 at 1. rewrite insert_last in Hp3.
    destruct (drain_resolved w3' (waiters w) p id s (sock_status CONNECTED sk) cs)
      as [Hr4 Ho4].
    + by rewrite Hw3, Hw2, Hw1.
    + intros wt Hin. destruct (Hq wt Hin) as (pr & Hl & Hst).
      unfold ready. rewrite Hp3, lookup_app_l by (by eapply lookup_lt_Some).
      by rewrite Hl.
    + rewrite Hp3. by apply list_lookup_middle.
    + exact Hs3.
    + rewrite Ew3, Ho4, Hr4, Ho3, Hr3, Ho2, Hr2. done.
Qed.

Lemma deleteSession_exec id w :
  exec (deleteSession id) w =
  mkWorld
    (mkManager (delete id (sessions (mgr w)))
               (delete id (connectionPromises (mgr w)))
               ({[id]} ∪ deletedSessions (mgr w))
               (delete id (pendingReconnects (mgr w)))
               (delete id (retryAttempts (mgr w)))
               (sessionStates (mgr w) ∖ {[id]}))
    (released id w) (cdata w) (promises w) (cancelled id w) (waiters w)
    (store w) (faults w) (emitted w) (returned w) (opened w) (sent w).
Proof. unfold exec. by rewrite deleteSession_spec. Qed.

Lemma forEach_evict keep ids : forall w,
  forEach ids (fun sessionId =>
    when (negb (bool_decide (sessionId ∈ keep)))
      (tryCatch (do _ <- deleteSession sessionId; ret tt) (fun _ => ret tt))) w
  = (Normal tt, evictAll keep ids w).
Proof.
  induction ids as [|id ids IH]; intros w; cbn [forEach evictAll foldl]; [done|].
  assert (Hb : when (negb (bool_decide (id ∈ keep)))
                 (tryCatch (do _ <- deleteSession id; ret tt) (fun _ => ret tt)) w
               = (Normal tt, if bool_decide (id ∈ keep) then w
                             else exec (deleteSession id) w)).
  { unfold when. destruct (bool_decide (id ∈ keep)); cbn [negb]; [done|].
    apply tryCatch_normal. rewrite (bind_normal _ _ _ _ _ (deleteSession_spec id w)).
    unfold ret, exec. by rewrite deleteSession_spec. }
  rewrite (bind_normal _ _ _ _ _ Hb). apply IH.
Qed.

Lemma reconcile_eq w :
  accepting 1 w = true ->
  reconcileSessionsWithDatabase w =
  (Normal tt,
   on_deletedSessions (fun _ => ∅)
     (evictAll (dbIds (store w)) (map_to_list (sessions (mgr w))).*1
        (on_faults (drop 1) w))).
Proof.
  intros Hacc. unfold reconcileSessionsWithDatabase. apply tryCatch_normal.
  assert (Hf : fetchAll w = (Normal (getAllWhatsappConnections (store w)),
                             on_faults (drop 1) w)).
  { unfold fetchAll. unfold accepting in Hacc.
    by destruct (faults w) as [|[msg|] rest]. }
  rewrite (bind_normal _ _ _ _ _ Hf). stepjs. fold (dbIds (store w)).
  rewrite (bind_normal _ _ _ _ _ (forEach_evict _ _ _)). done.
Qed.

(** A pass in which the store does not answer changes nothing but the
    answers left. *)
Lemma reconcile_unavailable w :
  accepting 1 w = false ->
  reconcileSessionsWithDatabase w = (Normal tt, on_faults (drop 1) w).
Proof.
  intros Hacc. unfold reconcileSessionsWithDatabase, tryCatch, bind, fetchAll.
  unfold accepting in Hacc. by destruct (faults w) as [|[msg|] rest].
Qed.
Lemma evictAll_preserves keep (P : World -> Prop) :
  (forall x w, P w -> P (exec (deleteSession x) w)) ->
  forall ids w, P w -> P (evictAll keep ids w).
Proof.
  intros HP ids. induction ids as [|x ids IH]; intros w Hw; [done|].
  cbn [evictAll foldl]. apply IH. destruct (bool_decide (x ∈ keep)); auto.
Qed.

Lemma delete_keeps_none {A} (m : gmap string A) x id :
  m !! id = None -> delete x m !! id = None.
Proof. intros H. rewrite lookup_delete. by case_decide. Qed.

Lemma deleteSession_gone id w : gone id (exec (deleteSession id) w).
Proof.
  rewrite deleteSession_exec. unfold gone. fields.
  by rewrite !lookup_delete_eq.
Qed.

Lemma deleteSession_keeps_gone id x w : gone id w -> gone id (exec (deleteSession x) w).
Proof.
  intros (H1 & H2 & H3 & H4). rewrite deleteSession_exec. unfold gone. fields.
  by rewrite !delete_keeps_none.
Qed.

Lemma cancelled_keeps x w t :
  timers w !! t = Some None -> cancelled x w !! t = Some None.
Proof.
  intros H. unfold cancelled. destruct (pendingReconnects (mgr w) !! x) as [t'|]; [|done].
  rewrite list_lookup_insert. case_decide as Hc; [|done].
  destruct Hc as [-> Hlt]. done.
Qed.

Lemma cancelled_length x w : length (cancelled x w) = length (timers w).
Proof.
  unfold cancelled. destruct (pendingReconnects (mgr w) !! x); [|done].
  apply length_insert.
Qed.

Lemma released_keeps x w s : tornDown w s ->
  exists sk, released x w !! s = Some sk /\ s_ended sk = true /\ s_listening sk = false.
Proof.
  intros (sk & Hs & He & Hl). unfold released.
  destruct (sessions (mgr w) !! x) as [s'|]; [|eauto].
  destruct (decide (s' = s)) as [->|Hne].
  - rewrite !list_lookup_alter_eq, Hs. cbn. eauto.
  - rewrite !list_lookup_alter_ne by done. eauto.
Qed.

Lemma released_is_Some x w s : is_Some (socks w !! s) -> is_Some (released x w !! s).
Proof.
  intros [sk Hs]. unfold released.
  destruct (sessions (mgr w) !! x) as [s'|]; [|eauto].
  destruct (decide (s' = s)) as [->|Hne].
  - rewrite !list_lookup_alter_eq, Hs. cbn. eauto.
  - rewrite !list_lookup_alter_ne by done. eauto.
Qed.

Lemma deleteSession_keeps_tornDown x w s :
  tornDown w s -> tornDown (exec (deleteSession x) w) s.
Proof. intros H. rewrite deleteSession_exec. unfold tornDown. fields. by apply released_keeps. Qed.

Lemma deleteSession_keeps_cleared x w t :
  timers w !! t = Some None -> timers (exec (deleteSession x) w) !! t = Some None.
Proof. intros H. rewrite deleteSession_exec. fields. by apply cancelled_keeps. Qed.

(** What a pass does to the ids it does not keep. *)
Lemma evictAll_evicts keep id ids : forall w,
  id ∈ ids -> id ∉ keep ->
  let w' := evictAll keep ids w in
  gone id w' /\
  (forall t, pendingReconnects (mgr w) !! id = Some t ->
             (t < length (timers w))%nat -> timers w' !! t = Some None) /\
  (forall s, sessions (mgr w) !! id = Some s -> is_Some (socks w !! s) ->
             tornDown w' s).
Proof.
  induction ids as [|x ids IH]; intros w Hin Hkeep; [by apply elem_of_nil in Hin|].
  cbn [evictAll foldl]. fold (evictAll keep ids).
  destruct (decide (x = id)) as [->|Hne].
  - rewrite bool_decide_eq_false_2 by done.
    set (w1 := exec (deleteSession id) w).
    split; [|split].
    + apply (evictAll_preserves keep (gone id)).
      * intros; by apply deleteSession_keeps_gone.
      * apply deleteSession_gone.
    + intros t Ht Hlt.
      apply (evictAll_preserves keep (fun w => timers w !! t = Some None)).
      * intros; by apply deleteSession_keeps_cleared.
      * unfold w1. rewrite deleteSession_exec. fields. unfold cancelled.
        rewrite Ht. by apply list_lookup_insert_eq.
    + intros s Hs [sk Hsk].
      apply (evictAll_preserves keep (fun w => tornDown w s)).
      * intros; by apply deleteSession_keeps_tornDown.
      * unfold w1. rewrite deleteSession_exec. unfold tornDown. fields.
        unfold released. rewrite Hs, !list_lookup_alter_eq, Hsk. cbn. eauto.
  - apply elem_of_cons in Hin as [->|Hin]; [done|].
    set (w1 := if bool_decide (x ∈ keep) then w else exec (deleteSession x) w).
    assert (H1 : pendingReconnects (mgr w1) !! id = pendingReconnects (mgr w) !! id /\
                 sessions (mgr w1) !! id = sessions (mgr w) !! id /\
                 length (timers w1) = length (timers w) /\
                 (forall s, is_Some (socks w !! s) -> is_Some (socks w1 !! s))).
    { unfold w1. destruct (bool_decide (x ∈ keep)); [done|].
      rewrite deleteSession_exec. fields.
      rewrite !lookup_delete_ne by done. rewrite cancelled_length.
      repeat split; try done. intros s. apply released_is_Some. }
    destruct H1 as (Hp & Hs & Hl & Hk).
    destruct (IH w1 Hin Hkeep) as (G & T & S).
    split; [done|]. split.
    + intros t Ht Hlt. apply T; [by rewrite Hp|by rewrite Hl].
    + intros s Hss Hsk. apply S; [by rewrite Hs|by apply Hk].
Qed.

(** The test decides [quiescent]. *)
Lemma quiescentb_spec w : quiescentb w = true -> quiescent w.
Proof.
  unfold quiescentb, quiescent, pendingAt. rewrite forallb_forall.
  intros H wt Hin. apply list_elem_of_In in Hin. specialize (H wt Hin).
  destruct (promises w !! w_promise wt) as [pr|]; [|done].
  exists pr. split; [done|]. by destruct (settled pr).
Qed.

(** The teardown that a reconciliation pass performs.  When the store
    answers, every session registered under an id that the store does not
    list is removed from the registry, with the retry count and the
    attempt token of the id; the timer recorded for the id is cleared; the
    socket is told to end and loses its listeners; and the set of deleted
    ids is emptied. *)
Lemma reconcile_evicts w id s :
  accepting 1 w = true ->
  sessions (mgr w) !! id = Some s -> id ∉ dbIds (store w) ->
  let w' := exec reconcileSessionsWithDatabase w in
  gone id w' /\ deletedSessions (mgr w') = ∅ /\
  (forall t, pendingReconnects (mgr w) !! id = Some t ->
             (t < length (timers w))%nat -> timers w' !! t = Some None) /\
  (is_Some (socks w !! s) -> tornDown w' s).
Proof.
  intros Hacc Hs Hkeep w'. unfold w'.
  rewrite (exec_eq _ _ _ _ (reconcile_eq w Hacc)).
  assert (Hin : id ∈ (map_to_list (sessions (mgr w))).*1).
  { apply list_elem_of_fmap. exists (id, s). split; [done|].
    by apply elem_of_map_to_list. }
  destruct (evictAll_evicts (dbIds (store w)) id _ (on_faults (drop 1) w) Hin Hkeep)
    as (G & T & S).
  split; [|split; [|split]].
  - unfold gone in *. fields. done.
  - fields. done.
  - intros t Ht Hlt. fields. by apply T.
  - intros Hsk. unfold tornDown in *. fields. by apply S.
Qed.

(** The callback of a restart timer leaves no retry count for its id:
    [cleanupSession] deletes it, and nothing the callback does after stores
    one. *)
Lemma restartCallback_resets_count w cdr :
  let id := cd_id (connData w cdr) in
  let w' := exec (restartCallback cdr) w in
  cdata w' = cdata w /\ retryAttempts (mgr w') !! id = None.
Proof.
  intros id w'. unfold w'.
  set (w1 := on_pendingReconnects (delete id) w).
  pose proof (cleanupSession_spec id w1) as Hc.
  set (w2 := mkWorld _ _ _ _ _ _ _ _ _ _ _ _) in Hc.
  set (w3 := on_connectionPromises (delete id) w2).
  assert (Hd : connData w3 cdr = connData w cdr) by done.
  pose proof (startConnection_eq w3 Restart cdr) as Hs.
  cbv zeta in Hs. rewrite Hd in Hs. fold id in Hs.
  assert (Hconn : connected w3 id = false).
  { unfold connected, w3, w2. fields. by rewrite lookup_delete_eq. }
  assert (Hnone : connectionPromises (mgr w3) !! id = None).
  { unfold w3. fields. by rewrite lookup_delete_eq. }
  rewrite Hconn, Hnone in Hs.
  erewrite exec_eq.
  2:{ unfold restartCallback. rewrite bind_gets. cbv beta. fold id.
      apply tryCatch_normal. rewrite bind_modify. fold w1.
      rewrite (bind_normal _ _ _ _ _ Hc). rewrite bind_modify. fold w3.
      exact Hs. }
  unfold forgetDeleted. destruct (bool_decide _); fields.
  all: split; [done|].
  all: unfold w3, w2, w1; fields; by rewrite !lookup_delete_eq.
Qed.


(** [disconnectSession] consults neither the timers nor the retry counts:
    a restart that is pending for the id stays pending. *)
Lemma disconnectSession_keeps_timers id w :
  let w' := exec (disconnectSession id) w in
  timers w' = timers w /\
  pendingReconnects (mgr w') = pendingReconnects (mgr w) /\
  retryAttempts (mgr w') = retryAttempts (mgr w).
Proof.
  unfold disconnectSession, logout, deleteAuthState, query. js.
  destruct (sessions (mgr w) !! id) as [s|]; [|done].
  destruct (socks w !! s ≫= s_faulty) as [e|]; [done|].
  fields.
  by destruct (head (faults w)) as [[msg|]|].
Qed.

(** The callback of a restart timer starts an attempt of its own whatever
    it finds: it deletes the entry of the id, so that its
    [startConnection] finds none, and the stored retry count with it. *)
Lemma restartCallback_new_attempt w cdr :
  let id := cd_id (connData w cdr) in
  let w' := exec (restartCallback cdr) w in
  promises w' = promises w ++ [Fetching cdr (connData w cdr)] /\
  connectionPromises (mgr w') !! id = Some (length (promises w)) /\
  waiters w' = waiters w ++ [mkWaiter (length (promises w)) true id Restart] /\
  retryAttempts (mgr w') !! id = None /\
  pendingReconnects (mgr w') !! id = None.
Proof.
  intros id w'. unfold w'.
  set (w1 := on_pendingReconnects (delete id) w).
  pose proof (cleanupSession_spec id w1) as Hc.
  set (w2 := mkWorld _ _ _ _ _ _ _ _ _ _ _ _) in Hc.
  set (w3 := on_connectionPromises (delete id) w2).
  assert (Hd : connData w3 cdr = connData w cdr) by done.
  pose proof (startConnection_eq w3 Restart cdr) as Hs.
  cbv zeta in Hs. rewrite Hd in Hs. fold id in Hs.
  assert (Hconn : connected w3 id = false).
  { unfold connected, w3, w2. fields. by rewrite lookup_delete_eq. }
  assert (Hnone : connectionPromises (mgr w3) !! id = None).
  { unfold w3. fields. by rewrite lookup_delete_eq. }
  rewrite Hconn, Hnone in Hs.
  erewrite exec_eq.
  2:{ unfold restartCallback. rewrite bind_gets. cbv beta. fold id.
      apply tryCatch_normal. rewrite bind_modify. fold w1.
      rewrite (bind_normal _ _ _ _ _ Hc). rewrite bind_modify. fold w3.
      exact Hs. }
  unfold forgetDeleted. destruct (bool_decide _); fields.
  all: rewrite lookup_insert_eq.
  all: assert (promises w3 = promises w) as -> by done.
  all: assert (waiters w3 = waiters w) as -> by done.
  all: repeat (split; [done|]).
  all: unfold w3, w2, w1; fields; by rewrite !lookup_delete_eq.
Qed.

(** ** Reconciliation and the rows of the store *)

Lemma dbIds_listed d id : id ∈ dbIds d <-> listed d id.
Proof.
  unfold dbIds, listed, getAllWhatsappConnections.
  rewrite elem_of_list_to_set, list_elem_of_fmap. split.
  - intros ([n row] & -> & Hin). apply list_elem_of_filter in Hin as [Hsel Hin].
    apply elem_of_map_to_list in Hin. by exists n, row.
  - intros (n & row & Hrow & Hsel & <-). exists (n, row). split; [done|].
    apply list_elem_of_filter. split; [done|]. by apply elem_of_map_to_list.
Qed.

Lemma evictAll_keeps keep id ids : forall w,
  id ∈ keep -> entries (evictAll keep ids w) id = entries w id.
Proof.
  induction ids as [|x ids IH]; intros w Hkeep; [done|].
  change (evictAll keep (x :: ids) w)
    with (evictAll keep ids (if bool_decide (x ∈ keep) then w
                             else exec (deleteSession x) w)).
  rewrite IH by done.
  destruct (bool_decide (x ∈ keep)) eqn:Hx; [done|].
  apply bool_decide_eq_false in Hx.
  assert (x <> id) by (intros ->; done).
  rewrite deleteSession_exec. unfold entries. fields.
  by rewrite !lookup_delete_ne.
Qed.

(** A pass leaves alone what the manager holds under an id that the fetch
    lists: the session, the attempt, the restart timer and the retry
    count.  And when the fetch fails the pass changes nothing but the
    store's queue of answers. *)
Theorem reconcile_keeps_listed w id :
  let w' := exec reconcileSessionsWithDatabase w in
  (accepting 1 w = true -> listed (store w) id -> entries w' id = entries w id) /\
  (accepting 1 w = false ->
   mgr w' = mgr w /\ socks w' = socks w /\ timers w' = timers w /\
   promises w' = promises w /\ store w' = store w).
Proof.
  intros w'. unfold w'. split.
  - intros Hacc Hl. rewrite (exec_eq _ _ _ _ (reconcile_eq w Hacc)).
    apply dbIds_listed in Hl.
    pose proof (evictAll_keeps (dbIds (store w)) id
                  (map_to_list (sessions (mgr w))).*1 (on_faults (drop 1) w) Hl) as H.
    unfold entries in *. fields. exact H.
  - intros Hacc. by rewrite (exec_eq _ _ _ _ (reconcile_unavailable w Hacc)).
Qed.

(** A pass evicts every session whose id the fetch does not list.  The
    row may be there: its status is DISCONNECTED or [NULL], or the id is
    not the numeral that [String] makes of the row's id, although
    [parseInt] reads it as that id. *)
Theorem reconcile_evicts_unlisted w id s :
  accepting 1 w = true -> sessions (mgr w) !! id = Some s ->
  (forall n row, store w !! n = Some row -> pretty n = id -> selectable row = false) ->
  gone id (exec reconcileSessionsWithDatabase w).
Proof.
  intros Hacc Hs Hrows.
  rewrite (exec_eq _ _ _ _ (reconcile_eq w Hacc)).
  assert (Hin : id ∈ (map_to_list (sessions (mgr w))).*1).
  { apply list_elem_of_fmap. exists (id, s). split; [done|].
    by apply elem_of_map_to_list. }
  assert (Hout : id ∉ dbIds (store w)).
  { rewrite dbIds_listed. intros (n & row & Hrow & Hsel & Hid).
    rewrite (Hrows n row Hrow Hid) in Hsel. discriminate. }
  destruct (evictAll_evicts (dbIds (store w)) id _ (on_faults (drop 1) w) Hin Hout)
    as (G & _).
  unfold gone in *. fields. done.
Qed.
(** ** The shape of the states between two turns *)

(** *** Computations that keep a property *)

Lemma exec_bind {A B} (m : Js A) (k : A -> Js B) w :
  exec (bind m k) w =
  match m w with
  | (Normal a, w') => exec (k a) w'
  | (Abrupt _, w') => w'
  end.
Proof. unfold exec, bind. by destruct (m w) as [[a|e] w']. Qed.

Lemma exec_tryCatch {A} (m : Js A) h w :
  exec (tryCatch m h) w =
  match m w with
  | (Normal _, w') => w'
  | (Abrupt e, w') => exec (h e) w'
  end.
Proof. unfold exec, tryCatch. by destruct (m w) as [[a|e] w']. Qed.

Lemma preserves_ret I {A} (a : A) : preserves I (ret a).
Proof. by intros w. Qed.

Lemma preserves_throw I {A} e : preserves I (@throw A e).
Proof. by intros w. Qed.

Lemma preserves_gets I {A} (f : World -> A) : preserves I (gets f).
Proof. by intros w. Qed.

Lemma preserves_modify (I : World -> Prop) f :
  (forall w, I w -> I (f w)) -> preserves I (modify f).
Proof. intros H w. apply H. Qed.

Lemma preserves_bind I {A B} (m : Js A) (k : A -> Js B) :
  preserves I m -> (forall a, preserves I (k a)) -> preserves I (bind m k).
Proof.
  intros Hm Hk w Hw. rewrite exec_bind. specialize (Hm w Hw). unfold exec in Hm.
  destruct (m w) as [[a|e] w']; [by apply Hk|done].
Qed.

(** After [gets] the rest runs in the state that was read. *)
Lemma preserves_bind_gets (I : World -> Prop) {A B} (f : World -> A) (k : A -> Js B) :
  (forall w, I w -> I (exec (k (f w)) w)) -> preserves I (bind (gets f) k).
Proof. intros H w Hw. rewrite exec_bind. by apply H. Qed.

Lemma preserves_tryCatch I {A} (m : Js A) h :
  preserves I m -> (forall e, preserves I (h e)) -> preserves I (tryCatch m h).
Proof.
  intros Hm Hh w Hw. rewrite exec_tryCatch. specialize (Hm w Hw). unfold exec in Hm.
  destruct (m w) as [[a|e] w']; [done|by apply Hh].
Qed.

Lemma preserves_when I b m : preserves I m -> preserves I (when b m).
Proof. intros Hm. destruct b; [done|apply preserves_ret]. Qed.

Lemma preserves_forEach I {A} (l : list A) body :
  (forall x, preserves I (body x)) -> preserves I (forEach l body).
Proof.
  intros Hb. induction l as [|x l IH]; [apply preserves_ret|].
  cbn [forEach]. apply preserves_bind; [apply Hb|done].
Qed.
(** *** Updates that keep the shape *)

(** The shape is about the registry, the tokens, the timers, the retry
    counts and the heap, and about nothing else. *)
Lemma wf_frame w w' :
  sessions (mgr w') = sessions (mgr w) ->
  connectionPromises (mgr w') = connectionPromises (mgr w) ->
  pendingReconnects (mgr w') = pendingReconnects (mgr w) ->
  retryAttempts (mgr w') = retryAttempts (mgr w) ->
  socks w' = socks w -> cdata w' = cdata w -> promises w' = promises w ->
  timers w' = timers w -> waiters w' = waiters w -> opened w' = opened w ->
  wellFormed w -> wellFormed w'.
Proof.
  intros Hs Hc Hp Hr Hk Hd Hq Ht Hw Ho [].
  constructor; unfold connData in *; rewrite ?Hs, ?Hc, ?Hp, ?Hr, ?Hk, ?Hd, ?Hq, ?Ht, ?Hw, ?Ho;
    assumption.
Qed.

Ltac wf_same := eapply wf_frame; [..|eassumption]; reflexivity.

Lemma wf_socks_alter f s w :
  sameSocket f -> wellFormed w -> wellFormed (on_socks (alter f s) w).
Proof.
  intros Hf [].
  assert (Hlook : forall x sk', alter f s (socks w) !! x = Some sk' ->
            exists sk, socks w !! x = Some sk /\ s_id sk' = s_id sk /\
                       s_promise sk' = s_promise sk /\
                       s_connectionData sk' = s_connectionData sk).
  { intros x sk' Hx. destruct (decide (x = s)) as [->|Hne].
    - rewrite list_lookup_alter_eq in Hx.
      destruct (socks w !! s) as [sk|] eqn:E; [|done].
      injection Hx as <-. exists sk. split; [done|]. apply Hf.
    - rewrite list_lookup_alter_ne in Hx by done. by exists sk'. }
  constructor; fields; try assumption.
  - intros id x Hx. destruct (wf_registry0 id x Hx) as (sk & Hsk & Hid).
    destruct (decide (x = s)) as [->|Hne].
    + exists (f sk). rewrite list_lookup_alter_eq, Hsk. split; [done|].
      by rewrite (proj1 (Hf sk)).
    + exists sk. by rewrite list_lookup_alter_ne.
  - intros x sk' Hx. destruct (Hlook x sk' Hx) as (sk & Hsk & _ & Hp & Hc).
    rewrite Hp, Hc. by apply (wf_socks0 x).
  - intros x x' sk1 sk2 H1 H2 Heq.
    destruct (Hlook x sk1 H1) as (k1 & Hk1 & _ & Hp1 & _).
    destruct (Hlook x' sk2 H2) as (k2 & Hk2 & _ & Hp2 & _).
    apply (wf_distinct0 x x' k1 k2); congruence.
  - rewrite wf_opened0. apply list_eq. intros i.
    rewrite !list_lookup_fmap. destruct (decide (i = s)) as [->|Hne].
    + rewrite list_lookup_alter_eq. destruct (socks w !! s) as [sk|]; [|done].
      cbn. by rewrite (proj1 (Hf sk)).
    + by rewrite list_lookup_alter_ne.
Qed.

Lemma wf_sessions_delete id w :
  wellFormed w -> wellFormed (on_sessions (delete id) w).
Proof.
  intros []. constructor; fields; try assumption.
  intros i s Hs. apply lookup_delete_Some in Hs as [_ Hs]. by apply wf_registry0.
Qed.

Lemma wf_sessions_insert id s sk w :
  socks w !! s = Some sk -> s_id sk = id ->
  wellFormed w -> wellFormed (on_sessions (<[id := s]>) w).
Proof.
  intros Hsk Hid []. constructor; fields; try assumption.
  intros i x Hx. apply lookup_insert_Some in Hx as [[<- <-]|[_ Hx]]; [eauto|].
  by apply wf_registry0.
Qed.

Lemma wf_tokens_delete id w :
  wellFormed w -> wellFormed (on_connectionPromises (delete id) w).
Proof.
  intros []. constructor; fields; try assumption.
  intros i p Hp. apply lookup_delete_Some in Hp as [_ Hp]. by apply (wf_tokens0 i).
Qed.

Lemma wf_retries_delete id w :
  wellFormed w -> wellFormed (on_retryAttempts (delete id) w).
Proof.
  intros []. constructor; fields; try assumption.
  intros i n Hn. apply lookup_delete_Some in Hn as [_ Hn]. by apply (wf_retries0 i).
Qed.

Lemma wf_retries_insert id n w :
  (1 <= n <= maxRetryAttempts)%nat ->
  wellFormed w -> wellFormed (on_retryAttempts (<[id := n]>) w).
Proof.
  intros Hn []. constructor; fields; try assumption.
  intros i x Hx. apply lookup_insert_Some in Hx as [[_ <-]|[_ Hx]]; [done|].
  by apply (wf_retries0 i).
Qed.

Lemma wf_reconnects_delete id w :
  wellFormed w -> wellFormed (on_pendingReconnects (delete id) w).
Proof.
  intros []. constructor; fields; try assumption.
  intros i t Ht. apply lookup_delete_Some in Ht as [_ Ht]. by apply wf_reconnects0.
Qed.

Lemma wf_waiters_filter (P : Waiter -> Prop) `{forall x, Decision (P x)} w :
  wellFormed w -> wellFormed (on_waiters (filter P) w).
Proof.
  intros []. constructor; fields; try assumption.
  intros wt Hin. apply list_elem_of_filter in Hin as [_ Hin]. by apply wf_waiters0.
Qed.

Lemma wf_waiters_snoc wt w :
  (w_promise wt < length (promises w))%nat ->
  wellFormed w -> wellFormed (on_waiters (fun l => l ++ [wt]) w).
Proof.
  intros Hp []. constructor; fields; try assumption.
  intros x Hin. apply elem_of_app in Hin as [Hin|Hin]; [by apply wf_waiters0|].
  by apply list_elem_of_singleton in Hin as ->.
Qed.
(** A promise is settled, or gets its socket: the cell is there and does
    not go back to [Fetching]. *)
Lemma wf_promises_insert p v w :
  isFetching v = false ->
  wellFormed w -> wellFormed (on_promises (<[p := v]>) w).
Proof.
  intros Hv []. constructor; fields; rewrite ?length_insert; try assumption.
  - intros s sk Hsk. destruct (wf_socks0 s sk Hsk) as (Hc & pr & Hpr & Hf).
    split; [done|]. destruct (decide (s_promise sk = p)) as [Heq|Hne].
    + exists v. split; [|done]. rewrite Heq in *. apply list_lookup_insert_eq.
      by apply (lookup_lt_Some _ _ _ Hpr).
    + exists pr. by rewrite list_lookup_insert_ne.
  - intros q cdr cap Hq. destruct (decide (q = p)) as [->|Hne].
    + destruct (decide (p < length (promises w))%nat) as [Hlt|Hge].
      * rewrite list_lookup_insert_eq in Hq by done. injection Hq as ->. done.
      * rewrite lookup_ge_None_2 in Hq; [done|]. rewrite length_insert. lia.
    + rewrite list_lookup_insert_ne in Hq by done. by apply (wf_fetching0 q cdr cap).
Qed.

Lemma wf_settle p v w :
  isFetching v = false -> wellFormed w -> wellFormed (exec (settle p v) w).
Proof.
  intros Hv Hw. unfold settle. js.
  set (f := fun ps : list Promise => _).
  assert (Hcase : f (promises w) = promises w \/ f (promises w) = <[p := v]> (promises w)).
  { unfold f. destruct (promises w !! p) as [pr|]; [|by left].
    destruct (settled pr); [by left|by right]. }
  destruct Hcase as [Heq|Heq].
  - eapply wf_frame; [..|exact Hw]; try reflexivity. fields. exact Heq.
  - apply (wf_promises_insert p v w Hv) in Hw.
    eapply wf_frame; [..|exact Hw]; try reflexivity. fields. exact Heq.
Qed.

(** [createConnection]: a new promise for an attempt on data that exists. *)
Lemma wf_promises_snoc cdr captured w :
  (cdr < length (cdata w))%nat ->
  wellFormed w ->
  wellFormed (on_promises (fun l => l ++ [Fetching cdr captured]) w).
Proof.
  intros Hc []. constructor; fields; rewrite ?length_app; cbn [length];
    try assumption.
  - intros id p Hp. specialize (wf_tokens0 id p Hp). lia.
  - intros wt Hin. specialize (wf_waiters0 wt Hin). lia.
  - intros s sk Hsk. destruct (wf_socks0 s sk Hsk) as (Hd & pr & Hpr & Hf).
    split; [done|]. exists pr. split; [|done].
    rewrite lookup_app_l; [done|]. by apply (lookup_lt_Some _ _ _ Hpr).
  - intros q c cap Hq. apply lookup_app_Some in Hq as [Hq|[_ Hq]].
    + by apply (wf_fetching0 q c cap).
    + destruct (q - length (promises w))%nat; [|done]. cbn in Hq. by injection Hq as -> _.
Qed.

Lemma wf_token_new id p w :
  (p < length (promises w))%nat ->
  wellFormed w -> wellFormed (on_connectionPromises (<[id := p]>) w).
Proof.
  intros Hlen []. constructor; fields; try assumption.
  intros i q Hq. apply lookup_insert_Some in Hq as [[_ <-]|[_ Hq]]; [done|].
  by apply (wf_tokens0 i).
Qed.

(** [setTimeout] and the entry of [pendingReconnects] that names the timer. *)
Lemma wf_schedule id cdr delay w :
  cd_id (connData w cdr) = id -> (cdr < length (cdata w))%nat ->
  baseDelay <= delay <= maxDelay ->
  wellFormed w ->
  wellFormed (on_pendingReconnects (<[id := length (timers w)]>)
                (on_timers (fun l => l ++ [Some (mkTimer cdr delay)]) w)).
Proof.
  intros Hid Hc Hd []. constructor; fields; try assumption.
  - intros i t Ht. apply lookup_insert_Some in Ht as [[<- <-]|[_ Ht]].
    + exists (mkTimer cdr delay). split; [|done]. by apply list_lookup_middle.
    + destruct (wf_reconnects0 i t Ht) as (tm & Htm & Hi). exists tm. split; [|done].
      rewrite lookup_app_l; [done|]. by apply (lookup_lt_Some _ _ _ Htm).
  - intros t tm Ht. apply lookup_app_Some in Ht as [Ht|[_ Ht]].
    + by apply (wf_timers0 t).
    + destruct (t - length (timers w))%nat; [|done]. cbn in Ht. by injection Ht as <-.
Qed.

(** A timer goes, by [clearTimeout] or because it fires, together with the
    entry of the id it restarts. *)
Lemma wf_timer_gone t tm w :
  timers w !! t = Some (Some tm) ->
  wellFormed w ->
  wellFormed (on_pendingReconnects (delete (cd_id (connData w (t_connectionData tm))))
                (on_timers (<[t := None]>) w)).
Proof.
  intros Htm []. constructor; fields; rewrite ?length_insert; try assumption.
  - intros i x Hx. apply lookup_delete_Some in Hx as [Hne Hx].
    destruct (wf_reconnects0 i x Hx) as (tm' & Htm' & Hi).
    exists tm'. split; [|done].
    rewrite list_lookup_insert_ne; [done|]. intros <-. congruence.
  - intros x tm' Hx. destruct (decide (x = t)) as [->|Hne].
    + rewrite list_lookup_insert_eq in Hx; [done|]. by apply (lookup_lt_Some _ _ _ Htm).
    + rewrite list_lookup_insert_ne in Hx by done. by apply (wf_timers0 x).
Qed.

(** The [connectionData] objects: a new one, and [session] written. *)
Lemma wf_cdata_snoc d w :
  wellFormed w -> wellFormed (on_cdata (fun l => l ++ [d]) w).
Proof.
  intros [].
  assert (Hcd : forall r, (r < length (cdata w))%nat ->
            connData (on_cdata (fun l => l ++ [d]) w) r = connData w r).
  { intros r Hr. unfold connData. fields. by rewrite lookup_app_l. }
  constructor; fields; rewrite ?length_app; cbn [length]; try assumption.
  - intros i t Ht. destruct (wf_reconnects0 i t Ht) as (tm & Htm & Hi).
    exists tm. split; [done|]. rewrite Hcd; [done|]. by apply (wf_timers0 t).
  - intros t tm Ht. destruct (wf_timers0 t tm Ht). split; [done|lia].
  - intros s sk Hsk. destruct (wf_socks0 s sk Hsk). split; [lia|done].
  - intros p c cap Hp. specialize (wf_fetching0 p c cap Hp). lia.
Qed.

Lemma wf_cdata_alter g r w :
  (forall d, cd_id (g d) = cd_id d) ->
  wellFormed w -> wellFormed (on_cdata (alter g r) w).
Proof.
  intros Hg [].
  assert (Hcd : forall x, cd_id (connData (on_cdata (alter g r) w) x)
                          = cd_id (connData w x)).
  { intros x. unfold connData. fields. destruct (decide (x = r)) as [->|Hne].
    - rewrite list_lookup_alter_eq. destruct (cdata w !! r); [apply Hg|done].
    - by rewrite list_lookup_alter_ne. }
  constructor; fields; rewrite ?length_alter; try assumption.
  intros i t Ht. destruct (wf_reconnects0 i t Ht) as (tm & Htm & Hi).
  exists tm. split; [done|]. by rewrite Hcd.
Qed.

(** [makeWASocket]: the attempt whose version was fetched gets its socket. *)
Lemma wf_socket_new p cdr captured state w :
  promises w !! p = Some (Fetching cdr captured) ->
  wellFormed w ->
  wellFormed
    (on_promises (<[p := Negotiating (length (socks w))]>)
       (on_socks (fun l => l ++
            [mkSession (cd_id captured) (cd_name captured) (cd_companyId captured)
               CONNECTING None false state cdr p true false false None])
          (on_opened (fun l => l ++ [cd_id captured])
             (on_sessionStates (fun x => {[cd_id captured]} ∪ x) w)))).
Proof.
  intros Hp [].
  assert (Hlt : (p < length (promises w))%nat) by by apply (lookup_lt_Some _ _ _ Hp).
  assert (Hfresh : forall s sk, socks w !! s = Some sk -> s_promise sk <> p).
  { intros s sk Hsk Heq. destruct (wf_socks0 s sk Hsk) as (_ & pr & Hpr & Hf).
    rewrite Heq, Hp in Hpr. by injection Hpr as <-. }
  constructor; fields; rewrite ?length_insert; try assumption.
  - intros id s Hs. destruct (wf_registry0 id s Hs) as (sk & Hsk & Hid).
    exists sk. split; [|done]. rewrite lookup_app_l; [done|].
    by apply (lookup_lt_Some _ _ _ Hsk).
  - intros s sk Hsk. apply lookup_app_Some in Hsk as [Hsk|[_ Hsk]].
    + destruct (wf_socks0 s sk Hsk) as (Hc & pr & Hpr & Hf). split; [done|].
      exists pr. split; [|done]. rewrite list_lookup_insert_ne; [done|].
      intros Heq. by apply (Hfresh s sk Hsk).
    + destruct (s - length (socks w))%nat; [|done]. cbn in Hsk. injection Hsk as <-.
      cbn. split; [by apply (wf_fetching0 p cdr captured)|].
      exists (Negotiating (length (socks w))). split; [|done].
      by apply list_lookup_insert_eq.
  - intros q c cap Hq. destruct (decide (q = p)) as [->|Hne].
    + rewrite list_lookup_insert_eq in Hq by done. done.
    + rewrite list_lookup_insert_ne in Hq by done. by apply (wf_fetching0 q c cap).
  - intros s s' sk sk' H1 H2 Heq.
    apply lookup_app_Some in H1 as [H1|[G1 H1]];
      apply lookup_app_Some in H2 as [H2|[G2 H2]].
    + by apply (wf_distinct0 s s' sk sk').
    + destruct (s' - length (socks w))%nat; [|done]. cbn in H2. injection H2 as <-.
      cbn in Heq. by destruct (Hfresh s sk H1).
    + destruct (s - length (socks w))%nat; [|done]. cbn in H1. injection H1 as <-.
      cbn in Heq. by destruct (Hfresh s' sk' H2).
    + destruct (s - length (socks w))%nat eqn:E1; [|done].
      destruct (s' - length (socks w))%nat eqn:E2; [|done]. lia.
  - rewrite wf_opened0. by rewrite fmap_app.
Qed.
(** *** The heap only grows *)

Lemma grows_refl w : grows w w.
Proof. split; [done|]. intros s sk Hsk. by exists sk. Qed.

Lemma grows_frame w0 w w' :
  socks w' = socks w -> cdata w' = cdata w -> grows w0 w -> grows w0 w'.
Proof. unfold grows, sameAt. by intros -> ->. Qed.

Lemma grows_socks_alter f s w0 w :
  sameSocket f -> grows w0 w -> grows w0 (on_socks (alter f s) w).
Proof.
  intros Hf [Hc Hs]. split; [done|]. intros x sk Hx.
  destruct (Hs x sk Hx) as (sk' & Hsk' & Hi & Hp & Hd). unfold sameAt. fields.
  destruct (decide (x = s)) as [->|Hne].
  - exists (f sk'). rewrite list_lookup_alter_eq, Hsk'. split; [done|].
    destruct (Hf sk') as (-> & -> & ->). done.
  - exists sk'. by rewrite list_lookup_alter_ne.
Qed.

Lemma grows_socks_snoc sk w0 w :
  grows w0 w -> grows w0 (on_socks (fun l => l ++ [sk]) w).
Proof.
  intros [Hc Hs]. split; [done|]. intros x k Hx.
  destruct (Hs x k Hx) as (sk' & Hsk' & H). exists sk'. split; [|done]. fields.
  rewrite lookup_app_l; [done|]. by apply (lookup_lt_Some _ _ _ Hsk').
Qed.

Lemma grows_cdata_snoc d w0 w :
  grows w0 w -> grows w0 (on_cdata (fun l => l ++ [d]) w).
Proof. intros [Hc Hs]. split; [|done]. fields. rewrite length_app. lia. Qed.

Lemma grows_cdata_alter g r w0 w :
  grows w0 w -> grows w0 (on_cdata (alter g r) w).
Proof. intros [Hc Hs]. split; [|done]. fields. by rewrite length_alter. Qed.

(** An update that keeps the shape and leaves the heap alone. *)
Lemma inv_lift (f : World -> World) w0 w :
  (wellFormed w -> wellFormed (f w)) ->
  socks (f w) = socks w -> cdata (f w) = cdata w ->
  inv w0 w -> inv w0 (f w).
Proof.
  intros Hf Hs Hc [Hw Hg]. split; [by apply Hf|]. by apply (grows_frame w0 w).
Qed.

Lemma inv_blind (f : World -> World) w0 w :
  sessions (mgr (f w)) = sessions (mgr w) ->
  connectionPromises (mgr (f w)) = connectionPromises (mgr w) ->
  pendingReconnects (mgr (f w)) = pendingReconnects (mgr w) ->
  retryAttempts (mgr (f w)) = retryAttempts (mgr w) ->
  socks (f w) = socks w -> cdata (f w) = cdata w -> promises (f w) = promises w ->
  timers (f w) = timers w -> waiters (f w) = waiters w -> opened (f w) = opened w ->
  inv w0 w -> inv w0 (f w).
Proof.
  intros Hs Hc Hp Hr Hk Hd Hq Ht Hw Ho. apply inv_lift; [|done..].
  by apply wf_frame.
Qed.

Lemma inv_socks_alter f s w0 w :
  sameSocket f -> inv w0 w -> inv w0 (on_socks (alter f s) w).
Proof.
  intros Hf [Hw Hg]. split; [by apply wf_socks_alter|by apply grows_socks_alter].
Qed.

(** The socket that a handler closes over is registered under its id. *)
Lemma inv_register s sk w0 w :
  socks w0 !! s = Some sk -> inv w0 w -> inv w0 (on_sessions (<[s_id sk := s]>) w).
Proof.
  intros Hsk [Hw Hg]. pose proof Hg as [_ Hs].
  destruct (Hs s sk Hsk) as (sk' & Hsk' & Hi & _).
  apply inv_lift; [|done..|by split].
  by apply (wf_sessions_insert _ _ sk').
Qed.

(** The data that a socket of [w0] closes over exist. *)
Lemma inv_allocated s sk w0 w :
  socks w0 !! s = Some sk -> inv w0 w ->
  (s_connectionData sk < length (cdata w))%nat.
Proof.
  intros Hsk [Hw [_ Hs]]. destruct (Hs s sk Hsk) as (sk' & Hsk' & _ & _ & <-).
  by apply (wf_socks w Hw s sk').
Qed.

Lemma sameSocket_status v : sameSocket (sock_status v).
Proof. by intros sk. Qed.

Lemma sameSocket_qrCode v : sameSocket (sock_qrCode v).
Proof. by intros sk. Qed.

Lemma sameSocket_user v : sameSocket (sock_user v).
Proof. by intros sk. Qed.

Lemma sameSocket_auth v : sameSocket (sock_auth v).
Proof. by intros sk. Qed.

Lemma sameSocket_listening v : sameSocket (sock_listening v).
Proof. by intros sk. Qed.

Lemma sameSocket_ended v : sameSocket (sock_ended v).
Proof. by intros sk. Qed.

Lemma sameSocket_loggedOut v : sameSocket (sock_loggedOut v).
Proof. by intros sk. Qed.

Create HintDb inv.

#[local] Hint Resolve sameSocket_status sameSocket_qrCode sameSocket_user
  sameSocket_auth sameSocket_listening sameSocket_ended sameSocket_loggedOut : inv.

(** *** The primitives keep the shape *)

Lemma updateSock_inv w0 s f : sameSocket f -> preserves (inv w0) (updateSock s f).
Proof. intros Hf w Hw. by apply inv_socks_alter. Qed.

Lemma emit_inv w0 e : preserves (inv w0) (emit e).
Proof. intros w Hw. by apply (inv_blind (on_emitted _)). Qed.

Lemma query_inv w0 f : preserves (inv w0) (query f).
Proof.
  intros w Hw. unfold exec, query.
  destruct (head (faults w)) as [[msg|]|]; cbn [snd].
  - by apply (inv_blind (on_faults _)).
  - by apply (inv_blind (fun w => on_store f (on_faults (drop 1) w))).
  - by apply (inv_blind (fun w => on_store f (on_faults (drop 1) w))).
Qed.

Lemma fetchAll_inv w0 : preserves (inv w0) fetchAll.
Proof.
  intros w Hw. unfold exec, fetchAll.
  destruct (head (faults w)) as [[msg|]|]; cbn [snd];
    by apply (inv_blind (on_faults _)).
Qed.

Lemma settle_inv w0 p v : isFetching v = false -> preserves (inv w0) (settle p v).
Proof.
  intros Hv w [Hw Hg]. split; [by apply wf_settle|].
  apply (grows_frame w0 w); [| |done]; unfold settle; js; by fields.
Qed.

Lemma removeSession_inv w0 id : preserves (inv w0) (removeSession id).
Proof. intros w. apply inv_lift; [apply wf_sessions_delete|done..]. Qed.

Lemma forget_token_inv w0 id :
  preserves (inv w0) (modify (on_connectionPromises (delete id))).
Proof. intros w. apply inv_lift; [apply wf_tokens_delete|done..]. Qed.

Lemma forget_retries_inv w0 id :
  preserves (inv w0) (modify (on_retryAttempts (delete id))).
Proof. intros w. apply inv_lift; [apply wf_retries_delete|done..]. Qed.

Lemma forget_session_inv w0 id :
  preserves (inv w0) (modify (on_sessions (delete id))).
Proof. intros w. apply inv_lift; [apply wf_sessions_delete|done..]. Qed.

Lemma forget_reconnect_inv w0 id :
  preserves (inv w0) (modify (on_pendingReconnects (delete id))).
Proof. intros w. apply inv_lift; [apply wf_reconnects_delete|done..]. Qed.

Lemma deletedSessions_inv w0 f : preserves (inv w0) (modify (on_deletedSessions f)).
Proof. intros w Hw. by apply (inv_blind (on_deletedSessions f)). Qed.

Lemma sessionStates_inv w0 f : preserves (inv w0) (modify (on_sessionStates f)).
Proof. intros w Hw. by apply (inv_blind (on_sessionStates f)). Qed.

Lemma returned_inv w0 f : preserves (inv w0) (modify (on_returned f)).
Proof. intros w Hw. by apply (inv_blind (on_returned f)). Qed.

Lemma register_inv w0 s sk :
  socks w0 !! s = Some sk -> preserves (inv w0) (modify (on_sessions (<[s_id sk := s]>))).
Proof. intros Hsk w. by apply inv_register. Qed.

#[local] Hint Resolve updateSock_inv emit_inv query_inv fetchAll_inv settle_inv
  removeSession_inv forget_token_inv forget_retries_inv forget_session_inv
  forget_reconnect_inv deletedSessions_inv sessionStates_inv returned_inv
  register_inv preserves_ret preserves_throw preserves_gets : inv.

(** One constructor of a computation at a time. *)
Ltac keep :=
  repeat lazymatch goal with
    | |- preserves _ (ret _) => apply preserves_ret
    | |- preserves _ (throw _) => apply preserves_throw
    | |- preserves _ (gets _) => apply preserves_gets
    | |- preserves _ (bind _ _) => apply preserves_bind; [|intros ?]
    | |- preserves _ (tryCatch _ _) => apply preserves_tryCatch; [|intros ?]
    | |- preserves _ (when _ _) => apply preserves_when
    | |- preserves _ (forEach _ _) => apply preserves_forEach; intros ?
    end.
(** *** The operations keep the shape *)

Lemma endSocket_inv w0 s : preserves (inv w0) (endSocket s).
Proof.
  unfold endSocket. keep; [auto with inv|]. destruct (_ ≫= _); auto with inv.
Qed.

Lemma logout_inv w0 s : preserves (inv w0) (logout s).
Proof. unfold logout. keep. destruct (_ ≫= _); auto with inv. Qed.

Lemma deleteAuthState_inv w0 id : preserves (inv w0) (deleteAuthState id).
Proof. unfold deleteAuthState. keep; auto with inv. Qed.

Lemma enhancedSaveState_inv w0 s : preserves (inv w0) (enhancedSaveState s).
Proof. unfold enhancedSaveState. keep. destruct a; auto with inv. Qed.

Lemma rememberSession_inv w0 s : preserves (inv w0) (rememberSession s).
Proof.
  unfold rememberSession. keep. destruct a as [sk|]; [|auto with inv].
  intros w [Hw Hg]. split; [by apply wf_cdata_alter|by apply grows_cdata_alter].
Qed.

Lemma onCredsUpdate_inv w0 s : preserves (inv w0) (onCredsUpdate s).
Proof.
  unfold onCredsUpdate. keep;
    [apply enhancedSaveState_inv|apply rememberSession_inv].
Qed.

(** [clearTimeout] of the timer recorded for an id, and the entry with it. *)
Lemma cancel_inv w0 id {A} (rest : Js A) :
  preserves (inv w0) rest ->
  preserves (inv w0)
    (do pendingTimeout <- gets (fun w => pendingReconnects (mgr w) !! id);
     run match pendingTimeout with
         | Some t =>
             run clearTimeout t;
             modify (on_pendingReconnects (delete id))
         | None => ret tt
         end;
     rest).
Proof.
  intros Hrest. apply preserves_bind_gets. intros w Hw.
  destruct (pendingReconnects (mgr w) !! id) as [t|] eqn:Ht.
  - rewrite exec_bind.
    change ((run clearTimeout t; modify (on_pendingReconnects (delete id))) w)
      with (Normal tt, on_pendingReconnects (delete id) (on_timers (<[t := None]>) w)).
    apply Hrest. destruct Hw as [Hw Hg].
    destruct (wf_reconnects w Hw id t Ht) as (tm & Htm & Hid).
    split; [|by apply (grows_frame w0 w)].
    rewrite <- Hid. by apply wf_timer_gone.
  - rewrite exec_bind. by apply Hrest.
Qed.

Lemma cleanupSession_inv w0 id : preserves (inv w0) (cleanupSession id).
Proof.
  unfold cleanupSession. apply preserves_tryCatch; [|intros ?; keep].
  apply preserves_bind; [keep|intros session].
  apply preserves_bind.
  { destruct session; keep; auto using endSocket_inv with inv. }
  intros _. apply preserves_bind; [auto with inv|intros _].
  apply preserves_bind; [auto with inv|intros _].
  apply preserves_bind; [auto with inv|intros _].
  apply cancel_inv. auto with inv.
Qed.

Lemma deleteSession_inv w0 id : preserves (inv w0) (deleteSession id).
Proof.
  unfold deleteSession. apply preserves_tryCatch; [|intros ?; keep].
  apply preserves_bind; [auto with inv|intros _].
  apply cancel_inv.
  keep; auto using cleanupSession_inv with inv.
Qed.

Lemma disconnectSession_inv w0 id : preserves (inv w0) (disconnectSession id).
Proof.
  unfold disconnectSession. keep.
  destruct a; keep; auto using logout_inv, deleteAuthState_inv.
Qed.

Lemma deliver_inv w0 o id r : preserves (inv w0) (deliver o id r).
Proof. unfold deliver. destruct o; keep; auto with inv. Qed.

Lemma resumeStartConnection_inv w0 wt outcome :
  preserves (inv w0) (resumeStartConnection wt outcome).
Proof.
  unfold resumeStartConnection. keep; [auto with inv|].
  destruct outcome; keep; auto using deliver_inv.
Qed.

Lemma drain_inv w0 : preserves (inv w0) drain.
Proof.
  unfold drain. keep.
  - intros w. apply inv_lift; [apply wf_waiters_filter; apply _|done..].
  - apply resumeStartConnection_inv.
Qed.
Lemma backoffDelay_floor n : baseDelay <= backoffDelay n.
Proof.
  unfold backoffDelay, baseDelay, maxDelay.
  assert (1 <= 2 ^ Z.of_nat n) by (apply Z.pow_le_mono_r with (b := 0); lia).
  lia.
Qed.

(** [handleStreamRestart] on data that exist. *)
Lemma handleStreamRestart_inv w0 cdr w :
  (cdr < length (cdata w))%nat -> inv w0 w -> inv w0 (exec (handleStreamRestart cdr) w).
Proof.
  intros Hc Hw.
  set (id := cd_id (connData w cdr)).
  set (n := default 0%nat (retryAttempts (mgr w) !! id)).
  destruct (decide (n < maxRetryAttempts)%nat) as [Hn|Hn].
  - rewrite (exec_eq _ _ _ _ (handleStreamRestart_schedules w cdr Hn)).
    fold id n. destruct Hw as [Hw Hg].
    split; [|by apply (grows_frame w0 w)].
    apply (wf_schedule id cdr (backoffDelay n) (on_retryAttempts (<[id := S n]>) w));
      [done|done| |].
    + split; [apply backoffDelay_floor|apply backoffDelay_capped].
    + apply wf_retries_insert; [lia|done].
  - assert (Hge : (maxRetryAttempts <= n)%nat) by lia.
    rewrite (exec_eq _ _ _ _ (handleStreamRestart_gives_up w cdr Hge)).
    fold id. apply preserves_tryCatch; [apply query_inv|intros ?; keep|].
    by apply forget_retries_inv.
Qed.

(** [startConnection] on data that exist. *)
Lemma startConnection_inv w0 o cdr w :
  (cdr < length (cdata w))%nat -> inv w0 w -> inv w0 (exec (startConnection o cdr) w).
Proof.
  intros Hc Hw.
  rewrite (exec_eq _ _ _ _ (startConnection_eq w o cdr)).
  set (id := cd_id (connData w cdr)).
  assert (H0 : inv w0 (forgetDeleted id w)).
  { unfold forgetDeleted. destruct (bool_decide _); [|done].
    by apply (inv_blind (on_deletedSessions _)). }
  assert (Hq : promises (forgetDeleted id w) = promises w)
    by apply forgetDeleted_fields.
  assert (Hk : cdata (forgetDeleted id w) = cdata w) by apply forgetDeleted_fields.
  destruct (connected w id); [by apply deliver_inv|].
  destruct (connectionPromises (mgr w) !! id) as [p|] eqn:Hp.
  - apply (inv_lift (on_waiters _) w0 (forgetDeleted id w)); [|done..].
    apply wf_waiters_snoc. cbn [w_promise].
    rewrite Hq. destruct Hw as [Hw _]. by apply (wf_tokens w Hw id).
  - set (w1 := on_promises _ _).
    assert (H1 : inv w0 w1).
    { apply (inv_lift (on_promises _) w0 (forgetDeleted id w)); [|done..].
      apply wf_promises_snoc. by rewrite Hk. }
    assert (Hlen : (length (promises w) < length (promises w1))%nat).
    { unfold w1. fields. rewrite Hq, length_app. cbn. lia. }
    apply (inv_lift (on_waiters _) w0 (on_connectionPromises _ w1)); [|done..|].
    { by apply wf_waiters_snoc. }
    apply (inv_lift (on_connectionPromises _) w0 w1); [|done..].
    by apply wf_token_new.
Qed.

(** The rest of [createConnection]. *)
Lemma versionFetched_inv w0 p answer : preserves (inv w0) (versionFetched p answer).
Proof.
  unfold versionFetched. apply preserves_bind_gets. intros w Hw.
  destruct (promises w !! p) as [[cdr captured| | |]|] eqn:Hp; try done.
  destruct answer as [error|].
  - by apply settle_inv.
  - pose proof (versionFetched_eq w p cdr captured Hp) as Heq.
    unfold versionFetched in Heq. rewrite bind_gets, Hp in Heq.
    rewrite (exec_eq _ _ _ _ Heq). destruct Hw as [Hw Hg]. split.
    + by apply wf_socket_new.
    + apply (grows_frame w0 (on_socks (fun l => l ++
             [mkSession (cd_id captured) (cd_name captured) (cd_companyId captured)
                CONNECTING None false
                (getAuthState (length (socks w)) (cd_session captured))
                cdr p true false false None]) w)); [done|done|].
      by apply grows_socks_snoc.
Qed.
(** The listeners of a socket of the state in which the turn began. *)
Lemma onClose_inv w0 s sk u :
  socks w0 !! s = Some sk -> preserves (inv w0) (onClose s sk u).
Proof.
  intros Hsk. unfold onClose.
  apply preserves_bind; [auto with inv|intros _].
  apply preserves_bind; [auto with inv|intros _].
  destruct (noRestart (lastDisconnect u)).
  - keep; auto with inv.
  - keep; auto with inv.
    intros w Hw. apply handleStreamRestart_inv; [|done].
    by apply (inv_allocated s sk w0).
Qed.

Lemma onOpen_inv w0 s sk :
  socks w0 !! s = Some sk -> preserves (inv w0) (onOpen s sk).
Proof. intros Hsk. unfold onOpen. keep; auto with inv. Qed.

Lemma onQr_inv w0 s sk payload :
  socks w0 !! s = Some sk -> preserves (inv w0) (onQr s sk payload).
Proof. intros Hsk. unfold onQr. keep; auto with inv. Qed.

Lemma exec_bind_gets {A B} (f : World -> A) (k : A -> Js B) w :
  exec (bind (gets f) k) w = exec (k (f w)) w.
Proof. done. Qed.

Lemma exec_bind_modify {B} f (k : unit -> Js B) w :
  exec (bind (modify f) k) w = exec (k tt) (f w).
Proof. done. Qed.

Lemma onConnectionUpdate_inv s u w :
  inv w w -> inv w (exec (onConnectionUpdate s u) w).
Proof.
  intros Hw. unfold onConnectionUpdate. rewrite exec_bind_gets.
  destruct (socks w !! s) as [sk|] eqn:Hsk; [|done].
  match goal with |- inv _ (exec ?m _) => assert (Hbody : preserves (inv w) m) end;
    [|by apply Hbody].
  apply preserves_bind.
  - apply preserves_when. keep;
      [apply enhancedSaveState_inv|apply rememberSession_inv].
  - intros _. apply preserves_bind.
    + destruct (isClose u); [by apply onClose_inv|keep].
    + intros [|]; keep; [by apply onOpen_inv|].
      destruct (qr u); [by apply onQr_inv|keep].
Qed.
Lemma grows_trans w0 w1 w2 : grows w0 w1 -> grows w1 w2 -> grows w0 w2.
Proof.
  intros [Hc1 Hs1] [Hc2 Hs2]. split; [lia|]. intros s sk Hsk.
  destruct (Hs1 s sk Hsk) as (sk1 & Hsk1 & Hi1 & Hp1 & Hd1).
  destruct (Hs2 s sk1 Hsk1) as (sk2 & Hsk2 & Hi2 & Hp2 & Hd2).
  exists sk2. split; [done|]. split; [congruence|]. split; congruence.
Qed.

Lemma reconcile_inv w0 : preserves (inv w0) reconcileSessionsWithDatabase.
Proof.
  unfold reconcileSessionsWithDatabase.
  apply preserves_tryCatch; [|intros ?; keep].
  apply preserves_bind; [apply fetchAll_inv|intros dbConnections]. cbv zeta.
  keep; auto using deleteSession_inv with inv.
Qed.

(** The callback of a timer that fires. *)
Lemma timerFired_inv t w :
  inv w w -> inv w (exec (dispatch (TimerFired t)) w).
Proof.
  intros Hw. cbn [dispatch]. rewrite exec_bind_gets.
  destruct (timers w !! t) as [[tm|]|] eqn:Ht; try done.
  rewrite exec_bind_modify. unfold restartCallback. rewrite exec_bind_gets.
  set (cdr := t_connectionData tm).
  set (w1 := on_timers (<[t := None]>) w).
  assert (Hid : cd_id (connData w1 cdr) = cd_id (connData w cdr)) by done.
  rewrite Hid. set (id := cd_id (connData w cdr)).
  assert (Hc : (cdr < length (cdata w))%nat).
  { destruct Hw as [Hw _]. by apply (wf_timers w Hw t tm). }
  set (rest := (run cleanupSession id;
                run modify (on_connectionPromises (delete id));
                startConnection Restart cdr)).
  set (handler := fun _ : Thrown => handleStreamRestart cdr).
  set (w2 := on_pendingReconnects (delete id) w1).
  change (inv w (exec (tryCatch rest handler) w2)).
  assert (H2 : inv w2 w2).
  { split; [|apply grows_refl]. destruct Hw as [Hw _].
    by apply (wf_timer_gone t tm w Ht Hw). }
  assert (Hrest : preserves (inv w2) (tryCatch rest handler)).
  { apply preserves_tryCatch.
    - unfold rest. keep; auto using cleanupSession_inv with inv.
      intros w' Hw'. apply startConnection_inv; [|done].
      destruct Hw' as [_ [Hlen _]]. unfold w2, w1 in Hlen. revert Hlen. fields. lia.
    - intros e. unfold handler. intros w' Hw'. apply handleStreamRestart_inv; [|done].
      destruct Hw' as [_ [Hlen _]]. unfold w2, w1 in Hlen. revert Hlen. fields. lia. }
  destruct (Hrest w2 H2) as [Hwf Hg]. split; [done|].
  apply (grows_trans w w2); [|done].
  apply (grows_frame w w); [done|done|apply grows_refl].
Qed.

(** What a turn does before the promise reactions keeps the shape. *)
Lemma dispatch_inv e w : inv w w -> inv w (exec (dispatch e) w).
Proof.
  intros Hw. destruct e as [call data|p answer|s u|s state|s present|t|id|id| |row].
  - cbn [dispatch]. rewrite exec_bind_gets, exec_bind_modify.
    apply startConnection_inv.
    + fields. rewrite length_app. cbn. lia.
    + destruct Hw as [Hw Hg]. split; [by apply wf_cdata_snoc|by apply grows_cdata_snoc].
  - by apply versionFetched_inv.
  - cbn [dispatch]. rewrite exec_bind_gets.
    destruct (listening w s); [by apply onConnectionUpdate_inv|done].
  - assert (H : preserves (inv w) (dispatch (CredsUpdate s state))); [|by apply H].
    cbn [dispatch]. keep; [auto with inv|apply onCredsUpdate_inv].
  - by apply updateSock_inv; [apply sameSocket_user|].
  - by apply timerFired_inv.
  - assert (H : preserves (inv w) (dispatch (CallDeleteSession id))); [|by apply H].
    cbn [dispatch]. keep. apply deleteSession_inv.
  - assert (H : preserves (inv w) (dispatch (CallDisconnectSession id))); [|by apply H].
    cbn [dispatch]. keep. apply disconnectSession_inv.
  - by apply reconcile_inv.
  - by apply (inv_blind (on_store (delete row))).
Qed.

(** A turn keeps the shape. *)
Lemma step_wellFormed e w : wellFormed w -> wellFormed (step e w).
Proof.
  intros Hw. unfold step.
  assert (H : inv w w) by (split; [done|apply grows_refl]).
  by destruct (drain_inv w _ (dispatch_inv e w H)).
Qed.

Lemma initialWorld_wellFormed d answers : wellFormed (initialWorld d answers).
Proof.
  constructor; unfold initialWorld, emptyManager; fields; try done.
  - intros wt Hin. by apply elem_of_nil in Hin.
Qed.

Lemma runEvents_wellFormed es : forall w, wellFormed w -> wellFormed (runEvents es w).
Proof.
  induction es as [|e es IH]; intros w Hw; [done|].
  cbn [runEvents foldl]. apply IH. by apply step_wellFormed.
Qed.
(** *** What holds in every state of the service *)

Lemma reachable_wellFormed w : reachable w -> wellFormed w.
Proof.
  intros (d & answers & es & ->).
  apply runEvents_wellFormed, initialWorld_wellFormed.
Qed.

(** The session that is registered under an id is a socket that was made
    for that id. *)
Theorem registry_coherent w id s :
  reachable w -> sessions (mgr w) !! id = Some s ->
  exists sk, socks w !! s = Some sk /\ s_id sk = id.
Proof. intros Hw. by apply wf_registry, reachable_wellFormed. Qed.

(** The timer that [pendingReconnects] records for an id has neither fired
    nor been cleared, its callback restarts that id, and [deleteSession]
    of the id clears it. *)
Theorem tracked_timer_live w id t :
  reachable w -> pendingReconnects (mgr w) !! id = Some t ->
  (exists tm, timers w !! t = Some (Some tm) /\
              cd_id (connData w (t_connectionData tm)) = id) /\
  timers (exec (deleteSession id) w) !! t = Some None.
Proof.
  intros Hw Ht. apply reachable_wellFormed in Hw.
  destruct (wf_reconnects w Hw id t Ht) as (tm & Htm & Hid).
  split; [by exists tm|].
  rewrite deleteSession_exec. fields. unfold cancelled. rewrite Ht.
  apply list_lookup_insert_eq. by apply (lookup_lt_Some _ _ _ Htm).
Qed.

(** A stored retry count is between 1 and 5, and a timer that is pending
    has a delay between 2000 and 30000 ms. *)
Theorem backoff_bounded w :
  reachable w ->
  (forall id n, retryAttempts (mgr w) !! id = Some n -> (1 <= n <= 5)%nat) /\
  (forall t tm, timers w !! t = Some (Some tm) -> 2000 <= t_delay tm <= 30000).
Proof.
  intros Hw. apply reachable_wellFormed in Hw. split.
  - apply (wf_retries w Hw).
  - intros t tm Ht. by apply (wf_timers w Hw t tm).
Qed.

(** [makeWASocket] is called once for each socket, and no two sockets
    belong to one attempt: an attempt opens at most one transport. *)
Theorem one_transport_per_attempt w :
  reachable w ->
  opened w = s_id <$> socks w /\
  (forall s s' sk sk', socks w !! s = Some sk -> socks w !! s' = Some sk' ->
                       s_promise sk = s_promise sk' -> s = s') /\
  (length (opened w) <= length (promises w))%nat.
Proof.
  intros Hw. apply reachable_wellFormed in Hw.
  split; [apply (wf_opened w Hw)|]. split; [apply (wf_distinct w Hw)|].
  rewrite (wf_opened w Hw), length_fmap.
  assert (Hsub : (s_promise <$> socks w) ⊆+ seq 0 (length (promises w))).
  2:{ apply submseteq_length in Hsub. by rewrite length_fmap, length_seq in Hsub. }
  apply NoDup_submseteq.
  - apply NoDup_alt. intros i j p Hi Hj.
    rewrite list_lookup_fmap in Hi, Hj.
    destruct (socks w !! i) as [sk|] eqn:Ei; [|done].
    destruct (socks w !! j) as [sk'|] eqn:Ej; [|done].
    cbn in Hi, Hj. apply (wf_distinct w Hw i j sk sk' Ei Ej). congruence.
  - intros p Hp. apply list_elem_of_fmap in Hp as (sk & -> & Hsk).
    apply list_elem_of_lookup in Hsk as [s Hs].
    destruct (wf_socks w Hw s sk Hs) as (_ & pr & Hpr & _).
    apply elem_of_seq. split; [lia|]. cbn. by apply (lookup_lt_Some _ _ _ Hpr).
Qed.

(** The promise reactions leave the promises and the suspended calls that
    they do not resume. *)
Lemma resume_frame ps ws wt outcome :
  preserves (fun w => promises w = ps /\ waiters w = ws)
            (resumeStartConnection wt outcome).
Proof.
  unfold resumeStartConnection. keep.
  - by intros w.
  - destruct outcome; keep; unfold deliver;
      destruct (w_origin wt); keep; by intros w.
Qed.

Lemma drain_frame w :
  promises (exec drain w) = promises w /\
  waiters (exec drain w) = filter (fun wt => ready w wt = false) (waiters w).
Proof.
  unfold drain. rewrite exec_bind_gets, exec_bind_modify.
  set (w1 := on_waiters _ w).
  apply (preserves_forEach (fun w' => promises w' = promises w /\
                                      waiters w' = waiters w1)); [|done].
  intros wt. keep. apply resume_frame.
Qed.

(** After the reactions every suspended call waits for a promise that is
    pending. *)
Lemma drain_settles w : wellFormed w -> quiescent (exec drain w).
Proof.
  intros Hw wt Hin. destruct (drain_frame w) as [Hp Hws].
  rewrite Hws in Hin. apply list_elem_of_filter in Hin as [Hr Hin].
  pose proof (wf_waiters w Hw wt Hin) as Hlt.
  apply lookup_lt_is_Some in Hlt as [pr Hpr].
  exists pr. rewrite Hp. split; [done|]. unfold ready in Hr. by rewrite Hpr in Hr.
Qed.

(** *** Taking a computation apart *)

(** Unfolds the operations down to the primitives and takes the
    computation apart; [leaf] is left with updates of the state. *)
Ltac unfold_ops :=
  unfold dispatch, restartCallback, reconcileSessionsWithDatabase,
    onConnectionUpdate, onCredsUpdate, onClose, onOpen, onQr,
    enhancedSaveState, rememberSession, versionFetched, startConnection,
    resumeStartConnection, createConnection, deliver, handleStreamRestart,
    deleteSession, disconnectSession, cleanupSession, deleteAuthState,
    endSocket, logout, removeSession, updateSock, emit, settle, await,
    clearTimeout.

Ltac frames leaf :=
  repeat first
    [ progress keep
    | lazymatch goal with
      | |- preserves _ (match ?x with _ => _ end) => destruct x
      | |- preserves _ (let _ := _ in _) => cbv zeta
      | |- preserves _ (modify _) => fail
      | |- preserves _ (query _) => fail
      | |- preserves _ fetchAll => fail
      | |- preserves _ (setTimeout _) => fail
      | |- preserves _ (fun _ => _) => fail
      | |- preserves _ _ => progress unfold_ops
      end ];
  leaf.

(** ** The key store of [getAuthState] *)

Lemma KEY_MAP_unlisted t : t ∉ signalTypes -> KEY_MAP t = "undefined".
Proof.
  clear. intros Hn. unfold KEY_MAP.
  repeat match goal with
         | |- context [String.eqb t ?s] =>
             destruct (String.eqb_spec t s) as [->|_];
             [exfalso; apply Hn; unfold signalTypes; among|]
         end.
  done.
Qed.

Lemma KEY_MAP_listed t t' : t ∈ signalTypes -> KEY_MAP t' = KEY_MAP t -> t' = t.
Proof.
  clear. intros Ht Heq. destruct (decide (t' ∈ signalTypes)) as [Ht'|Ht'].
  - unfold signalTypes in Ht, Ht'. rewrite !elem_of_cons, elem_of_nil in Ht, Ht'.
    destruct Ht as [->|[->|[->|[->|[->|[->|[->|[->|[->|[]]]]]]]]]];
      destruct Ht' as [->|[->|[->|[->|[->|[->|[->|[->|[->|[]]]]]]]]]];
      first [reflexivity | discriminate Heq].
  - rewrite (KEY_MAP_unlisted t' Ht') in Heq.
    unfold signalTypes in Ht. rewrite !elem_of_cons, elem_of_nil in Ht.
    destruct Ht as [->|[->|[->|[->|[->|[->|[->|[->|[->|[]]]]]]]]]];
      discriminate Heq.
Qed.

(** The category of a listed type after [keys.set(data)]. *)
Lemma assignKeys_category t data keys :
  t ∈ signalTypes ->
  assignKeys data keys !! KEY_MAP t =
  match data !! t with
  | Some d => Some (d ∪ default ∅ (keys !! KEY_MAP t))
  | None => keys !! KEY_MAP t
  end.
Proof.
  clear. intros Ht. unfold assignKeys.
  apply (map_fold_weak_ind
           (fun r m => r !! KEY_MAP t =
                       match m !! t with
                       | Some d => Some (d ∪ default ∅ (keys !! KEY_MAP t))
                       | None => keys !! KEY_MAP t
                       end)).
  - by rewrite lookup_empty.
  - intros i x m r Hi IH. destruct (decide (i = t)) as [->|Hne].
    + rewrite !lookup_insert_eq. rewrite Hi in IH. by rewrite IH.
    + rewrite (lookup_insert_ne m i t) by done.
      rewrite lookup_insert_ne; [done|].
      intros Heq. apply Hne. by apply KEY_MAP_listed.
Qed.

Lemma keysGet_lookup create t ids keys (id : string) :
  keysGet create t ids keys !! id =
  if decide (id ∈ ids) then filed keys t id ≫= asRead create t else None.
Proof.
  clear. unfold keysGet. fold (filed keys t).
  set (f := fun (dict : gmap string string) (id : string) => _).
  assert (Hx : forall acc x, f acc x !! id =
            if decide (id = x)
            then match filed keys t id ≫= asRead create t with
                 | Some v => Some v
                 | None => acc !! id
                 end
            else acc !! id).
  { intros acc x. unfold f, asRead. destruct (decide (id = x)) as [->|Hne].
    - destruct (filed keys t x) as [v|]; [|done]. cbn.
      destruct (String.eqb v ""); [done|]. by rewrite lookup_insert_eq.
    - destruct (filed keys t x) as [v|]; [|done].
      destruct (String.eqb v ""); [done|]. by rewrite lookup_insert_ne. }
  assert (H : forall acc, foldl f acc ids !! id =
            if decide (id ∈ ids)
            then match filed keys t id ≫= asRead create t with
                 | Some v => Some v
                 | None => acc !! id
                 end
            else acc !! id).
  { induction ids as [|x ids IH]; intros acc.
    { destruct (decide (id ∈ [])) as [Hc|]; [by apply elem_of_nil in Hc|done]. }
    cbn [foldl]. rewrite IH, Hx.
    destruct (decide (id ∈ x :: ids)) as [Hc|Hc];
      destruct (decide (id ∈ ids)) as [Hin|Hin];
      destruct (decide (id = x)) as [Heq|Hne];
      try (exfalso; apply Hc; apply elem_of_cons; by auto);
      try (apply elem_of_cons in Hc as [?|?]; done);
      by destruct (filed keys t id ≫= asRead create t). }
  rewrite H. destruct (decide (id ∈ ids)); [|done].
  by destruct (filed keys t id ≫= _).
Qed.

(** [keys.set] and then [keys.get], the types and the ids being no names
    inherited from [Object.prototype].  For a type that [KEY_MAP] lists:
    what was set under the type is read back, a falsy value hides the id,
    the ids that were not set read as before, and so does every other
    listed type.  Types that [KEY_MAP] does not list, and that are no
    inherited names, are all filed under ["undefined"], so that they read
    each other's values. *)
Theorem keys_set_get create t data keys ids :
  inherited t = false -> forallb (fun id => negb (inherited id)) ids = true ->
  ownNames data = true ->
  (t ∈ signalTypes ->
   forall d id, data !! t = Some d -> id ∈ ids ->
     keysGet create t ids (assignKeys data keys) !! id =
     match d !! id with
     | Some value => asRead create t value
     | None => keysGet create t ids keys !! id
     end) /\
  (t ∈ signalTypes -> data !! t = None ->
   keysGet create t ids (assignKeys data keys) = keysGet create t ids keys) /\
  (forall t', t ∉ signalTypes -> t' ∉ signalTypes -> inherited t' = false ->
   keysGet create t ids keys = keysGet create t' ids keys).
Proof.
  clear. intros _ _ _. split; [|split].
  - intros Ht d id Hd Hin. rewrite !keysGet_lookup, !decide_True by done.
    unfold filed. rewrite (assignKeys_category t data keys Ht), Hd. cbn.
    rewrite lookup_union. destruct (d !! id) as [v|]; [|].
    + by destruct (default ∅ (keys !! KEY_MAP t) !! id).
    + destruct (keys !! KEY_MAP t) as [c|]; cbn.
      * by destruct (c !! id).
      * by rewrite lookup_empty.
  - intros Ht Hd. apply map_eq. intros id. rewrite !keysGet_lookup. unfold filed.
    by rewrite (assignKeys_category t data keys Ht), Hd.
  - intros t' Ht Ht' _. apply map_eq. intros id. rewrite !keysGet_lookup.
    unfold filed.
    rewrite (KEY_MAP_unlisted t Ht), (KEY_MAP_unlisted t' Ht').
    destruct (decide (id ∈ ids)); [|done].
    destruct (_ !! "undefined" ≫= _) as [v|]; [|done]. cbn. unfold asRead.
    assert (Hs : forall x, x ∉ signalTypes -> String.eqb x "app-state-sync-key" = false).
    { intros x Hx. destruct (String.eqb_spec x "app-state-sync-key") as [->|]; [|done].
      exfalso. apply Hx. unfold signalTypes. among. }
    by rewrite (Hs t Ht), (Hs t' Ht').
Qed.
(** ** Credentials in the store *)

Lemma saveStep_nan e c :
  parseInt (sessionId c) = None ->
  db (saveStep e c) = db c /\ sessionId (saveStep e c) = sessionId c.
Proof.
  intros Hn. destruct e as [u|d|ok]; cbn [saveStep].
  - unfold saveState. cbn. by destruct (saveInProgress c).
  - unfold keysSet, saveState. cbn. by destruct (saveInProgress c).
  - unfold writeAnswered. destruct (inflight c); [done|].
    destruct ok; [|done]. cbn. rewrite Hn. cbn.
    unfold saveState. cbn. by destruct (pendingSave c).
Qed.

Lemma saveRun_nan es c :
  parseInt (sessionId c) = None -> db (saveRun es c) = db c.
Proof.
  intros Hn. induction es as [|e es IH] using rev_ind; [done|].
  rewrite saveRun_snoc.
  destruct (saveStep_nan e (saveRun es c)) as [Hd _];
    [by rewrite saveRun_sessionId|].
  by rewrite Hd.
Qed.

(** What a session finds when it is started again from its row.  After
    save requests that have settled, the store having accepted the
    writes, [getAuthState] on the stored blob gives the credentials and
    keys of the last request back, provided the codec reads what it wrote.
    A session whose id [parseInt] does not read has nothing stored. *)
Theorem credentials_survive_restart id c0 k0 db0 es :
  let c := saveRun es (freshClosure id c0 k0 db0) in
  let d := dataAfter es (c0, k0) in
  (forall n row m,
     parseInt id = Some n -> db0 !! n = Some row ->
     forallb succeeds es = true -> existsb isRequest es = true ->
     inflight c = [] ->
     stringify d.1 d.2 <> "" -> parseSession (stringify d.1 d.2) = Some d ->
     exists row', db c !! n = Some row' /\
       getAuthState m (row_session row') = d) /\
  (parseInt id = None -> db c = db0).
Proof.
  intros c d. split.
  - intros n row m Hn Hrow Hok Hreq Hin Hne Hcodec.
    pose proof (settling_run id c0 k0 db0 es Hok) as (_ & _ & _ & Hs).
    fold c in Hs.
    assert (Hcoh : coherent c) by (apply saveRun_coherent; done).
    unfold coherent in Hcoh.
    destruct (saveInProgress c).
    { destruct Hcoh as [blob Hb]. by rewrite Hb in Hin. }
    destruct Hs as (_ & _ & Hdb). rewrite Hreq, Hn in Hdb. fold d in Hdb.
    exists (setSession (stringify d.1 d.2) row). split.
    + rewrite Hdb. unfold updateWhatsappSession, updateWhere.
      by rewrite lookup_alter_eq, Hrow.
    + cbn. unfold getAuthState.
      destruct (String.eqb_spec (stringify d.1 d.2) ""); [done|].
      by rewrite Hcodec.
  - intros Hn. apply saveRun_nan. exact Hn.
Qed.

Lemma getWhatsappConnection_eq k w :
  accepting 1 w = true ->
  getWhatsappConnection k w =
  (Normal (k ≫= fun n => store w !! n), on_faults (drop 1) w).
Proof.
  unfold getWhatsappConnection, accepting. by destruct (faults w) as [|[msg|] rest].
Qed.

(** [exportSession] returns a value whatever the store does, and changes
    nothing but the store's queue of answers. *)
Lemma exportSession_eq id w :
  exists v, exportSession id w = (Normal v, on_faults (drop 1) w) /\
    (accepting 1 w = true ->
     v = match (parseInt id ≫= fun n : Z => store w !! n) ≫= row_session with
         | Some session => if String.eqb session "" then None else Some session
         | None => None
         end).
Proof.
  unfold exportSession, exportAuthState, tryCatch, bind, getWhatsappConnection,
    accepting, ret.
  destruct (faults w) as [|[msg|] rest]; cbn; eauto.
  eexists. split; [done|]. intros H. discriminate H.
Qed.

Lemma disconnectSession_registered w id s :
  sessions (mgr w) !! id = Some s ->
  disconnectSession id w =
  match socks w !! s ≫= s_faulty with
  | Some e => (Normal false, w)
  | None =>
      (Normal true,
       on_store (if accepting 1 w
                 then updateWhatsappSession (parseInt id) ""
                 else fun st => st)
         (on_faults (drop 1) (on_socks (alter (sock_loggedOut true) s) w)))
  end.
Proof.
  intros Hs. unfold disconnectSession. unfold tryCatch at 1.
  rewrite bind_gets, Hs.
  assert (Hl : logout s w =
               match socks w !! s ≫= s_faulty with
               | Some e => (Abrupt e, w)
               | None => (Normal tt, on_socks (alter (sock_loggedOut true) s) w)
               end).
  { unfold logout. rewrite bind_gets. by destruct (socks w !! s ≫= s_faulty). }
  unfold bind at 1. rewrite Hl.
  destruct (socks w !! s ≫= s_faulty) as [e|]; [done|].
  unfold deleteAuthState. rewrite (bind_normal _ _ _ _ _ (tryQuery_eq _ _)).
  done.
Qed.

(** ** The rows of the store *)

Lemma dom_updateWhere f k (db : Store) : dom (updateWhere f k db) = dom db.
Proof. clear. destruct k as [n|]; [apply dom_alter_L|done]. Qed.

Lemma dom_updateWhatsappStatus k st qr (db : Store) :
  dom (updateWhatsappStatus k st qr db) = dom db.
Proof. clear. destruct qr; apply dom_updateWhere. Qed.

Lemma query_rows (D : gset Z) f :
  (forall db, dom (f db) = dom db) -> preserves (fun w => dom (store w) = D) (query f).
Proof.
  intros Hf w Hw. unfold exec, query.
  destruct (head (faults w)) as [[msg|]|]; fields; by rewrite ?Hf.
Qed.

Ltac rows_leaf :=
  first
    [ apply query_rows; intros db;
      first [apply dom_updateWhatsappStatus | apply dom_updateWhere]
    | by intros w Hw; unfold exec, fetchAll; destruct (head (faults w)) as [[msg|]|]
    | by intros w Hw
    | by apply preserves_modify; intros w Hw ].

Lemma dispatch_rows (D : gset Z) e :
  deletedRows [e] = ∅ -> preserves (fun w => dom (store w) = D) (dispatch e).
Proof.
  intros He. destruct e.
  10:{ assert (Hin : row ∈ (∅ : gset Z)).
       { rewrite <- He. unfold deletedRows. cbn.
         by apply elem_of_union_l, elem_of_singleton. }
       by apply not_elem_of_empty in Hin. }
  all: frames rows_leaf.
Qed.

Lemma drain_rows (D : gset Z) : preserves (fun w => dom (store w) = D) drain.
Proof. unfold drain. frames rows_leaf. Qed.

(** The service writes to rows that exist and to no others: whatever
    happens, the rows of the store are the rows it started with, less the
    ones deleted from outside.  A session whose id has no row has nothing
    stored. *)
Theorem rows_never_created d answers es :
  dom (store (runEvents es (initialWorld d answers))) = dom d ∖ deletedRows es.
Proof.
  induction es as [|e es IH] using rev_ind.
  - unfold deletedRows. cbn. by rewrite difference_empty_L.
  - rewrite runEvents_snoc. unfold step.
    rewrite (drain_rows _ _ eq_refl).
    assert (Hsplit : deletedRows (es ++ [e]) = deletedRows es ∪ deletedRows [e]).
    { unfold deletedRows. rewrite omap_app, list_to_set_app_L. done. }
    rewrite Hsplit.
    destruct (decide (deletedRows [e] = ∅)) as [He|He].
    + by rewrite (dispatch_rows _ e He _ eq_refl), IH, He, union_empty_r_L.
    + destruct e; try (exfalso; apply He; reflexivity).
      unfold dispatch, exec, modify. fields. rewrite dom_delete_L, IH.
      unfold deletedRows at 2. cbn.
      by rewrite union_empty_r_L, difference_difference_l_L.
Qed.
(** ** No exception leaves a listener *)

Lemma completes_ret {A} (a : A) : completes (ret a).
Proof. intros w. by exists a. Qed.

Lemma completes_gets {A} (f : World -> A) : completes (gets f).
Proof. intros w. by exists (f w). Qed.

Lemma completes_modify f : completes (modify f).
Proof. intros w. by exists tt. Qed.

Lemma completes_bind {A B} (m : Js A) (k : A -> Js B) :
  completes m -> (forall a, completes (k a)) -> completes (bind m k).
Proof.
  intros Hm Hk w. destruct (Hm w) as [a Ha]. unfold bind.
  destruct (m w) as [[a'|e] w']; [apply Hk|discriminate Ha].
Qed.

(** What the body of a [try] throws is caught. *)
Lemma completes_tryCatch {A} (m : Js A) h :
  (forall e, completes (h e)) -> completes (tryCatch m h).
Proof.
  intros Hh w. unfold tryCatch. destruct (m w) as [[a|e] w']; [by exists a|apply Hh].
Qed.

Lemma completes_when b m : completes m -> completes (when b m).
Proof. intros Hm. destruct b; [done|apply completes_ret]. Qed.

Lemma completes_forEach {A} (l : list A) body :
  (forall x, completes (body x)) -> completes (forEach l body).
Proof.
  intros Hb. induction l as [|x l IH]; [apply completes_ret|].
  cbn [forEach]. apply completes_bind; [apply Hb|done].
Qed.

Ltac returns :=
  repeat lazymatch goal with
    | |- completes (ret _) => apply completes_ret
    | |- completes (gets _) => apply completes_gets
    | |- completes (modify _) => apply completes_modify
    | |- completes (bind _ _) => apply completes_bind; [|intros ?]
    | |- completes (tryCatch _ _) => apply completes_tryCatch; intros ?
    | |- completes (when _ _) => apply completes_when
    | |- completes (forEach _ _) => apply completes_forEach; intros ?
    | |- completes (match ?x with _ => _ end) => destruct x eqn:?
    | |- completes (let _ := _ in _) => cbv zeta
    | |- completes (setTimeout _) => intros w; by eexists
    | |- completes (fun _ => _) => intros w; by eexists
    | |- completes (query _) => fail
    | |- completes (throw _) => fail
    | |- completes fetchAll => fail
    | |- completes _ => progress unfold_ops
    end.

Lemma drain_completes : completes drain.
Proof. unfold drain. returns. Qed.

(** The listener of ['connection.update'] returns unless the connection
    closed for a reason that ends the session. *)
Lemma onConnectionUpdate_completes s u :
  isClose u && noRestart (lastDisconnect u) = false ->
  completes (onConnectionUpdate s u).
Proof.
  intros Hu. returns.
  all: discriminate Hu.
Qed.

Lemma dispatch_completes e :
  (forall s u, e = ConnectionUpdate s u ->
     isClose u && noRestart (lastDisconnect u) = false) ->
  completes (dispatch e).
Proof.
  intros He. destruct e as [| |s u| | | | | | |].
  3:{ unfold dispatch. apply completes_bind; [apply completes_gets|intros on].
      apply completes_when, onConnectionUpdate_completes.
      exact (He s u eq_refl). }
  all: returns.
Qed.

(** When it closed for such a reason, the listener's statement to the store
    is outside every [try]. *)
Lemma terminal_close_outcome s u w :
  listening w s = true -> isClose u = true ->
  noRestart (lastDisconnect u) = true ->
  (dispatch (ConnectionUpdate s u) w).1 =
  match head (faults w) with
  | Some (Some msg) => Abrupt (ErrorOf msg)
  | _ => Normal tt
  end.
Proof.
  intros Hl Hc Ht. unfold dispatch, listening in *. js. rewrite Hl.
  destruct (socks w !! s) as [sk|] eqn:Hsk; [|discriminate Hl].
  unfold onConnectionUpdate, onClose. js. rewrite Hsk.
  assert (Ho : isOpen u = false).
  { unfold isOpen, isClose in *. by destruct (connection u) as [[]|]. }
  rewrite Ho, Hc, andb_false_r. fields. rewrite Ht.
  unfold query. fields.
  destruct (head (faults w)) as [[msg|]|]; fields; try done.
  all: by destruct (qr u).
Qed.

(** The turns of [dispatch] are a [startConnection], a [deleteSession] or
    a [disconnectSession] called by the gateway, the answer to the version
    fetch, the listeners of ['connection.update'] and ['creds.update'],
    the callback of a restart timer and a reconciliation pass.  No
    exception leaves one of them or a promise reaction, with one
    exception: when a connection closes for a reason that ends the session
    and the store refuses the status update, the store's error leaves the
    listener of ['connection.update']. *)
Theorem listeners_return e w :
  (drain w).1 = Normal tt /\
  (forall err, (dispatch e w).1 = Abrupt err ->
     exists s u msg, e = ConnectionUpdate s u /\ listening w s = true /\
       isClose u = true /\ noRestart (lastDisconnect u) = true /\
       head (faults w) = Some (Some msg) /\ err = ErrorOf msg) /\
  (forall s u msg, e = ConnectionUpdate s u -> listening w s = true ->
     isClose u = true -> noRestart (lastDisconnect u) = true ->
     head (faults w) = Some (Some msg) ->
     (dispatch e w).1 = Abrupt (ErrorOf msg)).
Proof.
  split; [|split].
  - destruct (drain_completes w) as [[] H]. exact H.
  - intros err Herr.
    destruct e as [| |s u| | | | | | |];
      try (match type of Herr with (dispatch ?e w).1 = _ =>
             destruct (dispatch_completes e ltac:(intros ? ? [=]) w) as [a Ha] end;
           rewrite Ha in Herr; discriminate Herr).
    destruct (isClose u && noRestart (lastDisconnect u)) eqn:Hu.
    + apply andb_true_iff in Hu as [Hc Ht].
      destruct (listening w s) eqn:Hl.
      * rewrite (terminal_close_outcome s u w Hl Hc Ht) in Herr.
        destruct (head (faults w)) as [[msg|]|] eqn:Hf; try discriminate Herr.
        injection Herr as <-. by exists s, u, msg.
      * unfold dispatch in Herr. revert Herr. js. by rewrite Hl.
    + destruct (dispatch_completes (ConnectionUpdate s u)
                  ltac:(by intros ? ? [= <- <-]) w) as [a Ha].
      rewrite Ha in Herr. discriminate Herr.
  - intros s u msg -> Hl Hc Ht Hf.
    by rewrite (terminal_close_outcome s u w Hl Hc Ht), Hf.
Qed.
(** ** [shutdown] *)

Lemma cleanupSession_exec id w :
  exec (cleanupSession id) w =
  mkWorld
    (mkManager (delete id (sessions (mgr w)))
               (delete id (connectionPromises (mgr w)))
               (deletedSessions (mgr w))
               (delete id (pendingReconnects (mgr w)))
               (delete id (retryAttempts (mgr w)))
               (sessionStates (mgr w) ∖ {[id]}))
    (released id w) (cdata w) (promises w) (cancelled id w) (waiters w)
    (store w) (faults w) (emitted w) (returned w) (opened w) (sent w).
Proof. unfold exec. by rewrite cleanupSession_spec. Qed.

Lemma forEach_cleanup ids : forall w,
  forEach ids (fun sessionId =>
    tryCatch (cleanupSession sessionId) (fun _ => ret tt)) w
  = (Normal tt, cleanAll ids w).
Proof.
  induction ids as [|id ids IH]; intros w; cbn [forEach cleanAll foldl]; [done|].
  assert (Hb : tryCatch (cleanupSession id) (fun _ => ret tt) w
               = (Normal tt, exec (cleanupSession id) w)).
  { apply tryCatch_normal. unfold exec. by rewrite cleanupSession_spec. }
  rewrite (bind_normal _ _ _ _ _ Hb). apply IH.
Qed.

Lemma shutdown_eq sv :
  shutdown sv =
  mkService (cleanAll (map_to_list (sessions (mgr (sv_world sv)))).*1 (sv_world sv))
            false.
Proof.
  unfold shutdown. f_equal. rewrite exec_bind_gets.
  unfold exec. by rewrite forEach_cleanup.
Qed.

Lemma cleanAll_preserves (P : World -> Prop) :
  (forall x w, P w -> P (exec (cleanupSession x) w)) ->
  forall ids w, P w -> P (cleanAll ids w).
Proof.
  intros HP ids. induction ids as [|x ids IH]; intros w Hw; [done|].
  cbn [cleanAll foldl]. apply IH. auto.
Qed.

Lemma cleanupSession_keeps_tornDown x w s :
  tornDown w s -> tornDown (exec (cleanupSession x) w) s.
Proof.
  intros H. rewrite cleanupSession_exec. unfold tornDown. fields.
  by apply released_keeps.
Qed.

(** What the calls do to an id of the list. *)
Lemma cleanAll_cleans id ids : forall w,
  id ∈ ids ->
  sessions (mgr (cleanAll ids w)) !! id = None /\
  (forall s, sessions (mgr w) !! id = Some s -> is_Some (socks w !! s) ->
             tornDown (cleanAll ids w) s).
Proof.
  induction ids as [|x ids IH]; intros w Hin; [by apply elem_of_nil in Hin|].
  change (cleanAll (x :: ids) w) with (cleanAll ids (exec (cleanupSession x) w)).
  destruct (decide (x = id)) as [->|Hne].
  - split.
    + apply (cleanAll_preserves (fun w => sessions (mgr w) !! id = None)).
      * intros x w0 H. rewrite cleanupSession_exec. fields.
        by apply delete_keeps_none.
      * rewrite cleanupSession_exec. fields. apply lookup_delete_eq.
    + intros s Hs [sk Hsk].
      apply (cleanAll_preserves (fun w => tornDown w s)).
      * intros; by apply cleanupSession_keeps_tornDown.
      * rewrite cleanupSession_exec. unfold tornDown. fields.
        unfold released. rewrite Hs, !list_lookup_alter_eq, Hsk. cbn. eauto.
  - apply elem_of_cons in Hin as [->|Hin]; [done|].
    destruct (IH (exec (cleanupSession x) w) Hin) as [G S].
    split; [done|]. intros s Hs Hsk. apply S.
    + rewrite cleanupSession_exec. fields. by rewrite lookup_delete_ne.
    + rewrite cleanupSession_exec. fields. by apply released_is_Some.
Qed.

(** And what they leave alone: the entries of the other ids, and the
    timers that none of the ids tracks. *)
Lemma cleanAll_keeps id ids : forall w,
  id ∉ ids -> entries (cleanAll ids w) id = entries w id.
Proof.
  induction ids as [|x ids IH]; intros w Hout; [done|].
  change (cleanAll (x :: ids) w) with (cleanAll ids (exec (cleanupSession x) w)).
  apply not_elem_of_cons in Hout as [Hne Hout].
  rewrite IH by done. rewrite cleanupSession_exec. unfold entries. fields.
  by rewrite !lookup_delete_ne.
Qed.

Lemma cleanAll_timers t ids : forall w,
  (forall x t', x ∈ ids -> pendingReconnects (mgr w) !! x = Some t' -> t' <> t) ->
  timers (cleanAll ids w) !! t = timers w !! t /\ cdata (cleanAll ids w) = cdata w.
Proof.
  induction ids as [|x ids IH]; intros w Hd; [done|].
  change (cleanAll (x :: ids) w) with (cleanAll ids (exec (cleanupSession x) w)).
  destruct (IH (exec (cleanupSession x) w)) as [Ht Hc].
  - intros x' t' Hin Hp. rewrite cleanupSession_exec in Hp. cbn in Hp.
    apply lookup_delete_Some in Hp as [_ Hp].
    apply (Hd x' t'); [by apply elem_of_cons; right|done].
  - rewrite Ht, Hc, cleanupSession_exec. fields. split; [|done].
    unfold cancelled. destruct (pendingReconnects (mgr w) !! x) as [t'|] eqn:Hp; [|done].
    apply list_lookup_insert_ne. apply (Hd x t'); [by apply elem_of_cons; left|done].
Qed.

(** [shutdown] clears the interval, empties the registry and ends the
    sockets that were registered.  What the manager holds under an id that
    is not registered it leaves alone: the restart timer of a session that
    lost its connection stays pending, with its retry count and its
    attempt, and will start the session again. *)
Theorem shutdown_leaves_restarts sv :
  reachable (sv_world sv) ->
  let w := sv_world sv in
  let w' := sv_world (shutdown sv) in
  reconciliationTimer (shutdown sv) = false /\
  sessions (mgr w') = ∅ /\
  (forall id s, sessions (mgr w) !! id = Some s -> tornDown w' s) /\
  (forall id t, sessions (mgr w) !! id = None ->
     pendingReconnects (mgr w) !! id = Some t ->
     entries w' id = entries w id /\
     exists tm, timers w' !! t = Some (Some tm) /\
                cd_id (connData w' (t_connectionData tm)) = id).
Proof.
  intros Hr w w'. apply reachable_wellFormed in Hr. fold w in Hr.
  unfold w'. rewrite shutdown_eq. cbn [sv_world reconciliationTimer]. fold w.
  set (ids := (map_to_list (sessions (mgr w))).*1).
  assert (Hids : forall id, id ∈ ids <-> is_Some (sessions (mgr w) !! id)).
  { intros id. unfold ids. rewrite list_elem_of_fmap. split.
    - intros ([id' s] & -> & Hin). apply elem_of_map_to_list in Hin. by exists s.
    - intros [s Hs]. exists (id, s). split; [done|]. by apply elem_of_map_to_list. }
  split; [done|]. split; [|split].
  - apply map_empty. intros id.
    destruct (sessions (mgr w) !! id) as [s|] eqn:Hs.
    + apply (cleanAll_cleans id ids w). apply Hids. by exists s.
    + apply (cleanAll_preserves (fun w => sessions (mgr w) !! id = None)); [|done].
      intros x w0 H. rewrite cleanupSession_exec. fields. by apply delete_keeps_none.
  - intros id s Hs. apply (cleanAll_cleans id ids w).
    + apply Hids. by exists s.
    + done.
    + destruct (wf_registry w Hr id s Hs) as (sk & Hsk & _). by exists sk.
  - intros id t Hs Ht.
    assert (Hout : id ∉ ids).
    { intros Hin. apply Hids in Hin as [s Hin]. by rewrite Hs in Hin. }
    split; [by apply cleanAll_keeps|].
    destruct (wf_reconnects w Hr id t Ht) as (tm & Htm & Hid).
    destruct (cleanAll_timers t ids w) as [Heq Hcd].
    + intros x t' Hin Hp ->.
      destruct (wf_reconnects w Hr x t Hp) as (tm' & Htm' & Hid').
      rewrite Htm in Htm'. injection Htm' as <-. rewrite Hid in Hid'. by subst x.
    + exists tm. rewrite Heq. split; [done|]. unfold connData. by rewrite Hcd.
Qed.
(** ** The media pipeline *)

Ltac ios :=
  cbv beta iota zeta delta
    [io_bind io_ret io_throw io_try io_lift now writeFileSync readFileSync
     existsSync unlinkSync on_disk].

(** *** What is accepted as media *)

Lemma isBase64_empty s : isBase64 s = false -> truthyString s = true.
Proof. clear. by destruct s. Qed.

Lemma media_shape data type :
  match processMediaForBaileys data type with
  | Normal (Some buffer) => buffer <> [] /\ truthyMedia data = true
  | Normal None => truthyMedia data = false
  | Abrupt e =>
      e = ErrorOf ("Invalid " +:+ type +:+ " data format") /\ truthyMedia data = true
  end.
Proof.
  clear. unfold processMediaForBaileys.
  destruct (truthyMedia data) eqn:Ht; cbn [negb]; [|done].
  destruct data as [s|b|d url|t]; cbn.
  - destruct (isBase64 s); cbn; [|done].
    by destruct (fromBase64 s).
  - by destruct b.
  - destruct d as [s|b|t]; cbn.
    + destruct (truthyString s); cbn; [|done]. by destruct (fromBase64 s).
    + by destruct b.
    + by destruct t.
  - done.
Qed.

(** [processMediaForBaileys] gives a buffer that is not empty, or [null]
    for a falsy value, or throws ["Invalid <type> data format"] whatever
    the cause.  A string is decoded only when it is written in the base64
    alphabet; the string of a [{ data: ... }] object is decoded without
    that test. *)
Theorem media_validation data type :
  match processMediaForBaileys data type with
  | Normal (Some buffer) => buffer <> [] /\ truthyMedia data = true
  | Normal None => truthyMedia data = false
  | Abrupt e =>
      e = ErrorOf ("Invalid " +:+ type +:+ " data format") /\ truthyMedia data = true
  end /\
  (forall s, data = MString s -> isBase64 s = false ->
     processMediaForBaileys data type =
     Abrupt (ErrorOf ("Invalid " +:+ type +:+ " data format"))) /\
  (forall s url, data = MObject (IString s) url -> s <> "" -> fromBase64 s <> [] ->
     processMediaForBaileys data type = Normal (Some (fromBase64 s))).
Proof.
  clear. split; [|split].
  - apply media_shape.
  - intros s -> Hs. unfold processMediaForBaileys. cbn.
    by rewrite (isBase64_empty s Hs), Hs.
  - intros s url -> Hs Hb. unfold processMediaForBaileys. cbn.
    assert (Ht : truthyString s = true).
    { unfold truthyString. by destruct (String.eqb_spec s ""). }
    rewrite Ht. cbn. by destruct (fromBase64 s).
Qed.
(** *** Paths of temporary files *)

Lemma prefix_app s x : String.prefix s (s +:+ x) = true.
Proof.
  clear. induction s as [|a s IH]; [by destruct x|].
  change (String a s +:+ x) with (String a (s +:+ x)). cbn.
  by destruct (Ascii.ascii_dec a a).
Qed.

Lemma includes_join name : includes (join tmpdir name) tmpdir = true.
Proof.
  unfold join. pose proof (prefix_app tmpdir ("/" +:+ name)) as H.
  revert H. generalize (tmpdir +:+ "/" +:+ name). intros s H.
  destruct s; cbn [includes]; by rewrite H.
Qed.

Lemma lastChar_app s u : u <> "" -> lastChar (s +:+ u) = lastChar u.
Proof.
  clear. intros Hu. induction s as [|a s IH]; [done|].
  change (String a s +:+ u) with (String a (s +:+ u)). cbn [lastChar].
  rewrite IH. destruct (s +:+ u) eqn:E; [|done].
  destruct s as [|b s].
  - change ("" +:+ u) with u in E. by subst u.
  - change (String b s +:+ u) with (String b (s +:+ u)) in E. discriminate E.
Qed.

Lemma join_inj dir a b : join dir a = join dir b -> a = b.
Proof.
  clear. unfold join. intros H.
  apply (String.app_inj dir) in H. by apply (String.app_inj "/") in H.
Qed.

(** The input of a conversion and its output are different files. *)
Lemma input_not_output (pre x y ext : string) :
  lastChar ext <> lastChar ".tmp" -> ext <> "" ->
  join tmpdir (pre +:+ x +:+ ".tmp") <> join tmpdir (y +:+ ext).
Proof.
  intros Hl He H. apply join_inj in H.
  apply (f_equal lastChar) in H.
  rewrite !lastChar_app in H by (done || by destruct x).
  by rewrite H in Hl.
Qed.

(** *** The converters of audioUtils.ts *)

Lemma env_eta e : mkEnv (disk e) (clock e) = e.
Proof. clear. by destruct e. Qed.

Lemma cleanupTempFile_eq path e :
  includes path tmpdir = true ->
  cleanupTempFile path e = (Normal tt, on_disk (delete path) e).
Proof.
  intros Hi. unfold cleanupTempFile. ios. rewrite Hi, andb_true_r.
  case_bool_decide as Hex; [done|].
  f_equal. rewrite delete_id; [by rewrite env_eta|].
  by apply eq_None_not_Some.
Qed.

Lemma converted_eq profile ext input e buffer converted :
  includes input tmpdir = true -> disk e !! input = Some buffer ->
  ffmpeg profile (Some buffer) = inl converted ->
  let output := join tmpdir (pretty (default 0 (head (clock e))) +:+ ext) in
  (io t <- now;
   let output := join tmpdir (pretty t +:+ ext) in
   io _ <- execFfmpeg profile input output;
   io there <- existsSync input;
   io _ <- (if there && includes input tmpdir then unlinkSync input else io_ret tt);
   io_ret output) e
  = (Normal output,
     mkEnv (delete input (<[output := converted]> (disk e))) (tail (clock e))).
Proof.
  intros Hi Hin Hf output. ios. unfold execFfmpeg. cbn [disk clock].
  rewrite Hin, Hf. ios. cbn [disk clock]. fold output. rewrite Hi, andb_true_r.
  rewrite bool_decide_eq_true_2; [done|].
  destruct (decide (output = input)) as [->|Hne].
  - rewrite lookup_insert_eq. by eexists.
  - rewrite lookup_insert_ne by done. by eexists.
Qed.

Lemma refused_eq profile ext input e msg :
  ffmpeg profile (disk e !! input) = inr msg ->
  (io t <- now;
   let output := join tmpdir (pretty t +:+ ext) in
   io _ <- execFfmpeg profile input output;
   io there <- existsSync input;
   io _ <- (if there && includes input tmpdir then unlinkSync input else io_ret tt);
   io_ret output) e
  = (Abrupt (ErrorOf msg), mkEnv (disk e) (tail (clock e))).
Proof.
  intros Hf. ios. unfold execFfmpeg. cbn [disk clock]. by rewrite Hf.
Qed.

(** *** [MediaProcessor.processAudio] *)

Lemma processAudio_eq audioData message e :
  let t1 := default 0 (head (clock e)) in
  let t2 := default 0 (head (tail (clock e))) in
  let input := join tmpdir ("input_" +:+ pretty t1 +:+ ".tmp") in
  let output := join tmpdir (pretty t2 +:+ ".ogg") in
  let isPtt := voiceNote message in
  MediaProcessor_processAudio audioData message e =
  match processMediaForBaileys audioData "audio" with
  | Normal (Some buffer) =>
      match ffmpeg (if isPtt then VoiceNote else RegularAudio) (Some buffer) with
      | inl converted =>
          (Normal (mkMediaResult true
                     (mkMessage None None (Some (MBuffer converted)) None None
                        (Some isPtt) (Some "audio/ogg; codecs=opus") None None
                        None ∅)
                     None),
           mkEnv (delete output (delete input (disk e))) (tail (tail (clock e))))
      | inr msg =>
          (Normal (mkMediaResult false emptyMessage (Some msg)),
           mkEnv (<[input := buffer]> (disk e)) (tail (tail (clock e))))
      end
  | _ =>
      (Normal (mkMediaResult false emptyMessage (Some "Invalid audio data format")),
       e)
  end.
Proof.
  intros t1 t2 input output isPtt. unfold MediaProcessor_processAudio.
  pose proof (media_shape audioData "audio") as Hshape.
  destruct (processMediaForBaileys audioData "audio") as [[buffer|]|err] eqn:Hp.
  2:{ unfold io_try, io_bind, io_lift, io_ret. done. }
  2:{ destruct Hshape as [-> _]. reflexivity. }
  fold (voiceNote message). fold isPtt.
  set (e1 := mkEnv (<[input := buffer]> (disk e)) (tail (clock e))).
  assert (Hin : disk e1 !! input = Some buffer) by apply lookup_insert_eq.
  assert (Hi : includes input tmpdir = true) by apply includes_join.
  assert (Hne : input <> output).
  { apply (input_not_output "input_" (pretty t1) (pretty t2) ".ogg"); by cbn. }
  destruct (ffmpeg (if isPtt then VoiceNote else RegularAudio) (Some buffer))
    as [converted|msg] eqn:Hf.
  - assert (Hc : (if isPtt then processAudio input else processAudioFile input) e1
               = (Normal output,
                  mkEnv (delete input (<[output := converted]> (disk e1)))
                        (tail (clock e1)))).
    { destruct isPtt; apply (converted_eq _ ".ogg" input e1 buffer converted Hi Hin Hf). }
    unfold io_try at 1. unfold io_bind at 1. unfold io_lift. cbn beta iota.
    unfold io_bind at 1. unfold now at 1. cbn beta iota. fold t1. fold input.
    unfold io_bind at 1. unfold writeFileSync at 1. cbn beta iota.
    unfold on_disk. cbn [disk clock]. fold e1.
    unfold io_bind at 1. rewrite Hc.
    unfold io_bind at 1, readFileSync at 1. cbn [disk clock].
    rewrite lookup_delete_ne, lookup_insert_eq by done.
    unfold io_bind at 1. rewrite cleanupTempFile_eq by apply includes_join.
    unfold io_ret, on_disk. cbn [disk clock]. f_equal. f_equal.
    apply map_eq. intros p. unfold e1. cbn [disk].
    destruct (decide (p = output)) as [->|Ho]; [by rewrite !lookup_delete_eq|].
    rewrite !(lookup_delete_ne _ output p) by done.
    destruct (decide (p = input)) as [->|Hi']; [by rewrite !lookup_delete_eq|].
    by rewrite !(lookup_delete_ne _ input p), !lookup_insert_ne by done.
  - assert (Hc : (if isPtt then processAudio input else processAudioFile input) e1
               = (Abrupt (ErrorOf msg), mkEnv (disk e1) (tail (clock e1)))).
    { destruct isPtt; apply (refused_eq _ ".ogg" input e1 msg); by rewrite Hin. }
    unfold io_try at 1. unfold io_bind at 1. unfold io_lift. cbn beta iota.
    unfold io_bind at 1. unfold now at 1. cbn beta iota. fold t1. fold input.
    unfold io_bind at 1. unfold writeFileSync at 1. cbn beta iota.
    unfold on_disk. cbn [disk clock]. fold e1.
    unfold io_bind at 1. rewrite Hc. done.
Qed.
(** [MediaProcessor.processAudio]: what comes back and what stays on the
    disk.  Valid audio is written to a temporary file and converted, with
    the voice-note profile exactly when the message says [ptt], or says
    nothing and [isVoiceNote] holds; the result carries the converted
    bytes, that flag and the Opus mimetype, and neither temporary file is
    left.  When the converter fails its message is reported and the input
    file stays on the disk.  Invalid audio touches nothing. *)
Theorem audio_conversion audioData message e :
  let t1 := default 0 (head (clock e)) in
  let t2 := default 0 (head (tail (clock e))) in
  let input := join tmpdir ("input_" +:+ pretty t1 +:+ ".tmp") in
  let output := join tmpdir (pretty t2 +:+ ".ogg") in
  let isPtt := voiceNote message in
  let r := MediaProcessor_processAudio audioData message e in
  match processMediaForBaileys audioData "audio" with
  | Normal (Some buffer) =>
      match ffmpeg (if isPtt then VoiceNote else RegularAudio) (Some buffer) with
      | inl converted =>
          r.1 = Normal (mkMediaResult true
                          (mkMessage None None (Some (MBuffer converted)) None
                             None (Some isPtt) (Some "audio/ogg; codecs=opus")
                             None None None ∅)
                          None) /\
          disk r.2 !! input = None /\ disk r.2 !! output = None /\
          (forall p, p <> input -> p <> output -> disk r.2 !! p = disk e !! p)
      | inr msg =>
          r.1 = Normal (mkMediaResult false emptyMessage (Some msg)) /\
          disk r.2 !! input = Some buffer /\
          (forall p, p <> input -> disk r.2 !! p = disk e !! p)
      end
  | _ =>
      r = (Normal (mkMediaResult false emptyMessage
                     (Some "Invalid audio data format")), e)
  end.
Proof.
  intros t1 t2 input output isPtt r. unfold r. rewrite processAudio_eq.
  fold t1 t2 input output isPtt.
  destruct (processMediaForBaileys audioData "audio") as [[buffer|]|err]; [|done..].
  destruct (ffmpeg _ _) as [converted|msg]; cbn [fst snd disk].
  - split; [done|]. split; [|split].
    + destruct (decide (input = output)) as [->|Hne]; [apply lookup_delete_eq|].
      by rewrite lookup_delete_ne, lookup_delete_eq.
    + apply lookup_delete_eq.
    + intros p Hi Ho. by rewrite !lookup_delete_ne.
  - split; [done|]. split; [apply lookup_insert_eq|].
    intros p Hi. by rewrite lookup_insert_ne.
Qed.

(** *** What the methods return *)

Lemma yields_ret {A} (a : A) (Q : A -> Prop) : Q a -> yields (io_ret a) Q.
Proof. clear. by intros H e. Qed.

Lemma yields_bind {A B} (m : Io A) (k : A -> Io B) (Q : B -> Prop) :
  (forall a, yields (k a) Q) -> yields (io_bind m k) Q.
Proof.
  clear. intros Hk e. unfold io_bind.
  destruct (m e) as [[a|x] e'] eqn:E; [apply Hk|done].
Qed.

Lemma yields_bind_post {A B} (m : Io A) (k : A -> Io B) (P : A -> Prop)
    (Q : B -> Prop) :
  yields m P -> (forall a, P a -> yields (k a) Q) -> yields (io_bind m k) Q.
Proof.
  clear. intros Hm Hk e. unfold io_bind. specialize (Hm e).
  destruct (m e) as [[a|x] e'] eqn:E; [by apply Hk|done].
Qed.

Lemma yields_try {A} (m : Io A) h (Q : A -> Prop) :
  yields m Q -> (forall x, yields (h x) Q) -> yields (io_try m h) Q.
Proof.
  clear. intros Hm Hh e. unfold io_try. specialize (Hm e).
  destruct (m e) as [[a|x] e'] eqn:E; [done|apply Hh].
Qed.

Lemma yields_lift {A} (c : Completion A) (Q : A -> Prop) :
  match c with Normal a => Q a | Abrupt _ => True end -> yields (io_lift c) Q.
Proof. clear. by intros H e. Qed.

(** A [try] whose handler returns returns. *)
Lemma io_try_returns {A} (m : Io A) (a0 : Thrown -> A) e :
  exists a e', io_try m (fun x => io_ret (a0 x)) e = (Normal a, e').
Proof.
  clear. unfold io_try, io_ret. destruct (m e) as [[a|x] e']; eauto.
Qed.

Ltac shapes :=
  repeat lazymatch goal with
    | |- yields (io_ret _) _ => apply yields_ret
    | |- yields (io_bind _ _) _ => apply yields_bind; intros ?
    | |- yields (io_try _ _) _ => apply yields_try; [|intros ?]
    | |- yields (match ?x with _ => _ end) _ => destruct x eqn:?
    | |- yields (let _ := _ in _) _ => cbv zeta
    end.

Lemma processAudio_yields audioData message :
  yields (MediaProcessor_processAudio audioData message)
    (mediaResult (fun pm => exists converted,
       pm = mkMessage None None (Some (MBuffer converted)) None None
              (Some (voiceNote message)) (Some "audio/ogg; codecs=opus")
              None None None ∅)).
Proof.
  intros e. rewrite processAudio_eq.
  destruct (processMediaForBaileys audioData "audio") as [[buffer|]|err];
    [|by unfold mediaResult; cbn; eauto..].
  destruct (ffmpeg _ _) as [converted|msg]; unfold mediaResult; cbn; eauto.
Qed.

Lemma processVideo_yields videoData message :
  yields (MediaProcessor_processVideo videoData message)
    (mediaResult (fun pm => exists b fileName thumbnail,
       pm = mkMessage None None None (Some (MBuffer b)) None None
              (Some "video/mp4") None fileName thumbnail ∅)).
Proof.
  unfold MediaProcessor_processVideo. shapes.
  all: unfold mediaResult; cbn; eauto.
Qed.

Lemma processImage_yields imageData :
  yields (processImage imageData)
    (mediaResult (fun pm => exists b,
       pm = with_image (Some (MBuffer b)) emptyMessage /\ b <> [])).
Proof.
  unfold processImage. apply yields_try; [|intros x; by apply yields_ret; cbn; eauto].
  apply (yields_bind_post _ _ (fun o => forall b, o = Some b -> b <> [])).
  - apply yields_lift. pose proof (media_shape imageData "image") as H.
    destruct (processMediaForBaileys imageData "image") as [[b|]|]; [|done..].
    intros b' [= <-]. apply H.
  - intros [b|] Hb; apply yields_ret; unfold mediaResult; cbn; eauto.
Qed.

Lemma processDocument_yields documentData :
  yields (processDocument documentData)
    (mediaResult (fun pm => exists b,
       pm = with_document (Some (MBuffer b)) emptyMessage /\ b <> [])).
Proof.
  unfold processDocument. apply yields_try; [|intros x; by apply yields_ret; cbn; eauto].
  apply (yields_bind_post _ _ (fun o => forall b, o = Some b -> b <> [])).
  - apply yields_lift. pose proof (media_shape documentData "document") as H.
    destruct (processMediaForBaileys documentData "document") as [[b|]|]; [|done..].
    intros b' [= <-]. apply H.
  - intros [b|] Hb; apply yields_ret; unfold mediaResult; cbn; eauto.
Qed.
(** *** The steps of [processMessageMedia] *)

Lemma failed_empty message r :
  mediaResult (fun _ => True) r -> mr_success r = false -> failed message r.
Proof.
  clear. unfold mediaResult, failed. intros H Hs. rewrite Hs in H.
  destruct H as [He Hm]. auto.
Qed.

Lemma mediaResult_weaken (P : Message -> Prop) r :
  mediaResult P r -> mediaResult (fun _ => True) r.
Proof. clear. unfold mediaResult. destruct (mr_success r); intuition. Qed.

Lemma sameText_refl m : sameText m m.
Proof. clear. done. Qed.

Lemma fetchAudio_yields message audio :
  yields (fetchAudio message audio)
    (fun r => match r with inl early => failed message early | inr _ => True end).
Proof.
  unfold fetchAudio. destruct audio as [| |d [url|]|]; try by apply yields_ret.
  destruct (truthyString url); [|by apply yields_ret].
  apply yields_try.
  - apply yields_bind. intros b. by apply yields_ret.
  - intros x. apply yields_ret. unfold failed. cbn. eauto.
Qed.

Lemma audioStep_yields message :
  yields (audioStep message)
    (stepResult message (fun pm =>
       asideAudio message pm /\
       if given (pm_audio message)
       then exists b, pm_audio pm = Some (MBuffer b) /\
                      pm_ptt pm = Some (voiceNote message)
       else pm = message)).
Proof.
  unfold audioStep, given.
  destruct (pm_audio message) as [audio|] eqn:Ha; [|by apply yields_ret].
  destruct (truthyMedia audio) eqn:Ht; [|by apply yields_ret].
  eapply yields_bind_post; [apply fetchAudio_yields|].
  intros [early|audio'] Hf; [by apply yields_ret|].
  cbv zeta. eapply yields_bind_post; [apply processAudio_yields|].
  intros r Hr. destruct (mr_success r) eqn:Hs; cbn [negb].
  - apply yields_ret. unfold mediaResult in Hr. rewrite Hs in Hr.
    destruct Hr as (_ & converted & ->). cbn.
    split; [|by eexists].
    unfold asideAudio, sameText. cbn. by rewrite (left_id_L ∅ (∪)).
  - apply yields_ret. cbn. apply failed_empty; [|done].
    by apply mediaResult_weaken in Hr.
Qed.

Lemma imageStep_yields message pm0 :
  yields (imageStep pm0)
    (stepResult message (fun pm =>
       asideImage pm0 pm /\
       if given (pm_image pm0)
       then exists b, pm_image pm = Some (MBuffer b) /\ b <> []
       else pm = pm0)).
Proof.
  unfold imageStep, given.
  destruct (pm_image pm0) as [image|] eqn:Ha; [|by apply yields_ret].
  destruct (truthyMedia image) eqn:Ht; [|by apply yields_ret].
  eapply yields_bind_post; [apply processImage_yields|].
  intros r Hr. destruct (mr_success r) eqn:Hs; cbn [negb].
  - apply yields_ret. unfold mediaResult in Hr. rewrite Hs in Hr.
    destruct Hr as (_ & b & -> & Hb). cbn. split; [done|by exists b].
  - apply yields_ret. cbn. apply failed_empty; [|done].
    by apply mediaResult_weaken in Hr.
Qed.

Lemma documentStep_yields message pm0 :
  yields (documentStep pm0)
    (stepResult message (fun pm =>
       asideDocument pm0 pm /\
       if given (pm_document pm0)
       then exists b, pm_document pm = Some (MBuffer b) /\ b <> []
       else pm = pm0)).
Proof.
  unfold documentStep, given.
  destruct (pm_document pm0) as [document|] eqn:Ha; [|by apply yields_ret].
  destruct (truthyMedia document) eqn:Ht; [|by apply yields_ret].
  eapply yields_bind_post; [apply processDocument_yields|].
  intros r Hr. destruct (mr_success r) eqn:Hs; cbn [negb].
  - apply yields_ret. unfold mediaResult in Hr. rewrite Hs in Hr.
    destruct Hr as (_ & b & -> & Hb). cbn. split; [done|by exists b].
  - apply yields_ret. cbn. apply failed_empty; [|done].
    by apply mediaResult_weaken in Hr.
Qed.

Lemma videoStep_yields message pm0 :
  yields (videoStep pm0)
    (stepResult message (fun pm =>
       asideVideo pm0 pm /\
       if given (pm_video pm0)
       then exists b, pm_video pm = Some (MBuffer b) /\
                      pm_mimetype pm = Some "video/mp4"
       else pm = pm0)).
Proof.
  unfold videoStep, given.
  destruct (pm_video pm0) as [video|] eqn:Ha; [|by apply yields_ret].
  destruct (truthyMedia video) eqn:Ht; [|by apply yields_ret].
  eapply yields_bind_post; [apply processVideo_yields|].
  intros r Hr. destruct (mr_success r) eqn:Hs; cbn [negb].
  - apply yields_ret. unfold mediaResult in Hr. rewrite Hs in Hr.
    destruct Hr as (_ & b & fileName & thumbnail & ->). cbn.
    split; [|by exists b].
    unfold asideVideo, sameText. cbn. by rewrite (left_id_L ∅ (∪)).
  - apply yields_ret. cbn. apply failed_empty; [|done].
    by apply mediaResult_weaken in Hr.
Qed.

Lemma andThen_yields message (m : Io (MediaResult + Message)) k
    (P : Message -> Prop) (Q : MediaResult + Message -> Prop) :
  yields m (stepResult message P) ->
  (forall early, failed message early -> Q (inl early)) ->
  (forall pm, P pm -> yields (k pm) Q) ->
  yields (andThen m k) Q.
Proof.
  clear. intros Hm Hf Hk. unfold andThen.
  eapply yields_bind_post; [apply Hm|].
  intros [early|pm] H; [by apply yields_ret, Hf|by apply Hk].
Qed.
(** *** [processMessageMedia] *)

Lemma pipeline_failed message onlyAudio r :
  failed message r -> pipelineResult message onlyAudio r.
Proof. clear. intros H. unfold pipelineResult. by rewrite (proj1 H). Qed.

Lemma pipeline_yields message onlyAudio :
  yields (processMessageMedia message onlyAudio) (pipelineResult message onlyAudio).
Proof.
  unfold processMessageMedia. apply yields_try.
  2:{ intros x. apply yields_ret, pipeline_failed. unfold failed. cbn. eauto. }
  apply (yields_bind_post _ _
           (fun r => match r with
                     | inl result => pipelineResult message onlyAudio result
                     | inr _ => False
                     end)).
  2:{ intros [result|pm] H; [by apply yields_ret|done]. }
  eapply andThen_yields; [apply audioStep_yields| |].
  { intros early. apply pipeline_failed. }
  intros pmA [HA Haudio].
  destruct HA as ((At & Ac & Ao) & Ai & Av & Ad).
  destruct onlyAudio.
  { apply yields_ret. unfold pipelineResult, sameText. cbn.
    split; [done|]. split; [|done].
    destruct (given (pm_audio message)); [done|by subst pmA]. }
  eapply andThen_yields; [apply (imageStep_yields message)| |].
  { intros early. apply pipeline_failed. }
  intros pmI [HI Himage].
  destruct HI as ((It & Ic & Io) & Ia & Ip & Iv & Id).
  eapply andThen_yields; [apply (videoStep_yields message)| |].
  { intros early. apply pipeline_failed. }
  intros pmV [HV Hvideo].
  destruct HV as ((Vt & Vc & Vo) & Va & Vp & Vi & Vd).
  eapply andThen_yields; [apply (documentStep_yields message)| |].
  { intros early. apply pipeline_failed. }
  intros pmD [HD Hdocument].
  destruct HD as ((Dt & Dc & Do) & Da & Dp & Di & Dv & Dm).
  apply yields_ret. unfold pipelineResult, sameText. cbn.
  rewrite Ai in Himage. rewrite Iv, Av in Hvideo. rewrite Vd, Id, Ad in Hdocument.
  split; [split; [congruence|split; congruence]|].
  split; [|split; [|split]].
  - rewrite Da, Va, Ia, Dp, Vp, Ip.
    destruct (given (pm_audio message)); [done|by subst pmA].
  - rewrite Di, Vi.
    destruct (given (pm_image message)); [done|]. by rewrite Himage.
  - rewrite Dv, Dm.
    destruct (given (pm_video message)); [done|]. by rewrite Hvideo, Iv.
  - destruct (given (pm_document message)); [done|].
    by rewrite Hdocument, Vd, Id.
Qed.

(** [processMessageMedia] always returns a result.  A success keeps the
    text, the caption and the properties that the pipeline does not name;
    the audio that was given is a buffer, with [ptt] set as the message
    says or, when it says nothing, as [isVoiceNote] finds.  With
    [onlyAudio] the image, the video and the document go out as they came,
    unchecked; without it each one that was given is a buffer, the image
    and the document not empty, the video as [video/mp4].  A failure
    carries a message, and the empty object or the message as it came. *)
Theorem pipeline_outcomes message onlyAudio e :
  exists r e', processMessageMedia message onlyAudio e = (Normal r, e') /\
               pipelineResult message onlyAudio r.
Proof.
  pose proof (pipeline_yields message onlyAudio e) as Hy.
  unfold processMessageMedia in *.
  match type of Hy with
  | context [io_try ?m (fun error => io_ret (@?a0 error))] =>
      destruct (io_try_returns m a0 e) as (r & e' & Hr)
  end.
  exists r, e'. split; [exact Hr|]. by rewrite Hr in Hy.
Qed.
(** ** The marks of [deletedSessions] decide nothing *)

Lemma blind_ret {A} (a : A) : blind (ret a).
Proof. by intros w1 w2 H. Qed.

Lemma blind_throw {A} e : blind (@throw A e).
Proof. by intros w1 w2 H. Qed.

Lemma blind_bind {A B} (m : Js A) (k : A -> Js B) :
  blind m -> (forall a, blind (k a)) -> blind (bind m k).
Proof.
  intros Hm Hk w1 w2 H. destruct (Hm w1 w2 H) as [H1 H2]. unfold bind.
  destruct (m w1) as [[a1|e1] w1'], (m w2) as [[a2|e2] w2']; cbn in *;
    try discriminate H1.
  - injection H1 as <-. by apply Hk.
  - by injection H1 as <-.
Qed.

Lemma blind_tryCatch {A} (m : Js A) h :
  blind m -> (forall e, blind (h e)) -> blind (tryCatch m h).
Proof.
  intros Hm Hh w1 w2 H. destruct (Hm w1 w2 H) as [H1 H2]. unfold tryCatch.
  destruct (m w1) as [[a1|e1] w1'], (m w2) as [[a2|e2] w2']; cbn in *;
    try discriminate H1.
  - by injection H1 as <-.
  - injection H1 as <-. by apply Hh.
Qed.

Lemma blind_when b m : blind m -> blind (when b m).
Proof. intros Hm. destruct b; [done|apply blind_ret]. Qed.

Lemma blind_forEach {A} (l : list A) body :
  (forall x, blind (body x)) -> blind (forEach l body).
Proof.
  intros Hb. induction l as [|x l IH]; [apply blind_ret|].
  cbn [forEach]. apply blind_bind; [apply Hb|done].
Qed.

(** Worlds that are alike have the same fields, the marks apart. *)
Lemma alike_fields w1 w2 :
  alike w1 w2 ->
  exists d, w1 = on_deletedSessions (fun _ => d) w2.
Proof.
  intros H. exists (deletedSessions (mgr w1)).
  destruct w1 as [[s1 c1 d1 p1 r1 t1] ? ? ? ? ? ? ? ? ? ? ?],
           w2 as [[s2 c2 d2 p2 r2 t2] ? ? ? ? ? ? ? ? ? ? ?].
  unfold alike, unmarked in H. revert H. worlds. by intros [= -> -> -> -> -> -> -> -> -> -> -> -> -> -> -> ->].
Qed.

Lemma alike_marks d w : alike (on_deletedSessions (fun _ => d) w) w.
Proof. by destruct w as [[]]. Qed.

(** A leaf of a computation: it is given worlds that differ in the marks
    only, and does not read them. *)
Ltac blind_leaf :=
  let w1 := fresh "w" in let w2 := fresh "w" in let H := fresh "H" in
  let d := fresh "d" in
  intros w1 w2 H; apply alike_fields in H as [d ->];
  destruct w2 as [[] ? ? ? ? ? ? ? ? ? ? ?];
  unfold alike, unmarked; cbn;
  repeat match goal with
         | |- context [match ?x with _ => _ end] => destruct x
         end;
  done.

Ltac blinds :=
  repeat first
    [ lazymatch goal with
      | |- blind (ret _) => apply blind_ret
      | |- blind (throw _) => apply blind_throw
      | |- blind (bind _ _) => apply blind_bind; [|intros ?]
      | |- blind (tryCatch _ _) => apply blind_tryCatch; [|intros ?]
      | |- blind (when _ _) => apply blind_when
      | |- blind (forEach _ _) => apply blind_forEach; intros ?
      | |- blind (match ?x with _ => _ end) => destruct x
      | |- blind (let _ := _ in _) => cbv zeta
      | |- blind (gets _) => fail
      | |- blind (modify _) => fail
      | |- blind (query _) => fail
      | |- blind fetchAll => fail
      | |- blind (setTimeout _) => fail
      | |- blind (fun _ => _) => fail
      | |- blind _ => progress unfold_ops
      end ].

Lemma query_blind f : blind (query f).
Proof.
  intros w1 w2 H. apply alike_fields in H as [d ->]. unfold query.
  destruct w2 as [[] ? ? ? ? ? ? fs ? ? ? ?]. cbn.
  by destruct (head fs) as [[msg|]|].
Qed.

Lemma fetchAll_blind : blind fetchAll.
Proof.
  intros w1 w2 H. apply alike_fields in H as [d ->]. unfold fetchAll.
  destruct w2 as [[] ? ? ? ? ? ? fs ? ? ? ?]. cbn.
  by destruct (head fs) as [[msg|]|].
Qed.

Ltac blind_leaves :=
  first [apply query_blind | apply fetchAll_blind | blind_leaf].

Lemma handleStreamRestart_blind cdr : blind (handleStreamRestart cdr).
Proof. blinds. all: blind_leaves. Qed.

Lemma unmarked_marks f w : unmarked (on_deletedSessions f w) = unmarked w.
Proof. by destruct w as [[]]. Qed.

(** [startConnection] reads the mark of its id only to remove it. *)
Lemma forget_blind {B} id (k : unit -> Js B) :
  (forall a, blind (k a)) ->
  blind (do wasDeleted <- gets (fun w => bool_decide (id ∈ deletedSessions (mgr w)));
         bind (when wasDeleted (modify (on_deletedSessions (fun x => x ∖ {[id]})))) k).
Proof.
  intros Hk w1 w2 H. rewrite !bind_gets.
  assert (E : forall b w,
    bind (when b (modify (on_deletedSessions (fun x => x ∖ {[id]})))) k w
    = k tt (if b then on_deletedSessions (fun x => x ∖ {[id]}) w else w)).
  { intros b w. by destruct b. }
  rewrite !E. apply Hk. unfold alike in *.
  by destruct (bool_decide _), (bool_decide _); rewrite ?unmarked_marks.
Qed.

Lemma startConnection_blind o cdr : blind (startConnection o cdr).
Proof.
  unfold startConnection. apply blind_bind; [blind_leaf|intros id].
  apply blind_tryCatch.
  - apply forget_blind. intros _. blinds. all: blind_leaves.
  - intros e. blinds. all: blind_leaves.
Qed.

Ltac blinds' :=
  repeat first
    [ lazymatch goal with
      | |- blind (startConnection _ _) => apply startConnection_blind
      | |- blind (ret _) => apply blind_ret
      | |- blind (throw _) => apply blind_throw
      | |- blind (bind _ _) => apply blind_bind; [|intros ?]
      | |- blind (tryCatch _ _) => apply blind_tryCatch; [|intros ?]
      | |- blind (when _ _) => apply blind_when
      | |- blind (forEach _ _) => apply blind_forEach; intros ?
      | |- blind (match ?x with _ => _ end) => destruct x
      | |- blind (let _ := _ in _) => cbv zeta
      | |- blind (gets _) => fail
      | |- blind (modify _) => fail
      | |- blind (query _) => fail
      | |- blind fetchAll => fail
      | |- blind (setTimeout _) => fail
      | |- blind (fun _ => _) => fail
      | |- blind _ =>
          progress unfold dispatch, restartCallback, reconcileSessionsWithDatabase,
            onConnectionUpdate, onCredsUpdate, onClose, onOpen, onQr,
            enhancedSaveState, rememberSession, versionFetched,
            resumeStartConnection, createConnection, deliver, handleStreamRestart,
            deleteSession, disconnectSession, cleanupSession, deleteAuthState,
            endSocket, logout, removeSession, updateSock, emit, settle, await,
            clearTimeout
      end ].

Lemma dispatch_blind e : blind (dispatch e).
Proof. destruct e; blinds'. all: blind_leaves. Qed.

Lemma drain_blind : blind drain.
Proof. unfold drain. blinds'. all: blind_leaves. Qed.

Lemma step_alike e w1 w2 : alike w1 w2 -> alike (step e w1) (step e w2).
Proof.
  intros H. unfold step, exec.
  apply drain_blind, dispatch_blind, H.
Qed.

(** The marks of [deletedSessions] decide nothing: two services that
    differ only in which ids are marked as deleted go through any history
    with the same registry, sockets, attempts, timers, rows, emitted events
    and answers, and differ in the marks at most.  A deleted session is
    started again like any other. *)
Theorem deleted_marks_inert es w1 w2 :
  alike w1 w2 -> alike (runEvents es w1) (runEvents es w2).
Proof.
  revert w1 w2. induction es as [|e es IH]; intros w1 w2 H; [done|].
  cbn [runEvents foldl]. apply IH. by apply step_alike.
Qed.
(** ** Sockets that have their listeners *)

Lemma live_same w w' s id :
  socks w' = socks w -> live w s id -> live w' s id.
Proof. unfold live. by intros ->. Qed.

Lemma liveIn_frame ctx w w' :
  sessions (mgr w') = sessions (mgr w) -> socks w' = socks w ->
  liveIn ctx w -> liveIn ctx w'.
Proof.
  intros Hs Hk [[HJ HK] Hc]. split; [split|].
  - intros id s. rewrite Hs. intros H. by apply (live_same w), HJ.
  - intros s sk. rewrite Hk. apply HK.
  - destruct ctx as [[s id]|]; [|done]. by apply (live_same w).
Qed.

Lemma live_alter g s' w s id :
  keepsLive g -> live w s id -> live (on_socks (alter g s') w) s id.
Proof.
  intros Hg (sk & Hsk & Hid & Hl & He). unfold live. fields.
  destruct (decide (s' = s)) as [->|Hne].
  - exists (g sk). rewrite list_lookup_alter_eq, Hsk.
    destruct (Hg sk) as (-> & -> & ->). done.
  - exists sk. by rewrite list_lookup_alter_ne.
Qed.

Lemma liveIn_alter ctx g s' w :
  keepsLive g -> liveIn ctx w -> liveIn ctx (on_socks (alter g s') w).
Proof.
  intros Hg [[HJ HK] Hc]. split; [split|].
  - intros id s H. apply live_alter; [done|]. by apply HJ.
  - intros s sk. fields. destruct (decide (s' = s)) as [->|Hne].
    + rewrite list_lookup_alter_eq.
      destruct (socks w !! s) as [sk0|] eqn:E; [|done]. cbn. intros [= <-].
      destruct (Hg sk0) as (_ & -> & ->). by apply (HK s).
    + rewrite list_lookup_alter_ne by done. apply HK.
  - destruct ctx as [[s id]|]; [|done]. by apply live_alter.
Qed.

Lemma liveIn_delete ctx id w :
  liveIn ctx w -> liveIn ctx (on_sessions (delete id) w).
Proof.
  intros [[HJ HK] Hc]. split; [split|]; [|done|by destruct ctx as [[]|]].
  intros id' s. fields. intros H. apply lookup_delete_Some in H as [_ H].
  by apply HJ in H.
Qed.

Lemma liveIn_insert s id w :
  liveIn (Some (s, id)) w -> liveIn (Some (s, id)) (on_sessions (<[id := s]>) w).
Proof.
  intros [[HJ HK] Hc]. split; [split|]; [|done|done].
  intros id' s'. fields. intros H. apply lookup_insert_Some in H as [[<- <-]|[_ H]].
  - exact Hc.
  - by apply HJ in H.
Qed.

Lemma live_snoc new w s id :
  live w s id -> live (on_socks (fun l => l ++ [new]) w) s id.
Proof.
  intros (sk & Hsk & H). exists sk. split; [|done]. fields.
  by apply lookup_app_l_Some.
Qed.

Lemma liveIn_snoc ctx new w :
  s_listening new = true -> s_ended new = false ->
  liveIn ctx w -> liveIn ctx (on_socks (fun l => l ++ [new]) w).
Proof.
  intros Hl He [[HJ HK] Hc]. split; [split|].
  - intros id s H. apply live_snoc. by apply HJ.
  - intros s sk. fields. intros H. apply lookup_app_Some in H as [H|[_ H]].
    + exact (HK s sk H).
    + apply list_lookup_singleton_Some in H as [_ <-]. by intros _.
  - destruct ctx as [[s id]|]; [|done]. by apply live_snoc.
Qed.

Lemma liveIn_weaken ctx w : liveIn ctx w -> liveIn None w.
Proof. by intros [H _]. Qed.

(** [cleanupSession] ends the socket of the id and removes its listeners
    as it takes the id from the registry. *)
Lemma cleanupSession_live id : preserves (liveIn None) (cleanupSession id).
Proof.
  intros w [[HJ HK] _]. rewrite cleanupSession_exec.
  split; [split|done].
  - intros id' s'. fields. intros H. apply lookup_delete_Some in H as [Hne H].
    destruct (HJ id' s' H) as (sk' & Hsk' & Hid' & Hl' & He').
    exists sk'. split; [|done]. fields. unfold released.
    destruct (sessions (mgr w) !! id) as [s|] eqn:Hs; [|done].
    destruct (HJ id s Hs) as (sk & Hsk & Hid & _).
    rewrite !list_lookup_alter_ne; [done|intros ->..].
    all: rewrite Hsk in Hsk'; injection Hsk' as <-; by rewrite Hid in Hid'.
  - intros s' sk'. fields. unfold released.
    destruct (sessions (mgr w) !! id) as [s|] eqn:Hs; [|apply HK].
    destruct (decide (s = s')) as [->|Hne].
    + rewrite !list_lookup_alter_eq.
      destruct (socks w !! s') as [sk0|]; [|done]. cbn. by intros [= <-].
    + rewrite !list_lookup_alter_ne by done. apply HK.
Qed.

Lemma query_live ctx f : preserves (liveIn ctx) (query f).
Proof.
  intros w Hw. unfold exec, query.
  destruct (head (faults w)) as [[msg|]|]; by apply (liveIn_frame ctx w).
Qed.

Lemma fetchAll_live ctx : preserves (liveIn ctx) fetchAll.
Proof.
  intros w Hw. unfold exec, fetchAll.
  destruct (head (faults w)) as [[msg|]|]; by apply (liveIn_frame ctx w).
Qed.

Ltac live_leaf :=
  first
    [ apply query_live
    | apply fetchAll_live
    | apply cleanupSession_live
    | apply preserves_modify; intros ? ?;
      first
        [ eapply liveIn_frame; [reflexivity|reflexivity|eassumption]
        | apply liveIn_alter; [by intros []|assumption]
        | apply liveIn_delete; assumption
        | apply liveIn_insert; assumption
        | apply liveIn_snoc; [reflexivity|reflexivity|assumption] ]
    | intros ? ?; eapply liveIn_frame; [reflexivity|reflexivity|eassumption] ].

Ltac lives :=
  repeat first
    [ progress keep
    | lazymatch goal with
      | |- preserves _ (cleanupSession _) => fail
      | |- preserves _ (match ?x with _ => _ end) => destruct x
      | |- preserves _ (let _ := _ in _) => cbv zeta
      | |- preserves _ (modify _) => fail
      | |- preserves _ (query _) => fail
      | |- preserves _ fetchAll => fail
      | |- preserves _ (setTimeout _) => fail
      | |- preserves _ (fun _ => _) => fail
      | |- preserves _ _ =>
          progress unfold dispatch, restartCallback, reconcileSessionsWithDatabase,
            onConnectionUpdate, onCredsUpdate, onClose, onOpen, onQr,
            enhancedSaveState, rememberSession, versionFetched, startConnection,
            resumeStartConnection, createConnection, deliver, handleStreamRestart,
            deleteSession, disconnectSession, deleteAuthState,
            endSocket, logout, removeSession, updateSock, emit, settle, await,
            clearTimeout
      end ];
  live_leaf.

Lemma onConnectionUpdate_live s u :
  preserves (liveIn None)
    (do on <- gets (fun w => listening w s); when on (onConnectionUpdate s u)).
Proof.
  apply preserves_bind_gets. intros w Hw.
  destruct (listening w s) eqn:Hl; [|done]. unfold when, onConnectionUpdate.
  rewrite exec_bind_gets. unfold listening in Hl.
  destruct (socks w !! s) as [sk|] eqn:Hsk; [|done].
  assert (Hlive : liveIn (Some (s, s_id sk)) w).
  { split; [apply Hw|]. exists sk. repeat split; try done.
    by apply (proj2 (proj1 Hw) s sk). }
  match goal with
  | |- liveIn None (exec ?m w) =>
      assert (Hb : preserves (liveIn (Some (s, s_id sk))) m) by lives
  end.
  exact (liveIn_weaken _ _ (Hb w Hlive)).
Qed.

Lemma dispatch_live e : preserves (liveIn None) (dispatch e).
Proof.
  destruct e; try (by lives).
  unfold dispatch. apply onConnectionUpdate_live.
Qed.

Lemma drain_live : preserves (liveIn None) drain.
Proof. unfold drain. lives. Qed.

Lemma runEvents_live es w : liveIn None w -> liveIn None (runEvents es w).
Proof.
  revert w. induction es as [|e es IH]; intros w Hw; [done|].
  cbn [runEvents foldl]. apply IH. unfold step.
  by apply drain_live, dispatch_live.
Qed.

(** ** No token is stale *)

Lemma owned_frame w w' :
  connectionPromises (mgr w') = connectionPromises (mgr w) ->
  waiters w' = waiters w ->
  tokensOwned (waiters w) w -> tokensOwned (waiters w') w'.
Proof. unfold tokensOwned. by intros -> ->. Qed.

Lemma owned_delete id w :
  tokensOwned (waiters w) w ->
  tokensOwned (waiters (on_connectionPromises (delete id) w))
              (on_connectionPromises (delete id) w).
Proof.
  intros H id' p. fields. intros Hp. apply lookup_delete_Some in Hp as [_ Hp].
  by apply H.
Qed.

Lemma owned_await wt w :
  tokensOwned (waiters w) w ->
  tokensOwned (waiters (on_waiters (fun l => l ++ [wt]) w))
              (on_waiters (fun l => l ++ [wt]) w).
Proof.
  intros H id p Hp. fields. destruct (H id p Hp) as (wt0 & Hin & Hw).
  exists wt0. split; [|done]. apply elem_of_app. by left.
Qed.

(** The token is set and its owner suspends in one go. *)
Lemma owned_insert id p o :
  preserves (fun w => tokensOwned (waiters w) w)
    (run modify (on_connectionPromises (<[id := p]>));
     await (mkWaiter p true id o)).
Proof.
  intros w H. unfold exec, await. rewrite bind_modify. unfold modify. fields.
  intros id' p'. fields. intros Hp.
  apply lookup_insert_Some in Hp as [[<- <-]|[_ Hp]].
  - exists (mkWaiter p true id o). split; [|done].
    apply elem_of_app. right. by apply list_elem_of_singleton.
  - destruct (H id' p' Hp) as (wt0 & Hin & Hw).
    exists wt0. split; [|done]. apply elem_of_app. by left.
Qed.

Lemma query_owned f : preserves (fun w => tokensOwned (waiters w) w) (query f).
Proof.
  intros w Hw. unfold exec, query. by destruct (head (faults w)) as [[msg|]|].
Qed.

Lemma fetchAll_owned : preserves (fun w => tokensOwned (waiters w) w) fetchAll.
Proof.
  intros w Hw. unfold exec, fetchAll. by destruct (head (faults w)) as [[msg|]|].
Qed.

Ltac owned_leaf :=
  first
    [ apply query_owned
    | apply fetchAll_owned
    | apply owned_insert
    | apply preserves_modify; intros ? ?;
      first
        [ eapply owned_frame; [reflexivity|reflexivity|eassumption]
        | cbv beta; apply owned_delete; assumption
        | cbv beta; apply owned_await; assumption ]
    | intros ? ?; eapply owned_frame; [reflexivity|reflexivity|eassumption] ].

Ltac owns :=
  repeat first
    [ lazymatch goal with
      | |- preserves _ (bind (modify (on_connectionPromises (insert _ _))) _) => fail
      | |- preserves _ (ret _) => apply preserves_ret
      | |- preserves _ (throw _) => apply preserves_throw
      | |- preserves _ (gets _) => apply preserves_gets
      | |- preserves _ (bind _ _) => apply preserves_bind; [|intros ?]
      | |- preserves _ (tryCatch _ _) => apply preserves_tryCatch; [|intros ?]
      | |- preserves _ (when _ _) => apply preserves_when
      | |- preserves _ (forEach _ _) => apply preserves_forEach; intros ?
      | |- preserves _ (match ?x with _ => _ end) => destruct x
      | |- preserves _ (let _ := _ in _) => cbv zeta
      | |- preserves _ (modify _) => fail
      | |- preserves _ (query _) => fail
      | |- preserves _ fetchAll => fail
      | |- preserves _ (setTimeout _) => fail
      | |- preserves _ (fun _ => _) => fail
      | |- preserves _ _ => progress unfold_ops
      end ];
  owned_leaf.

Lemma dispatch_owned e :
  preserves (fun w => tokensOwned (waiters w) w) (dispatch e).
Proof. destruct e; owns. Qed.

(** *** The promise reactions *)

Lemma resume_tokens wt outcome w :
  connectionPromises (mgr (exec (resumeStartConnection wt outcome) w)) =
  (if w_owner wt then delete (w_id wt) (connectionPromises (mgr w))
   else connectionPromises (mgr w)) /\
  waiters (exec (resumeStartConnection wt outcome) w) = waiters w.
Proof.
  destruct wt as [p owner id o]. unfold resumeStartConnection, exec, deliver.
  cbn [w_owner w_id w_origin w_promise].
  destruct owner, outcome, o; js; fields; try done.
  all: by destruct (_ : bool).
Qed.

Lemma resume_completes wt :
  completes (do outcome <- gets (fun w => outcomeOf w wt);
             resumeStartConnection wt outcome).
Proof. returns. Qed.

Lemma exec_forEach_cons {A} (x : A) l body w :
  completes (body x) ->
  exec (forEach (x :: l) body) w = exec (forEach l body) (exec (body x) w).
Proof.
  intros Hc. cbn [forEach]. rewrite exec_bind. destruct (Hc w) as [[] Hx].
  unfold exec. by destruct (body x w) as [[[]|e] w'].
Qed.

Lemma resumeAll_owned rest : forall w,
  tokensOwned (waiters w ++ rest) w ->
  let w' := exec (forEach rest (fun wt =>
              do outcome <- gets (fun w => outcomeOf w wt);
              resumeStartConnection wt outcome)) w in
  tokensOwned (waiters w') w'.
Proof.
  induction rest as [|wt rest IH]; intros w H.
  - cbn. by rewrite app_nil_r in H.
  - cbv zeta. rewrite exec_forEach_cons by apply resume_completes.
    apply IH. rewrite exec_bind_gets.
    destruct (resume_tokens wt (outcomeOf w wt) w) as [Ht Hw].
    intros id p Hp. rewrite Ht in Hp. rewrite Hw.
    assert (Hp' : connectionPromises (mgr w) !! id = Some p).
    { destruct (w_owner wt); [|done]. by apply lookup_delete_Some in Hp as [_ Hp]. }
    destruct (H id p Hp') as (wt0 & Hin & Hpr & Ho & Hid).
    exists wt0. split; [|done].
    apply elem_of_app in Hin as [Hin|Hin]; [apply elem_of_app; by left|].
    apply elem_of_cons in Hin as [->|Hin]; [|apply elem_of_app; by right].
    rewrite Ho in Hp. apply lookup_delete_Some in Hp as [Hne _]. by rewrite Hid in Hne.
Qed.

Lemma drain_owned w :
  tokensOwned (waiters w) w -> tokensOwned (waiters (exec drain w)) (exec drain w).
Proof.
  intros H. unfold drain. rewrite exec_bind_gets, exec_bind_modify.
  apply resumeAll_owned. intros id p Hp. fields.
  destruct (H id p Hp) as (wt0 & Hin & Hw).
  exists wt0. split; [|done]. apply elem_of_app.
  destruct (ready w wt0) eqn:Hr; [right|left]; by apply list_elem_of_filter.
Qed.

Lemma runEvents_owned es w :
  tokensOwned (waiters w) w ->
  tokensOwned (waiters (runEvents es w)) (runEvents es w).
Proof.
  revert w. induction es as [|e es IH]; intros w Hw; [done|].
  cbn [runEvents foldl]. apply IH. unfold step.
  by apply drain_owned, dispatch_owned.
Qed.

Lemma reachable_quiescent w : reachable w -> quiescent w.
Proof.
  intros (d & answers & es & ->).
  destruct es as [|e es _] using rev_ind.
  - intros wt Hin. by apply elem_of_nil in Hin.
  - rewrite runEvents_snoc. unfold step. apply drain_settles.
    assert (Hw : wellFormed (runEvents es (initialWorld d answers)))
      by apply runEvents_wellFormed, initialWorld_wellFormed.
    assert (H : inv (runEvents es (initialWorld d answers))
                    (runEvents es (initialWorld d answers)))
      by (split; [done|apply grows_refl]).
    by destruct (dispatch_inv e _ H).
Qed.

(** No token is stale.  When [connectionPromises] holds a promise for an
    id, the promise has not been settled, and the call that made the
    attempt is still suspended on it: a caller that finds the token joins
    an attempt that has not ended. *)
Theorem token_has_owner w id p :
  reachable w -> connectionPromises (mgr w) !! id = Some p ->
  pendingAt w p /\ ownerWaits (waiters w) id p.
Proof.
  intros Hr Hp. pose proof (reachable_quiescent w Hr) as Hq.
  destruct Hr as (d & answers & es & ->).
  assert (H : tokensOwned (waiters (runEvents es (initialWorld d answers)))
                (runEvents es (initialWorld d answers))).
  { apply runEvents_owned. intros id' p'. unfold initialWorld, emptyManager. fields.
    by rewrite lookup_empty. }
  destruct (H id p Hp) as (wt & Hin & Hpr & Ho & Hid).
  split; [|by exists wt]. rewrite <- Hpr. by apply Hq.
Qed.
(** ** [resetConnection] *)

Lemma resetConnection_eq id ws w :
  resetConnection id ws w = (Normal true, on_sessions (delete id) w).
Proof.
  unfold resetConnection, removeSession. js.
  destruct (sessions (mgr w) !! id) as [s|] eqn:Hs.
  - by destruct ws.
  - f_equal. destruct w as [[]]. worlds. cbn in Hs. by rewrite delete_id.
Qed.


End Model.


(** * Part III: runs on concrete inputs *)

Local Abbreviation runPlain :=
  (runEvents plainStringify plainParse plainInit parseDecimal).

Local Abbreviation world0 := (@world42 string).

Arguments Normal {A} a.
Arguments Abrupt {A} e.

(** ** The store and the coalesced save *)

(** Two requests in a row and the answers to the two writes they cause:
    the second request finds a write in flight and only sets the marker;
    the answer to the first write issues the second; after the answers the
    row holds the credentials of the second request, its status as
    before.  When the first write is refused instead, nothing is issued
    and the marker stays. *)
Lemma save_coalescing_witness :
  let busy := saveRun plainStringify parseDecimal
                [SaveRequested "a"; SaveRequested "b"]
                (freshClosure "42" "c0" ∅ store42) in
  let done := saveRun plainStringify parseDecimal
                [SaveRequested "a"; SaveRequested "b";
                 WriteAnswered true; WriteAnswered true]
                (freshClosure "42" "c0" ∅ store42) in
  (inflight (saveStep plainStringify parseDecimal (SaveRequested "c") busy)
   = inflight busy /\
   issued (saveStep plainStringify parseDecimal (SaveRequested "c") busy)
   = issued busy) /\
  (inflight (writeAnswered plainStringify parseDecimal true busy) = ["b"] /\
   issued (writeAnswered plainStringify parseDecimal true busy) = 2%nat) /\
  (inflight (writeAnswered plainStringify parseDecimal false busy) = [] /\
   pendingSave (writeAnswered plainStringify parseDecimal false busy) = true /\
   db (writeAnswered plainStringify parseDecimal false busy) = store42) /\
  (exists row', db done !! 42 = Some row' /\ row_session row' = Some "b" /\
                row_status row' = Some "CONNECTING").
Proof.
  intros busy done.
  destruct (save_coalescing plainStringify parseDecimal "42" "c0" ∅ store42
              [SaveRequested "a"; SaveRequested "b"])
    as (Hreq & _ & Hans & Href & _).
  destruct (save_coalescing plainStringify parseDecimal "42" "c0" ∅ store42
              [SaveRequested "a"; SaveRequested "b";
               WriteAnswered true; WriteAnswered true])
    as (_ & _ & _ & _ & _ & _ & Hlast).
  split; [|split; [|split]].
  - destruct (Hreq (SaveRequested "c")) as (H1 & H2 & _); [reflexivity..|].
    by split.
  - destruct Hans as (H1 & H2 & _); [reflexivity..|]. by split.
  - destruct Href as (H1 & _ & _ & H4 & H5); [reflexivity|].
    split; [exact H1|]. split; [exact H4|exact H5].
  - destruct Hlast as (Hrow & _); [reflexivity..|].
    destruct (Hrow 42 row42) as (row' & H1 & H2 & H3 & _); [reflexivity..|].
    exists row'. split; [exact H1|]. split; [exact H2|exact H3].
Defined.

(** A write that the store refuses.  The second request came while the
    first write was in flight; the write is refused: no write is issued
    for the second request, the marker stays set, and the closure has
    settled with a row that holds neither state.  The next request then
    has its state written twice. *)
Lemma save_refused_drops_pending :
  let c := saveRun plainStringify parseDecimal
             [SaveRequested "a"; SaveRequested "b"; WriteAnswered false]
             (freshClosure "42" "c0" ∅ store42) in
  let later := saveRun plainStringify parseDecimal
                 [SaveRequested "c"; WriteAnswered true] c in
  (inflight c = [] /\ saveInProgress c = false /\ pendingSave c = true /\
   issued c = 1%nat /\ creds c = "b" /\ db c = store42 /\
   row_session <$> db c !! 42 = Some None) /\
  (inflight later = ["c"] /\ issued later = 3%nat /\
   row_session <$> db later !! 42 = Some (Some "c")).
Proof. vm_compute. repeat split; reflexivity. Qed.

(** ** Calls of the gateway *)

(** Before any connection nothing is registered under "42", and
    [disconnectSession] returns [false] in the same world; after the QR a
    session is registered, and there the call erases the stored
    credentials. *)
Lemma disconnectSession_unregistered_witness :
  disconnectSession parseDecimal "42" world0 = (Normal false, world0) /\
  is_Some (sessions (mgr (runPlain pairing world0)) !! "42").
Proof.
  split.
  - apply (disconnectSession_unregistered parseDecimal world0 "42").
    reflexivity.
  - apply (disconnectSession_unregistered parseDecimal
             (runPlain pairing world0) "42").
    intros Heq. apply (f_equal (fun m => row_session <$> m !! 42)) in Heq.
    vm_compute in Heq. discriminate Heq.
Defined.

(** [sendMessage] for a session that is missing, for one that has no user
    yet, and for a connected one whose media the pipeline rejects. *)
Lemma sendMessage_structured_witness :
  let message := mkSendMessageData "42" "5511999990000" "voice.ogg" in
  let rejecting (m : string) (onlyAudio : bool) := NotProcessed (Some "bad audio") in
  let paired := runPlain pairing world0 in
  let online := runPlain (pairing ++ [ConnectionUpdate 0 (opened_ true); UserSet 0 true])
                  world0 in
  sendMessage message true rejecting (Delivered None) world0
  = (Normal (Failure (Some "WhatsApp session 42 not found")), world0) /\
  sendMessage message true rejecting (Delivered None) paired
  = (Normal (Failure (Some "WhatsApp session 42 not connected")), paired) /\
  sendMessage message true rejecting (Delivered None) online
  = (Normal (Failure (Some "bad audio")), online).
Proof.
  intros message rejecting paired online.
  destruct (sendMessage_structured world0 message true rejecting (Delivered None))
    as (_ & Hmissing & _).
  destruct (sendMessage_structured paired message true rejecting (Delivered None))
    as (_ & _ & Hoffline & _).
  destruct (sendMessage_structured online message true rejecting (Delivered None))
    as (_ & _ & _ & Hrejected).
  split; [|split].
  - apply Hmissing. reflexivity.
  - apply (Hoffline 0%nat); vm_compute; reflexivity.
  - apply (Hrejected 0%nat (Some "bad audio")); vm_compute; reflexivity.
Defined.

(** ** The restart scheduler *)



(** ** The listener of ['connection.update'] *)



(** The same socket, opened: it is CONNECTED and still holds the QR
    payload, the row is CONNECTED without QR, and the attempt is resolved
    with the socket; the caller, resumed, gets the payload. *)
Lemma opened_event_witness :
  let w := runPlain pairing world0 in
  let w' := exec (onConnectionUpdate plainStringify parseDecimal 0 (opened_ true)) w in
  (s_status <$> socks w' !! 0%nat) = Some CONNECTED /\
  (s_qrCode <$> socks w' !! 0%nat) = Some (Some "qr-1") /\
  promises w' !! 0%nat = Some (Resolved 0) /\
  (exists row', store w' !! 42 = Some row' /\
     row_status row' = Some "CONNECTED" /\ row_qrcode row' = None) /\
  (exists msg,
     returned (exec (resumeStartConnection (mkWaiter 0 true "42" (Gateway 1))
                       (Resolved 0)) w')
     = [(1%nat, mkStartResult true msg (Some "qr-1"))]).
Proof.
  intros w w'.
  assert (Hsk : socks w !! 0%nat
                = Some (mkSession "42" (Some "sales") (Some 7) QR_PENDING
                          (Some "qr-1") false ("fresh", ∅) 0 0 true false false None))
    by (vm_compute; reflexivity).
  assert (Hpending : pendingAt w 0)
    by (exists (Negotiating 0); split; vm_compute; reflexivity).
  destruct (opened_event plainStringify parseDecimal w 0 _ true Hsk)
    as (H1 & _ & _ & _ & H5 & H6 & _ & H8).
  split; [|split; [|split; [|split]]].
  - fold w' in H1. by rewrite H1.
  - fold w' in H1. by rewrite H1.
  - exact (H5 Hpending).
  - apply (H6 eq_refl 42 (mkRow None (Some "QR_PENDING") (Some "qr-1")));
      reflexivity.
  - destruct (H8 (mkWaiter 0 true "42" (Gateway 1)) 1%nat eq_refl) as (_ & msg & Hr).
    exists msg. exact Hr.
Defined.

(** The socket of "42" when the transport issues its first QR: the turn
    ends with the payload on the socket, in two events and in row 42, and
    without a result for the caller; the caller gets the payload when the
    socket opens, and a failure without payload when the attempt is
    rejected.  An empty payload is stored like any other. *)
Lemma qrIssued_event_witness :
  let w := runPlain [CallStartConnection 1 data42; VersionFetched 0 None] world0 in
  let w' := exec (onConnectionUpdate plainStringify parseDecimal 0 (qrIssued "qr-1")) w in
  let owner := mkWaiter 0 true "42" (Gateway 1) in
  (s_status <$> socks w' !! 0%nat) = Some QR_PENDING /\
  (s_qrCode <$> socks w' !! 0%nat) = Some (Some "qr-1") /\
  emitted w' = [QrGenerated "42" "qr-1";
                ConnectionUpdateData "42" QR_PENDING (Some "qr-1") None] /\
  promises w' = [Negotiating 0] /\
  returned (step plainStringify plainParse plainInit parseDecimal
              (ConnectionUpdate 0 (qrIssued "qr-1")) w) = [] /\
  (exists msg,
     returned (exec (resumeStartConnection owner (Resolved 0))
                 (exec (onConnectionUpdate plainStringify parseDecimal 0
                          (opened_ true)) w'))
     = [(1%nat, mkStartResult true msg (Some "qr-1"))]) /\
  (exists msg,
     returned (exec (resumeStartConnection owner (Rejected (ErrorOf "closed"))) w')
     = [(1%nat, mkStartResult false msg None)]) /\
  (exists row', store w' !! 42 = Some row' /\
     row_status row' = Some "QR_PENDING" /\ row_qrcode row' = Some "qr-1") /\
  (exists row',
     store (exec (onConnectionUpdate plainStringify parseDecimal 0 (qrIssued "")) w)
       !! 42 = Some row' /\
     row_status row' = Some "QR_PENDING" /\ row_qrcode row' = Some "").
Proof.
  intros w w' owner.
  assert (Hsk : socks w !! 0%nat
                = Some (mkSession "42" (Some "sales") (Some 7) CONNECTING
                          None false ("fresh", ∅) 0 0 true false false None))
    by (vm_compute; reflexivity).
  destruct (qrIssued_event plainStringify plainParse plainInit parseDecimal
              w 0 _ "qr-1" Hsk)
    as (H1 & _ & H3 & H4 & _ & _ & H7 & H8 & H9 & _ & H10 & _).
  destruct (qrIssued_event plainStringify plainParse plainInit parseDecimal
              w 0 _ "" Hsk)
    as (_ & _ & _ & _ & _ & _ & _ & _ & _ & _ & H11 & _).
  fold w' in H1, H3, H4, H8, H9, H10.
  split; [|split; [|split; [|split; [|split; [|split; [|split; [|split]]]]]]].
  8:{ destruct H10 as (Hrow & _); [reflexivity|].
      destruct (Hrow 42 row42) as (row' & Hr & Hst & Hqr & _); [reflexivity..|].
      exists row'. split; [exact Hr|]. split; [exact Hst|exact Hqr]. }
  8:{ destruct H11 as (Hrow & _); [reflexivity|].
      destruct (Hrow 42 row42) as (row' & Hr & Hst & Hqr & _); [reflexivity..|].
      exists row'. split; [exact Hr|]. split; [exact Hst|exact Hqr]. }
  - by rewrite H1.
  - by rewrite H1.
  - vm_compute in H3 |- *. exact H3.
  - vm_compute in H4 |- *. exact H4.
  - assert (Hq : quiescent w) by (apply quiescentb_spec; vm_compute; reflexivity).
    specialize (H7 Hq eq_refl). vm_compute in H7 |- *. exact H7.
  - destruct (H8 owner 1%nat true eq_refl) as (_ & msg & Hr). exists msg.
    vm_compute in Hr |- *. exact Hr.
  - destruct (H9 owner 1%nat (ErrorOf "closed") eq_refl) as (msg & Hr).
    exists msg. vm_compute in Hr |- *. exact Hr.
Defined.

(** ** [startConnection] *)

(** Three callers for "42" in turn: the second and the third join the
    attempt of the first, the transport is opened once, and the three get
    a success when the socket opens.  And whatever the attempt ends with,
    the one who started it and one who joined agree. *)
Lemma startConnection_single_flight_witness :
  let w1 := runPlain [CallStartConnection 1 data42] world0 in
  let w3 := runPlain [CallStartConnection 1 data42; CallStartConnection 2 data42;
                      CallStartConnection 3 data42; VersionFetched 0 None;
                      ConnectionUpdate 0 (opened_ false)] world0 in
  (promises (exec (startConnection (Gateway 2) 0) w1) = promises w1 /\
   opened (exec (startConnection (Gateway 2) 0) w1) = opened w1 /\
   waiters (exec (startConnection (Gateway 2) 0) w1)
   = waiters w1 ++ [mkWaiter 0 false "42" (Gateway 2)]) /\
  (exists r1 r2,
     returned (exec (resumeStartConnection (mkWaiter 0 true "42" (Gateway 1))
                       (Rejected (ErrorOf "closed"))) w1) = [(1%nat, r1)] /\
     returned (exec (resumeStartConnection (mkWaiter 0 false "42" (Gateway 2))
                       (Rejected (ErrorOf "closed"))) w1) = [(2%nat, r2)] /\
     success r1 = success r2 /\ qrCode r1 = qrCode r2) /\
  opened w3 = ["42"] /\
  returned w3 = [(1%nat, mkStartResult true "Session 42 initialized" None);
                 (2%nat, mkStartResult true "Connection for 42 established" None);
                 (3%nat, mkStartResult true "Connection for 42 established" None)].
Proof.
  intros w1 w3.
  destruct (startConnection_single_flight plainStringify plainParse plainInit
              parseDecimal w1 "42") as (Hjoin & Hsame & _).
  destruct (startConnection_single_flight plainStringify plainParse plainInit
              parseDecimal world0 "42") as (_ & _ & Hone).
  split; [|split].
  - destruct (Hjoin (Gateway 2) 0%nat 0%nat) as (H1 & H2 & _ & _ & H5);
      [vm_compute; reflexivity..|].
    destruct H5 as (H6 & _); [vm_compute; reflexivity|].
    split; [exact H1|]. split; [exact H2|exact H6].
  - destruct (Hsame 0%nat (Rejected (ErrorOf "closed")) 1%nat 2%nat true false eq_refl)
      as (r1 & r2 & Hr1 & Hr2 & Hs & Hq).
    exists r1, r2. vm_compute in Hr1, Hr2 |- *.
    split; [exact Hr1|]. split; [exact Hr2|]. split; [exact Hs|exact Hq].
  - assert (Hq : quiescent world0) by (apply quiescentb_spec; vm_compute; reflexivity).
    destruct (Hone Hq eq_refl eq_refl
                1%nat data42 [(2%nat, data42); (3%nat, data42)] false eq_refl)
      as (_ & _ & _ & _ & _ & H6 & H7).
    { repeat constructor. }
    vm_compute in H6, H7 |- *. split; [exact H6|exact H7].
Defined.

(** In the history [overlapping] the callback of the restart timer deletes
    the entry of the attempt that the gateway has just started and starts
    one of its own: two attempts for "42" are pending at once, each with
    its transport, and they need not end alike.  Here the first opens and
    the second is closed for good, which also takes the session of the
    first out of the registry. *)
Lemma restart_overlaps_attempt :
  let w := runPlain overlapping world0 in
  let w' := runPlain [ConnectionUpdate 1 (opened_ false);
                      ConnectionUpdate 2 (closed loggedOut)] w in
  (promises w = [Resolved 0; Negotiating 1; Negotiating 2] /\
   ((fun sk => (s_id sk, s_status sk, s_listening sk, s_ended sk)) <$> socks w)
   = [("42", DISCONNECTED, true, false); ("42", CONNECTING, true, false);
      ("42", CONNECTING, true, false)] /\
   waiters w = [mkWaiter 1 true "42" (Gateway 2); mkWaiter 2 true "42" Restart] /\
   connectionPromises (mgr w) !! "42" = Some 2%nat /\
   opened w = ["42"; "42"; "42"]) /\
  (promises w' = [Resolved 0; Resolved 1;
                  Rejected (ErrorOf "Connection closed for 42")] /\
   (s_status <$> socks w' !! 1%nat) = Some CONNECTED /\
   sessions (mgr w') !! "42" = None).
Proof. vm_compute. repeat split; reflexivity. Qed.

(** The socket of the history [reopening] has opened after a QR, while
    the retry count of "42" was 1: it is CONNECTED, it still holds the QR
    payload, the retry count is still 1, and the timer of the first
    restart is still pending. *)
Lemma opened_keeps_qr_and_retry_count :
  let w := runPlain reopening world0 in
  (s_status <$> socks w !! 1%nat) = Some CONNECTED /\
  (s_qrCode <$> socks w !! 1%nat) = Some (Some "qr-1") /\
  sessions (mgr w) !! "42" = Some 1%nat /\
  retryAttempts (mgr w) !! "42" = Some 1%nat /\
  timers w = [Some (mkTimer 0 2000)] /\
  returned w = [(1%nat, mkStartResult true "Session 42 initialized" None);
                (2%nat, mkStartResult true "Session 42 initialized" (Some "qr-1"))].
Proof. vm_compute. repeat split; reflexivity. Qed.

(** After the turn in which the QR of "42" is issued, the call of the
    gateway has no result: it is suspended on the promise of the attempt,
    which is pending.  Its result comes in the turn of [open], when the
    session is CONNECTED; and when the QR attempts run out instead, it is a
    failure without payload. *)
Lemma qr_turn_returns_nothing :
  let w := runPlain pairing world0 in
  let scanned := runPlain (pairing ++ [ConnectionUpdate 0 (opened_ true)]) world0 in
  let expired :=
    runPlain (pairing ++
              [ConnectionUpdate 0
                 (closed (Some (mkDisconnectError (Some 408)
                                  (Some "QR refs attempts ended"))))]) world0 in
  ((s_status <$> socks w !! 0%nat) = Some QR_PENDING /\
   returned w = [] /\
   waiters w = [mkWaiter 0 true "42" (Gateway 1)] /\
   promises w = [Negotiating 0]) /\
  ((s_status <$> socks scanned !! 0%nat) = Some CONNECTED /\
   returned scanned
   = [(1%nat, mkStartResult true "Session 42 initialized" (Some "qr-1"))]) /\
  returned expired
  = [(1%nat, mkStartResult false
               "Error starting connection: Connection closed for 42" None)].
Proof. vm_compute. repeat split; reflexivity. Qed.

(** ** Reconciliation *)

(** The session of "42" after the QR, its row deleted: the pass removes
    it from the registry and ends its socket. *)
Lemma reconcile_evicts_witness :
  let w := runPlain (pairing ++ [RowDeleted 42]) world0 in
  let w' := exec reconcileSessionsWithDatabase w in
  sessions (mgr w) !! "42" = Some 0%nat /\
  gone "42" w' /\ deletedSessions (mgr w') = ∅ /\ tornDown w' 0.
Proof.
  intros w w'.
  assert (Hreg : sessions (mgr w) !! "42" = Some 0%nat) by (vm_compute; reflexivity).
  assert (Habsent : "42" ∉ dbIds (store w)).
  { assert (dbIds (store w) = ∅) as -> by (vm_compute; reflexivity).
    apply not_elem_of_empty. }
  destruct (reconcile_evicts w "42" 0 eq_refl Hreg Habsent) as (H1 & H2 & _ & H4).
  split; [exact Hreg|]. split; [exact H1|]. split; [exact H2|].
  apply H4. vm_compute. eexists. reflexivity.
Defined.

(** C7.  A restart timer of an evicted id that fires after the pass.  In
    the history [twoTimers] the second transient close of "42" comes while
    the timer of the first is pending: [handleStreamRestart] puts the
    second timer in [pendingReconnects] over the first without clearing
    it, and the first, when it fires, removes the entry, which by then
    names the second.  The connection it starts gets to the QR, so a
    session is registered under "42"; the row is deleted and the pass
    evicts the session.  The second timer, which nothing names any more, is
    still pending after the pass; it fires and opens a transport for
    "42". *)
Theorem reconcile_leaves_untracked_timer :
  let before := runPlain (twoTimers ++ [RowDeleted 42]) world0 in
  let after := runPlain [ReconcileTick] before in
  let later := runPlain [TimerFired 1; VersionFetched 3 None] after in
  (sessions (mgr before) !! "42" = Some 2%nat /\
   getAllWhatsappConnections (store before) = [] /\
   pendingReconnects (mgr before) !! "42" = None /\
   timers before = [None; Some (mkTimer 1 4000)]) /\
  (sessions (mgr after) !! "42" = None /\
   retryAttempts (mgr after) !! "42" = None /\
   connectionPromises (mgr after) !! "42" = None /\
   (s_ended <$> socks after !! 2%nat) = Some true /\
   timers after = [None; Some (mkTimer 1 4000)] /\
   opened after = ["42"; "42"; "42"]) /\
  (timers later = [None; None] /\
   connectionPromises (mgr later) !! "42" = Some 3%nat /\
   opened later = ["42"; "42"; "42"; "42"] /\
   ((fun sk => (s_id sk, s_status sk, s_listening sk, s_ended sk)) <$> socks later !! 3%nat)
   = Some ("42", CONNECTING, true, false)).
Proof. vm_compute. repeat split; reflexivity. Qed.

(** ** Reconciliation and the rows of the store *)

(** Session "42" after the QR: its row is QR_PENDING, so the pass keeps
    what is held under "42"; and a pass whose fetch fails keeps the
    manager as it is. *)
Lemma reconcile_keeps_listed_witness :
  let w := runPlain pairing world0 in
  let down := on_faults (fun _ => [Some "connection refused"]) w in
  entries (exec reconcileSessionsWithDatabase w) "42"
  = (Some 0%nat, Some 0%nat, None, None) /\
  mgr (exec reconcileSessionsWithDatabase down) = mgr down.
Proof.
  intros w down.
  destruct (reconcile_keeps_listed w "42") as (Hkeep & _).
  destruct (reconcile_keeps_listed down "42") as (_ & Hfail).
  split.
  - rewrite Hkeep.
    + vm_compute. reflexivity.
    + vm_compute. reflexivity.
    + exists 42, (mkRow None (Some "QR_PENDING") (Some "qr-1")).
      split; [|split]; vm_compute; reflexivity.
  - destruct Hfail as (Hm & _); [vm_compute; reflexivity|]. exact Hm.
Defined.

(** Session "042" for row 42: the status and the QR were written to row
    42, and the pass evicts the session all the same. *)
Lemma reconcile_evicts_unlisted_witness :
  let w := runPlain padded world0 in
  store w !! 42 = Some (mkRow None (Some "QR_PENDING") (Some "qr-1")) /\
  sessions (mgr w) !! "042" = Some 0%nat /\
  gone "042" (exec reconcileSessionsWithDatabase w).
Proof.
  intros w.
  split; [vm_compute; reflexivity|]. split; [vm_compute; reflexivity|].
  apply (reconcile_evicts_unlisted w "042" 0).
  - vm_compute. reflexivity.
  - vm_compute. reflexivity.
  - intros n row Hrow Hn. exfalso.
    assert (Hst : store w = {[ 42 := mkRow None (Some "QR_PENDING") (Some "qr-1") ]})
      by (vm_compute; reflexivity).
    rewrite Hst in Hrow. apply lookup_singleton_Some in Hrow as [<- _].
    vm_compute in Hn. discriminate Hn.
Defined.
(** ** The states of the service *)

(** After the QR, "42" names socket 0, which was made for "42". *)
Lemma registry_coherent_witness :
  exists sk, socks (runPlain pairing world0) !! 0%nat = Some sk /\ s_id sk = "42".
Proof.
  apply (registry_coherent plainStringify plainParse plainInit parseDecimal
           (runPlain pairing world0) "42" 0).
  - exists store42, [], pairing. reflexivity.
  - vm_compute. reflexivity.
Defined.

(** After the first transient close of "42", timer 0 is recorded for it
    and is pending; [deleteSession] clears it. *)
Lemma tracked_timer_live_witness :
  let w := runPlain (take 4 reopening) world0 in
  pendingReconnects (mgr w) !! "42" = Some 0%nat /\
  timers (exec (deleteSession "42") w) !! 0%nat = Some None.
Proof.
  intros w.
  assert (Ht : pendingReconnects (mgr w) !! "42" = Some 0%nat)
    by (vm_compute; reflexivity).
  split; [exact Ht|].
  apply (tracked_timer_live plainStringify plainParse plainInit parseDecimal
           w "42" 0); [|exact Ht].
  exists store42, [], (take 4 reopening). reflexivity.
Defined.

(** In the history [twoTimers] the retry count of "42" went to 2 and was
    reset, and the one timer that is left has a delay of 4000 ms. *)
Lemma backoff_bounded_witness :
  let w := runPlain twoTimers world0 in
  timers w !! 1%nat = Some (Some (mkTimer 1 4000)) /\ 2000 <= 4000 <= 30000.
Proof.
  intros w.
  assert (Ht : timers w !! 1%nat = Some (Some (mkTimer 1 4000)))
    by (vm_compute; reflexivity).
  split; [exact Ht|].
  destruct (backoff_bounded plainStringify plainParse plainInit parseDecimal w)
    as (_ & Hd).
  - exists store42, [], twoTimers. reflexivity.
  - exact (Hd 1%nat (mkTimer 1 4000) Ht).
Defined.

(** In the history [overlapping] three transports were opened for "42",
    by three attempts. *)
Lemma one_transport_per_attempt_witness :
  let w := runPlain overlapping world0 in
  opened w = s_id <$> socks w /\ (length (opened w) <= length (promises w))%nat.
Proof.
  intros w.
  destruct (one_transport_per_attempt plainStringify plainParse plainInit
              parseDecimal w) as (H1 & _ & H3).
  - exists store42, [], overlapping. reflexivity.
  - split; [exact H1|exact H3].
Defined.
(** ** The key store and the credentials *)

(** Two pre-keys are set, one of them to a falsy value, over a store that
    holds two; nothing is set for the type ["session"]; and two types that
    [KEY_MAP] does not list read the same. *)
Lemma keys_set_get_witness :
  let data : Keys := {[ "pre-key" := {[ "1" := "k1"; "2" := "" ]} ]} in
  let keys : Keys := {[ "preKeys" := {[ "2" := "old"; "3" := "k3" ]} ]} in
  let after := assignKeys data keys in
  (keysGet id "pre-key" ["1"; "2"; "3"] after !! "1" = Some "k1" /\
   keysGet id "pre-key" ["1"; "2"; "3"] after !! "2" = None /\
   keysGet id "pre-key" ["1"; "2"; "3"] after !! "3" = Some "k3") /\
  keysGet id "session" ["1"] after = keysGet id "session" ["1"] keys /\
  keysGet id "tctoken" ["1"] after = keysGet id "identity-key" ["1"] after.
Proof.
  intros data keys after.
  assert (Hpre : "pre-key" ∈ signalTypes) by (unfold signalTypes; among).
  assert (Hses : "session" ∈ signalTypes) by (unfold signalTypes; among).
  assert (Hids : forall x, x ∈ ["1"; "2"; "3"] -> x ∈ ["1"; "2"; "3"]) by done.
  assert (Hout : forall x, x ∈ ["tctoken"; "identity-key"] -> x ∉ signalTypes).
  { intros x Hx Hin. unfold signalTypes in Hin.
    rewrite ?elem_of_cons, ?elem_of_nil in Hx.
    rewrite ?elem_of_cons, ?elem_of_nil in Hin.
    destruct Hx as [->|[->|[]]];
      repeat (destruct Hin as [Hin|Hin]; [discriminate Hin|]); exact Hin. }
  destruct (keys_set_get id "pre-key" data keys ["1"; "2"; "3"])
    as (Hset & _ & _); [vm_compute; reflexivity..|].
  destruct (keys_set_get id "session" data keys ["1"])
    as (_ & Hother & _); [vm_compute; reflexivity..|].
  destruct (keys_set_get id "tctoken" after after ["1"])
    as (_ & _ & Hshared); [vm_compute; reflexivity..|].
  subst after.
  split; [|split].
  - split; [|split].
    + rewrite (Hset Hpre {[ "1" := "k1"; "2" := "" ]} "1"); [| |among];
        vm_compute; reflexivity.
    + rewrite (Hset Hpre {[ "1" := "k1"; "2" := "" ]} "2"); [| |among];
        vm_compute; reflexivity.
    + rewrite (Hset Hpre {[ "1" := "k1"; "2" := "" ]} "3"); [| |among];
        vm_compute; reflexivity.
  - apply (Hother Hses). vm_compute. reflexivity.
  - apply (Hshared "identity-key"); [apply Hout; among..|reflexivity].
Defined.

(** One request and its write: started again from row 42 the session has
    the credentials of the request.  For the id ["abc"] nothing is
    written. *)
Lemma credentials_survive_restart_witness :
  let es := [SaveRequested "b"; WriteAnswered true] in
  (exists row',
     db (saveRun plainStringify parseDecimal es (freshClosure "42" "c0" ∅ store42))
       !! 42 = Some row' /\
     getAuthState plainParse plainInit 7 (row_session row') = ("b", ∅)) /\
  db (saveRun plainStringify parseDecimal es (freshClosure "abc" "c0" ∅ store42))
  = store42.
Proof.
  intros es.
  destruct (credentials_survive_restart plainStringify plainParse plainInit
              parseDecimal "42" "c0" ∅ store42 es) as (Hrestore & _).
  destruct (credentials_survive_restart plainStringify plainParse plainInit
              parseDecimal "abc" "c0" ∅ store42 es) as (_ & Hnan).
  split.
  - apply (Hrestore 42 row42 7%nat); try reflexivity. vm_compute. discriminate.
  - apply Hnan. reflexivity.
Defined.

(** ** Exceptions, and [shutdown] *)

(** Session "42" is at the QR when its connection closes with status 401;
    the store, which accepted the status update of the QR, refuses the next
    statement. *)
Lemma listeners_return_witness :
  let w := runPlain pairing (initialWorld store42 [None; Some "db is down"]) in
  (dispatch plainStringify plainParse plainInit parseDecimal
     (ConnectionUpdate 0 (closed loggedOut)) w).1 = Abrupt (ErrorOf "db is down").
Proof.
  intros w.
  destruct (listeners_return plainStringify plainParse plainInit parseDecimal
              (ConnectionUpdate 0 (closed loggedOut)) w) as (_ & _ & H).
  apply (H 0%nat (closed loggedOut) "db is down"); vm_compute; reflexivity.
Defined.

(** Session "42" opened and lost its connection, so that its restart timer
    is pending; session "7" is at its QR.  After [shutdown] the registry is
    empty and the socket of "7" has ended, the timer of "42" is pending,
    and when it fires a transport is opened for "42". *)
Lemma shutdown_leaves_restarts_witness :
  let es := [CallStartConnection 1 data42; VersionFetched 0 None;
             ConnectionUpdate 0 (opened_ false);
             ConnectionUpdate 0 (closed connectionLost);
             CallStartConnection 2 (mkConnectionData "7" None None None);
             VersionFetched 1 None; ConnectionUpdate 1 (qrIssued "qr-7")] in
  let sv := mkService (runPlain es world0) true in
  let w' := sv_world (shutdown sv) in
  (sessions (mgr w') = ∅ /\ tornDown w' 1 /\
   exists tm, timers w' !! 0%nat = Some (Some tm) /\
              cd_id (connData w' (t_connectionData tm)) = "42") /\
  opened (runPlain [TimerFired 0; VersionFetched 2 None] w') = ["42"; "7"; "42"].
Proof.
  intros es sv w'.
  assert (Hr : reachable plainStringify plainParse plainInit parseDecimal
                 (sv_world sv)).
  { exists store42, [], es. reflexivity. }
  destruct (shutdown_leaves_restarts plainStringify plainParse plainInit
              parseDecimal sv Hr) as (_ & Hempty & Hdown & Hkeep).
  split; [split; [exact Hempty|split]|].
  - apply (Hdown "7"). vm_compute. reflexivity.
  - apply (Hkeep "42"); vm_compute; reflexivity.
  - vm_compute. reflexivity.
Defined.
(** ** The media pipeline *)

(** A string with a space is refused as it is and decoded when it comes
    as the [data] of an object. *)
Lemma media_validation_witness :
  processMediaForBaileys plainBase64 (MString "a b") "image"
  = Abrupt (ErrorOf "Invalid image data format") /\
  processMediaForBaileys plainBase64 (MObject (IString "a b") None) "image"
  = Normal (Some (plainBase64 "a b")).
Proof.
  split.
  - destruct (media_validation plainBase64 (MString "a b") "image") as (_ & H & _).
    by apply (H "a b").
  - destruct (media_validation plainBase64 (MObject (IString "a b") None) "image")
      as (_ & _ & H).
    apply (H "a b" None); [done|done|vm_compute; discriminate].
Defined.

(** An audio whose mimetype is [audio/ogg] and that says nothing of [ptt]
    is converted as a voice note, and no temporary file is left; an audio
    that the converter refuses leaves its input file. *)
Lemma audio_conversion_witness :
  let e := mkEnv {[ "/tmp/keep" := [Byte.x00] ]} [5; 6] in
  let voice := mkMessage None None None None None None (Some "audio/ogg") None
                 None None ∅ in
  let done_ := MediaProcessor_processAudio plainBase64 "/tmp" plainFfmpeg
                 (MString "QUJD") voice e in
  let refused := MediaProcessor_processAudio plainBase64 "/tmp" plainFfmpeg
                   (MString "Q") voice e in
  (done_.1 = Normal (mkMediaResult true
                       (mkMessage None None
                          (Some (MBuffer (Byte.x01 :: plainBase64 "QUJD"))) None
                          None (Some true) (Some "audio/ogg; codecs=opus") None
                          None None ∅)
                       None) /\
   disk done_.2 !! "/tmp/input_5.tmp" = None /\
   disk done_.2 !! "/tmp/6.ogg" = None /\
   disk done_.2 !! "/tmp/keep" = Some [Byte.x00]) /\
  (refused.1 = Normal (mkMediaResult false emptyMessage
                         (Some "Command failed: ffmpeg")) /\
   disk refused.2 !! "/tmp/input_5.tmp" = Some (plainBase64 "Q")).
Proof.
  intros e voice done_ refused. split.
  - pose proof (audio_conversion plainBase64 "/tmp" plainFfmpeg (MString "QUJD")
                  voice e) as H.
    vm_compute in H. destruct H as (H1 & H2 & H3 & H4).
    split; [exact H1|]. split; [exact H2|]. split; [exact H3|].
    vm_compute. reflexivity.
  - pose proof (audio_conversion plainBase64 "/tmp" plainFfmpeg (MString "Q")
                  voice e) as H.
    vm_compute in H. destruct H as (H1 & H2 & _).
    split; [exact H1|exact H2].
Defined.

(** A message with an audio behind a URL and an image that is not base64:
    with [onlyAudio] it succeeds and the image goes out as it came; without
    it the image is refused. *)
Lemma pipeline_outcomes_witness :
  let e := mkEnv ∅ [5; 6] in
  let message :=
    mkMessage (Some "hi") (Some (MString "not base64!"))
      (Some (MObject (IOther false) (Some "https://host/a.mp3")))
      None None None None None None None ∅ in
  (exists r e',
     processMessageMedia plainBase64 "/tmp" plainFfmpeg plainDownload plainName
       message true e = (Normal r, e') /\
     mr_success r = true /\
     pm_image (mr_processedMessage r) = Some (MString "not base64!") /\
     pm_text (mr_processedMessage r) = Some "hi") /\
  (exists r e',
     processMessageMedia plainBase64 "/tmp" plainFfmpeg plainDownload plainName
       message false e = (Normal r, e') /\
     mr_success r = false /\ mr_processedMessage r = emptyMessage).
Proof.
  intros e message. split.
  - destruct (pipeline_outcomes plainBase64 "/tmp" plainFfmpeg plainDownload
                plainName message true e) as (r & e' & Hr & HQ).
    exists r, e'. split; [exact Hr|].
    assert (Hs : mr_success r = true).
    { vm_compute in Hr. by injection Hr as <- _. }
    unfold pipelineResult in HQ. rewrite Hs in HQ.
    destruct HQ as ((Ht & _) & _ & Hi & _). by rewrite Hi, Ht.
  - destruct (pipeline_outcomes plainBase64 "/tmp" plainFfmpeg plainDownload
                plainName message false e) as (r & e' & Hr & HQ).
    exists r, e'. split; [exact Hr|].
    vm_compute in Hr. by injection Hr as <- _.
Defined.
(** ** The marks of [deletedSessions] *)

(** Session "42" is deleted after its QR.  Started again, it opens as it
    would had the deletion left no mark. *)
Lemma deleted_marks_inert_witness :
  let w1 := runPlain (pairing ++ [CallDeleteSession "42"]) world0 in
  let w2 := on_deletedSessions (fun _ => ∅) w1 in
  let es := [CallStartConnection 2 data42; VersionFetched 1 None;
             ConnectionUpdate 1 (opened_ false)] in
  deletedSessions (mgr w1) = {["42"]} /\
  alike (runPlain es w1) (runPlain es w2) /\
  sessions (mgr (runPlain es w1)) !! "42" = Some 1%nat.
Proof.
  intros w1 w2 es.
  assert (H : alike w1 w2) by (vm_compute; reflexivity).
  split; [vm_compute; reflexivity|]. split.
  - exact (deleted_marks_inert plainStringify plainParse plainInit parseDecimal
             es w1 w2 H).
  - vm_compute. reflexivity.
Defined.
(** ** The tokens of [connectionPromises] *)

(** After the first call for "42" the token of "42" is promise 0, which
    waits for the version, and call 1 owns it. *)
Lemma token_has_owner_witness :
  let w := runPlain [CallStartConnection 1 data42] world0 in
  pendingAt w 0 /\ ownerWaits (waiters w) "42" 0.
Proof.
  intros w.
  apply (token_has_owner plainStringify plainParse plainInit parseDecimal
           w "42" 0%nat).
  - exists store42, [], [CallStartConnection 1 data42]. reflexivity.
  - vm_compute. reflexivity.
Defined.
(** ** [resetConnection] *)

